(** * auto_indent: a shallow embedding of [scripts/auto_indent.py]

    The script reindents markup and stylesheet files.  Its two formatters,
    [format_html] and [format_css], are pure functions from text to text;
    [process_file] selects one of them by file extension and writes the
    result back when it differs from what was read.

    Text is modelled as a list of characters, a character being a code
    point below 256 (Rocq's [ascii]).  On that range Python's [str.isspace]
    holds of 9-13, 28-32, 133 and 160.  The script compares case-mapped
    text with ASCII constants only: lower-cased text with the names of
    elements and with file suffixes, upper-cased text with [<!DOCTYPE], and
    text under [re.I] with [<!DOCTYPE], [script] and [style].  On the range
    below 256 no character outside [A-Za-z] is lower-cased or matched
    under [re.I] to an ASCII letter, and the only one that is upper-cased
    to ASCII letters, code point 223, gives [SS], which [<!DOCTYPE] does not
    hold.  So mapping the ASCII letters alone, as [lower] and [upper] do
    below, gives the results of these comparisons exactly.

    The only exception the formatters can raise is the [IndexError] of
    [xs[0]] on an empty list; it is modelled by the [result] type. *)

From Stdlib Require Import List Ascii ZArith Lia Bool Arith.
Import ListNotations.
Open Scope list_scope.

(** ** Text *)

Definition str := list ascii.

Inductive str_literal : Set :=
| lit_nil
| lit_cons (c : ascii) (r : str_literal).

Fixpoint literal_of_bytes (l : list Byte.byte) : str_literal :=
  match l with
  | [] => lit_nil
  | b :: l' => lit_cons (ascii_of_byte b) (literal_of_bytes l')
  end.

Fixpoint bytes_of_literal (r : str_literal) : list Byte.byte :=
  match r with
  | lit_nil => []
  | lit_cons c r' => byte_of_ascii c :: bytes_of_literal r'
  end.

Declare Scope str_scope.
Delimit Scope str_scope with str.
Bind Scope str_scope with str.
#[warnings="-via-type-mismatch,-via-type-remapping"]
String Notation str literal_of_bytes bytes_of_literal
  (via str_literal mapping [[nil] => lit_nil, [cons] => lit_cons]) : str_scope.
Open Scope str_scope.

Definition LF : ascii := ascii_of_nat 10.
Definition CR : ascii := ascii_of_nat 13.
Definition TAB : ascii := ascii_of_nat 9.

(** ** Python's [str] methods, as far as the script uses them *)

Module PyStr.

(** [str.isspace] of one character. *)
Definition isspace (c : ascii) : bool :=
  let n := nat_of_ascii c in
  ((9 <=? n) && (n <=? 13)) || ((28 <=? n) && (n <=? 32))
  || (n =? 133) || (n =? 160).

Definition is_upper (c : ascii) : bool :=
  let n := nat_of_ascii c in (65 <=? n) && (n <=? 90).

Definition is_lower (c : ascii) : bool :=
  let n := nat_of_ascii c in (97 <=? n) && (n <=? 122).

Definition lower_char (c : ascii) : ascii :=
  if is_upper c then ascii_of_nat (nat_of_ascii c + 32) else c.

Definition upper_char (c : ascii) : ascii :=
  if is_lower c then ascii_of_nat (nat_of_ascii c - 32) else c.

(** [s.lower()] and [s.upper()]. *)
Definition lower (s : str) : str := map lower_char s.
Definition upper (s : str) : str := map upper_char s.

(** [c in chars]. *)
Definition mem (c : ascii) (chars : str) : bool :=
  existsb (Ascii.eqb c) chars.

Fixpoint str_eqb (a b : str) : bool :=
  match a, b with
  | [], [] => true
  | x :: a', y :: b' => Ascii.eqb x y && str_eqb a' b'
  | _, _ => false
  end.

(** [not s], the truth value of a string. *)
Definition is_empty (s : str) : bool :=
  match s with
  | [] => true
  | _ :: _ => false
  end.

(** [s.startswith(p)] and [s.endswith(p)]. *)
Fixpoint startswith (p s : str) : bool :=
  match p, s with
  | [], _ => true
  | x :: p', y :: s' => Ascii.eqb x y && startswith p' s'
  | _ :: _, [] => false
  end.

Definition endswith (p s : str) : bool := startswith (rev p) (rev s).

(** The longest prefix whose characters satisfy [f], and what follows it. *)
Fixpoint take_while (f : ascii -> bool) (s : str) : str :=
  match s with
  | [] => []
  | c :: r => if f c then c :: take_while f r else []
  end.

Fixpoint drop_while (f : ascii -> bool) (s : str) : str :=
  match s with
  | [] => []
  | c :: r => if f c then drop_while f r else s
  end.

(** [s.lstrip()], [s.rstrip()], [s.strip()]. *)
Definition lstrip (s : str) : str := drop_while isspace s.
Definition rstrip (s : str) : str := rev (drop_while isspace (rev s)).
Definition strip (s : str) : str := rstrip (lstrip s).

(** [s.strip(chars)]. *)
Definition strip_chars (chars s : str) : str :=
  rev (drop_while (fun c => mem c chars)
         (rev (drop_while (fun c => mem c chars) s))).

(** Splitting at every character that satisfies [f]; the pieces between
    two separators, before the first and after the last are all kept. *)
Fixpoint split_when (f : ascii -> bool) (s : str) : list str :=
  match s with
  | [] => [[]]
  | c :: r =>
      if f c then [] :: split_when f r
      else match split_when f r with
           | [] => [[c]]
           | piece :: pieces => (c :: piece) :: pieces
           end
  end.

(** [s.split(sep)] for a separator of one character. *)
Definition split (sep : ascii) (s : str) : list str :=
  split_when (Ascii.eqb sep) s.

(** [s.split()]: the maximal runs of characters that are not whitespace. *)
Definition split_ws (s : str) : list str :=
  filter (fun w => negb (is_empty w)) (split_when isspace s).

(** [sep.join(parts)]. *)
Fixpoint join (sep : str) (parts : list str) : str :=
  match parts with
  | [] => []
  | [p] => p
  | p :: rest => p ++ sep ++ join sep rest
  end.

(** [s.replace(old, new)] for [old] of one character. *)
Definition replace1 (old : ascii) (new : str) (s : str) : str :=
  flat_map (fun c => if Ascii.eqb c old then new else [c]) s.

(** [s.replace(old, new)] for [old] of two characters [o1 o2]. *)
Fixpoint replace2 (o1 o2 : ascii) (new : str) (s : str) : str :=
  match s with
  | [] => []
  | c :: r =>
      match r with
      | d :: r' =>
          if Ascii.eqb c o1 && Ascii.eqb d o2 then new ++ replace2 o1 o2 new r'
          else c :: replace2 o1 o2 new r
      | [] => [c]
      end
  end.

(** [s.index(c)]: the position of the first [c], if there is one. *)
Fixpoint index (c : ascii) (s : str) : option nat :=
  match s with
  | [] => None
  | x :: r => if Ascii.eqb x c then Some 0%nat else option_map S (index c r)
  end.

(** [s * n], which is empty when [n] is not positive. *)
Definition times (s : str) (n : Z) : str := concat (repeat s (Z.to_nat n)).

End PyStr.
Import PyStr.

(** ** Exceptions *)

Inductive result (A : Type) : Type :=
| Ok (a : A)
| IndexError.
Arguments Ok {A} a.
Arguments IndexError {A}.

Definition bind {A B : Type} (r : result A) (k : A -> result B) : result B :=
  match r with
  | Ok a => k a
  | IndexError => IndexError
  end.

Notation "x <- r ;; k" := (bind r (fun x => k))
  (at level 61, r at next level, right associativity).

(** [xs[0]]. *)
Definition first {A : Type} (xs : list A) : result A :=
  match xs with
  | x :: _ => Ok x
  | [] => IndexError
  end.

(** ** The regular expressions of the script *)

Module Re.

(** [.*?pat] under [re.S]: the shortest prefix of [s] that ends with the
    first occurrence of [pat], and the text after it. *)
Fixpoint lazy_until (pat s : str) : option (str * str) :=
  if startswith pat s then Some (pat, skipn (length pat) s)
  else match s with
       | [] => None
       | c :: r =>
           match lazy_until pat r with
           | Some (m, rest) => Some (c :: m, rest)
           | None => None
           end
       end.

(** A literal matched under [re.I]. *)
Definition startswith_ci (p s : str) : bool := startswith (lower p) (lower s).

(** [<!--.*?-->] *)
Definition comment (s : str) : option (str * str) :=
  if startswith "<!--" s then
    match lazy_until "-->" (skipn 4 s) with
    | Some (m, rest) => Some (firstn 4 s ++ m, rest)
    | None => None
    end
  else None.

(** [<!DOCTYPE.*?>] under [re.I] *)
Definition doctype (s : str) : option (str * str) :=
  if startswith_ci "<!DOCTYPE" s then
    match lazy_until ">" (skipn 9 s) with
    | Some (m, rest) => Some (firstn 9 s ++ m, rest)
    | None => None
    end
  else None.

Definition not_gt (c : ascii) : bool := negb (Ascii.eqb c ">").
Definition not_lt (c : ascii) : bool := negb (Ascii.eqb c "<").

(** [<[^>]+>]: the greedy run takes every character up to the next [>];
    giving characters back cannot help, since they are not [>]. *)
Definition tag (s : str) : option (str * str) :=
  match s with
  | "<"%char :: r =>
      match take_while not_gt r, drop_while not_gt r with
      | (_ :: _) as run, ">"%char :: rest => Some ("<"%char :: run ++ ">", rest)
      | _, _ => None
      end
  | _ => None
  end.

(** [[^<]+] *)
Definition text_run (s : str) : option (str * str) :=
  match take_while not_lt s with
  | [] => None
  | run => Some (run, drop_while not_lt s)
  end.

(** One match of [token_re] at the start of [s]: the alternatives are tried
    in the order in which the pattern lists them. *)
Definition token_re (s : str) : option (str * str) :=
  match comment s with
  | Some m => Some m
  | None =>
      match doctype s with
      | Some m => Some m
      | None =>
          match tag s with
          | Some m => Some m
          | None => text_run s
          end
      end
  end.

(** [token_re.findall(text)]: where no alternative matches, the scan moves
    on by one character, which then belongs to no token. *)
Fixpoint findall_from (fuel : nat) (s : str) : list str :=
  match fuel with
  | O => []
  | S fuel' =>
      match s with
      | [] => []
      | _ :: r =>
          match token_re s with
          | Some (tok, rest) => tok :: findall_from fuel' rest
          | None => findall_from fuel' r
          end
      end
  end.

Definition findall (text : str) : list str := findall_from (length text) text.

Definition is_alnum (c : ascii) : bool :=
  let n := nat_of_ascii c in
  is_lower c || is_upper c || ((48 <=? n) && (n <=? 57)).

(** The class [[a-zA-Z0-9:-]]. *)
Definition name_char (c : ascii) : bool :=
  is_alnum c || Ascii.eqb c ":" || Ascii.eqb c "-".

(** [re.match(r'<\s*([a-zA-Z0-9:-]+)', s)], giving group 1. *)
Definition open_name (s : str) : option str :=
  match s with
  | "<"%char :: r =>
      match take_while name_char (lstrip r) with
      | [] => None
      | name => Some name
      end
  | _ => None
  end.

(** [re.match(r'\s*</\s*' + tag_name + r'\s*>', t, re.I)], as a truth value;
    [tag_name] is [script] or [style], so it stands for itself in the
    pattern. *)
Definition close_of (tag_name t : str) : bool :=
  match lstrip t with
  | "<"%char :: "/"%char :: r =>
      let r1 := lstrip r in
      startswith_ci tag_name r1
      && match lstrip (skipn (length tag_name) r1) with
         | ">"%char :: _ => true
         | _ => false
         end
  | _ => false
  end.

End Re.

Open Scope Z_scope.

(** ** Emitted lines

    Each line appended to [out_lines] is either the empty string or
    ['  ' * depth + content]; the model keeps the depth next to the content
    and renders the line when the output is assembled. *)

Inductive emitted : Type :=
| Indented (depth : Z) (content : str)
| Blank.

Definition render (e : emitted) : str :=
  match e with
  | Indented d c => times "  " d ++ c
  | Blank => ""
  end.

(** ['\n'.join(out_lines).rstrip() + '\n'] *)
Definition assemble (out_lines : list emitted) : str :=
  rstrip (join [LF] (map render out_lines)) ++ [LF].

(** The first two lines of both formatters. *)
Definition normalize (text : str) : str :=
  replace1 TAB "  " (replace1 CR [LF] (replace2 CR LF [LF] text)).

(** ** The markup reindenter *)

Definition VOID_ELEMENTS : list str :=
  ["area"; "base"; "br"; "col"; "embed"; "hr"; "img"; "input"; "link";
   "meta"; "param"; "source"; "track"; "wbr"].

Definition in_set (s : str) (set : list str) : bool := existsb (str_eqb s) set.

Definition is_self_closing (tag : str) : result bool :=
  if endswith "/" tag then Ok true
  else w <- first (split_ws tag) ;; Ok (in_set (lower w) VOID_ELEMENTS).

(** The argument that [format_html] passes to [is_self_closing]. *)
Definition bare_name (tok_strip : str) : result str :=
  if mem " " tok_strip then first (split_ws (strip_chars "<>/ " tok_strip))
  else Ok (strip_chars "<>/" tok_strip).

(** The condition of the branch "self-closing or void". *)
Definition self_closing_or_void (tok_strip : str) : result bool :=
  if endswith "/>" tok_strip then Ok true
  else tag <- bare_name tok_strip ;; is_self_closing tag.

Definition tag_name_of (tok_strip : str) : str :=
  match Re.open_name tok_strip with
  | Some g => lower g
  | None => ""
  end.

Definition opaque_name (tag_name : str) : bool :=
  in_set tag_name ["script"; "style"].

(** The lines of a script or style block: [inner] holds the tokens between
    the opening tag and its closing tag. *)
Definition block_line (indent : Z) (line : str) : emitted :=
  if is_empty (strip line) then Blank else Indented indent (rstrip line).

Definition block_lines (indent : Z) (inner : list str) : list emitted :=
  map (block_line indent) (split LF (concat inner)).

(** The lines of a text node. *)
Definition text_lines (indent : Z) (tok : str) : list emitted :=
  flat_map (fun line => if is_empty (strip line) then []
                        else [Indented indent (strip line)])
           (split LF tok).

(** The [while] loop of [format_html], on the tokens from index [i] on.
    The inner [scan] is the loop that collects a script or style block. *)
Fixpoint html_loop (tokens : list str) (indent : Z) (out_lines : list emitted)
  {struct tokens} : result (list emitted) :=
  match tokens with
  | [] => Ok out_lines
  | tok :: rest =>
      let tok_strip := strip tok in
      if is_empty tok_strip then html_loop rest indent out_lines
      else if startswith "<!--" tok_strip
              || startswith "<!DOCTYPE" (upper tok_strip) then
        html_loop rest indent (out_lines ++ [Indented indent tok_strip])
      else if startswith "<" tok_strip then
        if startswith "</" tok_strip then
          let indent := Z.max (indent - 1) 0 in
          html_loop rest indent (out_lines ++ [Indented indent tok_strip])
        else
          let tag_name := tag_name_of tok_strip in
          if opaque_name tag_name then
            let out_lines := out_lines ++ [Indented indent tok_strip] in
            let indent := indent + 1 in
            (fix scan (ts inner : list str) {struct ts} :=
               match ts with
               | [] => Ok (out_lines ++ block_lines indent inner)
               | t :: ts' =>
                   if Re.close_of tag_name t then
                     let out_lines := out_lines ++ block_lines indent inner in
                     let indent := Z.max (indent - 1) 0 in
                     html_loop ts' indent
                       (out_lines ++ [Indented indent (strip t)])
                   else scan ts' (inner ++ [t])
               end) rest []
          else
            match self_closing_or_void tok_strip with
            | IndexError => IndexError
            | Ok true =>
                html_loop rest indent (out_lines ++ [Indented indent tok_strip])
            | Ok false =>
                html_loop rest (indent + 1)
                  (out_lines ++ [Indented indent tok_strip])
            end
      else html_loop rest indent (out_lines ++ text_lines indent tok)
  end.

(** [out_lines] at the end of the loop. *)
Definition html_lines (text : str) : result (list emitted) :=
  html_loop (Re.findall (normalize text)) 0 [].

Definition format_html (text : str) : result str :=
  out_lines <- html_lines text ;; Ok (assemble out_lines).

(** ** The stylesheet reindenter *)

(** One turn of the [for] loop of [format_css]. *)
Definition css_line (st : Z * list emitted) (raw : str) : Z * list emitted :=
  let '(depth, out) := st in
  let line := strip raw in
  if is_empty line then (depth, out)
  else
    let depth := if startswith "}" line then Z.max (depth - 1) 0 else depth in
    let out := out ++ [Indented depth line] in
    let depth := if endswith "{" line then depth + 1 else depth in
    let depth :=
      if mem "{" line && mem "}" line
         && match index "{" line, index "}" line with
            | Some i, Some j => (i <? j)%nat
            | _, _ => false
            end
      then depth (* pass *)
      else depth in
    (depth, out).

Definition css_lines (text : str) : list emitted :=
  snd (fold_left css_line (split LF (normalize text)) (0, [])).

Definition format_css (text : str) : str := assemble (css_lines text).

(** ** The dispatcher

    [path.suffix] is computed by [pathlib]; a path is modelled by the text
    that [str(path)] gives and by its suffix.  [process_file] is given the
    text that [read_text] returned and yields the effects it performs, in
    order. *)

Record Path : Type := { path_str : str; suffix : str }.

Inductive effect : Type :=
| WriteText (path : Path) (data : str)
| Print (line : str).

(** The value of [new] in [process_file]. *)
Definition reformat (path : Path) (text : str) : result str :=
  if in_set (lower (suffix path)) [".html"; ".htm"] then format_html text
  else if in_set (lower (suffix path)) [".css"] then Ok (format_css text)
  else Ok (replace1 TAB "  " text).

Definition process_file (path : Path) (text : str) : result (list effect) :=
  new <- reformat path text ;;
  if negb (str_eqb new text) then
    Ok [WriteText path new; Print ("Formatted: " ++ path_str path)]
  else Ok [Print ("Unchanged: " ++ path_str path)].

(** ** The entry point

    [main] runs [process_file] on every argument after the first.  The
    files are modelled by the text that [read_text] gives for a path, keyed
    by [str(path)]: paths with different texts are taken to name different
    files.  A path without text cannot be read: [read_text] raises there
    ([OSError], or [UnicodeDecodeError] for a file that is not UTF-8), and
    the exception leaves [main].  [write_text] and [print] are taken to
    succeed, and the text written is the text read afterwards (the texts
    written hold no carriage return more than the text read did, and
    [read_text] gives none).  [Path(p)] belongs to [pathlib] and is a
    parameter, [Path_]. *)

Definition files : Type := str -> option str.

Record world : Type := { fs : files; stdout : list str }.

Inductive raised : Type :=
| RaisedIndexError
| RaisedReadError.

Definition write_text (w : files) (path : Path) (data : str) : files :=
  fun q => if str_eqb q (path_str path) then Some data else w q.

Definition perform (w : world) (e : effect) : world :=
  match e with
  | WriteText path data =>
      {| fs := write_text (fs w) path data; stdout := stdout w |}
  | Print line => {| fs := fs w; stdout := stdout w ++ [line] |}
  end.

(** [process_file(path)], with the file read from the world. *)
Definition run_process_file (path : Path) (w : world) : world * option raised :=
  match fs w (path_str path) with
  | None => (w, Some RaisedReadError)
  | Some text =>
      match process_file path text with
      | Ok effects => (fold_left perform effects w, None)
      | IndexError => (w, Some RaisedIndexError)
      end
  end.

(** The [for] loop of [main]. *)
Fixpoint run_files (Path_ : str -> Path) (args : list str) (w : world)
  : world * option raised :=
  match args with
  | [] => (w, None)
  | p :: rest =>
      match run_process_file (Path_ p) w with
      | (w', None) => run_files Path_ rest w'
      | (w', Some e) => (w', Some e)
      end
  end.

Inductive outcome : Type :=
| Returns (code : Z)
| Raises (e : raised).

Definition main (Path_ : str -> Path) (argv : list str) (w : world)
  : world * outcome :=
  if (length argv <? 2)%nat then
    ({| fs := fs w;
        stdout := stdout w ++ ["Usage: auto_indent.py file1 [file2 ...]"] |},
     Returns 1)
  else
    match run_files Path_ (tl argv) w with
    | (w', None) => (w', Returns 0)
    | (w', Some e) => (w', Raises e)
    end.

(** * Notions used to state and prove the properties *)

(** ** Texts *)

(** A text given line by line. *)
Definition unlines (ls : list str) : str := join [LF] ls.

(** A text is [trimmed] when neither its first nor its last character is
    whitespace; the empty text is trimmed. *)
Definition trimmed (s : str) : Prop :=
  lstrip s = s /\ rstrip s = s.

(** A text ends visibly when its last character is not whitespace. *)
Definition ends_visible (s : str) : Prop :=
  exists r c, s = r ++ [c] /\ isspace c = false.

(** A text that is a body without whitespace at its end, followed by one
    line break: it ends with exactly one line break, and the line before
    that break, when there is one, is not blank. *)
Definition one_final_break (out : str) : Prop :=
  exists body,
    out = body ++ [LF] /\ rstrip body = body
    /\ (body = [] \/ ends_visible body).

(** [s] without the longest run of characters that satisfy [P] at its end. *)
Definition rstrip_by (P : ascii -> bool) (s : str) : str :=
  rev (drop_while P (rev s)).

(** [pat] occurs in [s]. *)
Definition occurs (pat s : str) : Prop := exists a b, s = a ++ pat ++ b.

(** The number of blank pieces of a text that is split at line breaks. *)
Definition blank_count (pieces : list str) : nat :=
  length (filter (fun p => is_empty (strip p)) pieces).

(** ** Emitted lines *)

(** The depth of an emitted line is zero or more. *)
Definition depth_ok (e : emitted) : Prop :=
  match e with
  | Indented d _ => 0 <= d
  | Blank => True
  end.

(** The number of empty lines among emitted lines. *)
Definition empty_count (lines : list emitted) : nat :=
  length (filter (fun e => match e with Blank => true | _ => false end) lines).

(** Every emitted line, each followed by a line break. *)
Definition render_all (lines : list emitted) : str :=
  flat_map (fun e => render e ++ [LF]) lines.

(** The content of an emitted line occurs in [s]. *)
Definition content_in (s : str) (e : emitted) : Prop :=
  match e with
  | Indented _ c => occurs c s
  | Blank => True
  end.

(** A line with content, which neither begins nor ends with whitespace. *)
Definition visible_entry (e : emitted) : Prop :=
  exists d c, e = Indented d c /\ c <> [] /\ strip c = c.

(** A line of text as [text_lines] emits it. *)
Definition text_entry (indent : Z) (e : emitted) : Prop :=
  exists c, e = Indented indent c /\ strip c = c /\ c <> []
            /\ ~ In LF c /\ ~ In "<"%char c.

(** ** The stylesheet loop *)

(** The depth at which a trimmed line is emitted. *)
Definition css_emit_depth (depth : Z) (line : str) : Z :=
  if startswith "}" line then Z.max (depth - 1) 0 else depth.

(** The depth after a trimmed line. *)
Definition css_next_depth (depth : Z) (line : str) : Z :=
  if endswith "{" line then css_emit_depth depth line + 1
  else css_emit_depth depth line.

(** A line as the stylesheet loop emits it: the trimmed form of an input
    line that is not blank. *)
Definition css_entry (raws : list str) (e : emitted) : Prop :=
  exists d raw, In raw raws /\ strip raw <> [] /\ e = Indented d (strip raw).

(** ** The markup loop *)

(** The kinds of token that the loop tells apart, on the trimmed token. *)
Definition is_comment_or_doctype (s : str) : bool :=
  startswith "<!--" s || startswith "<!DOCTYPE" (upper s).

Definition is_closing_tag (s : str) : bool := startswith "</" s.

Definition is_opaque_open (s : str) : bool := opaque_name (tag_name_of s).

(** An opening tag that is handled by the last two branches for tags. *)
Definition is_plain_open (s : str) : bool :=
  negb (is_empty s) && negb (is_comment_or_doctype s) && startswith "<" s
  && negb (is_closing_tag s) && negb (is_opaque_open s).

(** A token that does not open a script or style block. *)
Definition not_opaque (tok : str) : Prop := is_opaque_open (strip tok) = false.

(** A token of markup: a comment, a doctype or a tag. *)
Definition markup (tok : str) : Prop :=
  exists body, tok = "<"%char :: body ++ ">".

(** The text of an opening tag with the name [name]. *)
Definition plain_tag (name mid : str) : str := "<" ++ name ++ mid ++ ">".

(** The shapes of opening tag for which the name that the loop tests is
    the element name: [<name>], [<name/>], and [<name] followed by
    whitespace, anything, and [>]. *)
Definition plain_mid (mid : str) : Prop :=
  mid = [] \/ mid = "/"
  \/ exists w mid', mid = w :: mid' /\ isspace w = true.

(** The loop that collects a script or style block, as a function of its
    own: [ts] are the tokens from index [i] on, [inner] what was collected
    so far, [out_lines] and [indent] the state after the opening tag. *)
Fixpoint html_block (tag_name : str) (out_lines : list emitted) (indent : Z)
  (ts inner : list str) {struct ts} : result (list emitted) :=
  match ts with
  | [] => Ok (out_lines ++ block_lines indent inner)
  | t :: ts' =>
      if Re.close_of tag_name t then
        html_loop ts' (Z.max (indent - 1) 0)
          ((out_lines ++ block_lines indent inner)
             ++ [Indented (Z.max (indent - 1) 0) (strip t)])
      else html_block tag_name out_lines indent ts' (inner ++ [t])
  end.

(** The tokens of a block up to its closing tag, and the tokens from the
    closing tag on. *)
Fixpoint collect (tag_name : str) (ts : list str) : list str * list str :=
  match ts with
  | [] => ([], [])
  | t :: ts' =>
      if Re.close_of tag_name t then ([], ts)
      else (t :: fst (collect tag_name ts'), snd (collect tag_name ts'))
  end.

(** The interior, as the loop collects it, of the block that a text opens
    with, split at line breaks. *)
Definition opening_block_interior (tag_name : str) (text : str) : list str :=
  split LF (concat (fst (collect tag_name (tl (Re.findall (normalize text)))))).

(** One turn of the [while] loop: from the token at index [i], the tokens
    after it, the depth and the lines so far, it gives the tokens that
    remain, the new depth and the new lines.  [html_loop_step] below shows
    that [html_loop] is this turn, repeated. *)
Definition html_step (tok : str) (rest : list str) (indent : Z)
  (out : list emitted) : result (list str * Z * list emitted) :=
  let s := strip tok in
  if is_empty s then Ok (rest, indent, out)
  else if is_comment_or_doctype s then
    Ok (rest, indent, out ++ [Indented indent s])
  else if startswith "<" s then
    if is_closing_tag s then
      Ok (rest, Z.max (indent - 1) 0,
          out ++ [Indented (Z.max (indent - 1) 0) s])
    else if is_opaque_open s then
      let inner := fst (collect (tag_name_of s) rest) in
      let block :=
        (out ++ [Indented indent s]) ++ block_lines (indent + 1) inner in
      match snd (collect (tag_name_of s) rest) with
      | [] => Ok ([], indent + 1, block)
      | t :: ts =>
          Ok (ts, Z.max (indent + 1 - 1) 0,
              block ++ [Indented (Z.max (indent + 1 - 1) 0) (strip t)])
      end
    else
      b <- self_closing_or_void s ;;
      Ok (rest, if b then indent else indent + 1,
          out ++ [Indented indent s])
  else Ok (rest, indent, out ++ text_lines indent tok).

(** The states of the markup loop on [text]: the tokens from index [i] on,
    the depth and the lines emitted so far, at the start of any turn. *)
Inductive html_reaches (text : str) : list str -> Z -> list emitted -> Prop :=
| reaches_start : html_reaches text (Re.findall (normalize text)) 0 []
| reaches_turn tok rest indent out ts d o :
    html_reaches text (tok :: rest) indent out ->
    html_step tok rest indent out = Ok (ts, d, o) ->
    html_reaches text ts d o.

(** What one token does to the depth and which lines it emits, when it
    does not open a script or style block; the turn of the loop then
    leaves the tokens after it as they are. *)
Definition token_step (tok : str) (indent : Z) : result (Z * list emitted) :=
  match html_step tok [] indent [] with
  | Ok (_, d, new) => Ok (d, new)
  | IndexError => IndexError
  end.

(** The lines that the loop emits for a run of such tokens. *)
Fixpoint simple_run (tokens : list str) (indent : Z) : result (list emitted) :=
  match tokens with
  | [] => Ok []
  | tok :: rest =>
      match token_step tok indent with
      | Ok (d, new) =>
          match simple_run rest d with
          | Ok more => Ok (new ++ more)
          | IndexError => IndexError
          end
      | IndexError => IndexError
      end
  end.

(** When the output is read again, the whitespace between two lines and
    the lines of text between two tags form one token of text.  It is
    [pending] while it is being put together: it holds no [<], and it is
    empty or ends with a line break. *)
Definition pending (p : str) : Prop :=
  ~ In "<"%char p /\ (p = [] \/ exists a, p = a ++ [LF]).

(** ** Characters kept and lost *)

(** [t] is [s] with some of its [<] characters deleted. *)
Inductive drops_lt : str -> str -> Prop :=
| drops_nil : drops_lt [] []
| drops_keep c s t : drops_lt s t -> drops_lt (c :: s) (c :: t)
| drops_skip s t : drops_lt s t -> drops_lt ("<"%char :: s) t.

(** A character that is not whitespace. *)
Definition is_ink (c : ascii) : bool := negb (isspace c).

(** A character that is neither whitespace nor [<]. *)
Definition is_ink_not_lt (c : ascii) : bool :=
  negb (isspace c) && negb (Ascii.eqb c "<").

(** The emitted lines, one after the other, without line breaks. *)
Definition render_cat (lines : list emitted) : str :=
  flat_map render lines.

(** The content of an emitted line, without its prefix. *)
Definition content_of (e : emitted) : str :=
  match e with
  | Indented _ c => c
  | Blank => []
  end.

(** The lines of a text that are not blank, trimmed. *)
Definition nonblank_lines (s : str) : list str :=
  filter (fun l => negb (is_empty l)) (map strip (split LF s)).

(** ** Balanced input *)

(** An emitted line lies at depth [d] or deeper. *)
Definition at_least (d : Z) (e : emitted) : Prop :=
  match e with
  | Indented x _ => d <= x
  | Blank => True
  end.

(** A stylesheet line that neither starts with a closing brace nor ends
    with an opening brace (a blank line is one), a line that opens a block,
    and a line that closes one. *)
Definition css_neutral (raw : str) : Prop :=
  startswith "}" (strip raw) = false /\ endswith "{" (strip raw) = false.

Definition css_opens (raw : str) : Prop :=
  startswith "}" (strip raw) = false /\ endswith "{" (strip raw) = true.

Definition css_closes (raw : str) : Prop :=
  startswith "}" (strip raw) = true /\ endswith "{" (strip raw) = false.

(** Lines in which every block that is opened is closed. *)
Inductive css_balanced : list str -> Prop :=
| cb_nil : css_balanced []
| cb_line raw rest :
    css_neutral raw -> css_balanced rest -> css_balanced (raw :: rest)
| cb_block o inner c rest :
    css_opens o -> css_balanced inner -> css_closes c -> css_balanced rest ->
    css_balanced (o :: inner ++ c :: rest).

(** A token that leaves the depth as it is: whitespace, text, a comment, a
    doctype, or a tag that is self-closing or void. *)
Definition html_leaf (tok : str) : Prop :=
  startswith "<" (strip tok) = false
  \/ is_comment_or_doctype (strip tok) = true
  \/ (is_plain_open (strip tok) = true
      /\ self_closing_or_void (strip tok) = Ok true).

(** An opening tag after which the depth grows, and a closing tag. *)
Definition html_opens (tok : str) : Prop :=
  is_plain_open (strip tok) = true
  /\ self_closing_or_void (strip tok) = Ok false.

Definition html_closes (tok : str) : Prop :=
  is_closing_tag (strip tok) = true.

(** Tokens in which every element that is opened is closed, and every
    script or style block has its closing tag. *)
Inductive html_balanced : list str -> Prop :=
| hb_nil : html_balanced []
| hb_leaf tok rest :
    html_leaf tok -> html_balanced rest -> html_balanced (tok :: rest)
| hb_element o inner c rest :
    html_opens o -> html_balanced inner -> html_closes c ->
    html_balanced rest -> html_balanced (o :: inner ++ c :: rest)
| hb_block o inner c rest :
    is_opaque_open (strip o) = true ->
    Forall (fun t => Re.close_of (tag_name_of (strip o)) t = false) inner ->
    Re.close_of (tag_name_of (strip o)) c = true ->
    html_balanced rest -> html_balanced (o :: inner ++ c :: rest).

(** ** Files *)

(** The suffix of a path selects the markup reindenter. *)
Definition is_markup_path (path : Path) : bool :=
  in_set (lower (suffix path)) [".html"; ".htm"].

(** The file of [path] holds a text that [process_file] leaves as it
    is. *)
Definition settled (w : files) (path : Path) : Prop :=
  exists text, w (path_str path) = Some text /\ reformat path text = Ok text.

(** The text of [path], if it is a markup file, has no script or style
    block. *)
Definition plain (w : files) (path : Path) : Prop :=
  is_markup_path path = true ->
  forall text, w (path_str path) = Some text ->
               Forall not_opaque (Re.findall (normalize text)).

(** The line that [process_file] prints for a path. *)
Definition report_of (path : Path) (line : str) : Prop :=
  line = "Formatted: " ++ path_str path
  \/ line = "Unchanged: " ++ path_str path.

(** * Facts about the text operations *)

Section TextFacts.

Lemma str_eqb_eq (a b : str) : str_eqb a b = true <-> a = b.
Proof.
  revert b; induction a as [|x a IH]; intros [|y b]; simpl; split;
    try congruence; try reflexivity.
  - rewrite andb_true_iff, Ascii.eqb_eq, IH. intros [-> ->]; reflexivity.
  - intros E; injection E as -> ->.
    rewrite Ascii.eqb_refl; simpl; apply IH; reflexivity.
Qed.

Lemma str_eqb_refl (a : str) : str_eqb a a = true.
Proof. apply str_eqb_eq; reflexivity. Qed.

Lemma take_drop_while (f : ascii -> bool) (s : str) :
  take_while f s ++ drop_while f s = s.
Proof.
  induction s as [|c s IH]; simpl; [reflexivity|].
  destruct (f c); simpl; [rewrite IH|]; reflexivity.
Qed.

Lemma take_while_all (f : ascii -> bool) (s : str) :
  Forall (fun c => f c = true) (take_while f s).
Proof.
  induction s as [|c s IH]; simpl; [constructor|].
  destruct (f c) eqn:E; constructor; assumption.
Qed.

Lemma drop_while_head (f : ascii -> bool) (s : str) c r :
  drop_while f s = c :: r -> f c = false.
Proof.
  induction s as [|x s IH]; simpl; [discriminate|].
  destruct (f x) eqn:E; [exact IH|].
  intros H; injection H as -> _; exact E.
Qed.

Lemma drop_while_app_all (f : ascii -> bool) (ws s : str) :
  Forall (fun c => f c = true) ws -> drop_while f (ws ++ s) = drop_while f s.
Proof.
  induction 1 as [|c ws Hc _ IH]; simpl; [reflexivity|].
  rewrite Hc; exact IH.
Qed.

Lemma drop_while_stop (f : ascii -> bool) (c : ascii) (s : str) :
  f c = false -> drop_while f (c :: s) = c :: s.
Proof. intros H; simpl; rewrite H; reflexivity. Qed.

Lemma drop_while_all (f : ascii -> bool) (s : str) :
  Forall (fun c => f c = true) s -> drop_while f s = [].
Proof.
  intros H. rewrite <- (app_nil_r s), drop_while_app_all by assumption.
  reflexivity.
Qed.

Lemma drop_while_incl (f : ascii -> bool) (s : str) c :
  In c (drop_while f s) -> In c s.
Proof.
  intros H. rewrite <- (take_drop_while f s). apply in_or_app; right; exact H.
Qed.

Lemma lstrip_idem (s : str) : lstrip (lstrip s) = lstrip s.
Proof.
  unfold lstrip. destruct (drop_while isspace s) as [|c r] eqn:E;
    [reflexivity|].
  apply drop_while_stop. exact (drop_while_head _ _ _ _ E).
Qed.

Lemma rstrip_idem (s : str) : rstrip (rstrip s) = rstrip s.
Proof.
  unfold rstrip. rewrite rev_involutive.
  f_equal. exact (lstrip_idem (rev s)).
Qed.

Lemma rstrip_snoc (s : str) (c : ascii) :
  isspace c = false -> rstrip (s ++ [c]) = s ++ [c].
Proof.
  intros H. unfold rstrip. rewrite rev_app_distr; simpl. rewrite H.
  simpl. rewrite rev_involutive; reflexivity.
Qed.

Lemma rstrip_nil_or_snoc (s : str) :
  rstrip s = [] \/ exists r c, rstrip s = r ++ [c] /\ isspace c = false.
Proof.
  unfold rstrip. destruct (drop_while isspace (rev s)) as [|c r] eqn:E.
  - left; reflexivity.
  - right. exists (rev r), c. split; [reflexivity|].
    exact (drop_while_head _ _ _ _ E).
Qed.

(** What [rstrip] removes is a run of whitespace at the end. *)
Lemma rstrip_decompose (s : str) :
  exists ws, s = rstrip s ++ ws /\ Forall (fun c => isspace c = true) ws.
Proof.
  exists (rev (take_while isspace (rev s))). split.
  - unfold rstrip. rewrite <- rev_app_distr, take_drop_while, rev_involutive.
    reflexivity.
  - apply Forall_rev, take_while_all.
Qed.

Lemma lstrip_rstrip_comm_head (s : str) c r :
  s = c :: r -> isspace c = false -> lstrip (rstrip s) = rstrip s.
Proof.
  intros -> Hc. destruct (rstrip_decompose (c :: r)) as (ws & E & Hws).
  destruct (rstrip (c :: r)) as [|x t] eqn:R; [reflexivity|].
  simpl in E. injection E as <- _.
  unfold lstrip. apply drop_while_stop; exact Hc.
Qed.

Lemma strip_trimmed (s : str) : trimmed (strip s).
Proof.
  unfold trimmed, strip. split; [|apply rstrip_idem].
  destruct (lstrip s) as [|c r] eqn:E; [reflexivity|].
  apply (lstrip_rstrip_comm_head _ c r eq_refl).
  exact (drop_while_head _ _ _ _ E).
Qed.

Lemma trimmed_strip (s : str) : trimmed s -> strip s = s.
Proof. intros [L R]. unfold strip. rewrite L; exact R. Qed.

Lemma strip_idem (s : str) : strip (strip s) = strip s.
Proof. apply trimmed_strip, strip_trimmed. Qed.

Lemma lstrip_app_space (ws s : str) :
  Forall (fun c => isspace c = true) ws -> lstrip (ws ++ s) = lstrip s.
Proof. apply drop_while_app_all. Qed.

Lemma strip_app_space (ws s : str) :
  Forall (fun c => isspace c = true) ws -> strip (ws ++ s) = strip s.
Proof. intros H. unfold strip. rewrite lstrip_app_space by exact H. reflexivity. Qed.

Lemma rstrip_incl (s : str) c : In c (rstrip s) -> In c s.
Proof.
  unfold rstrip. rewrite <- in_rev. intros H.
  apply in_rev. exact (drop_while_incl _ _ _ H).
Qed.

Lemma strip_incl (s : str) c : In c (strip s) -> In c s.
Proof.
  intros H. apply rstrip_incl in H. exact (drop_while_incl _ _ _ H).
Qed.

Lemma times_spaces (d : Z) : Forall (fun c => isspace c = true) (times "  " d).
Proof.
  unfold times. induction (Z.to_nat d) as [|n IH]; simpl; [constructor|].
  repeat constructor. exact IH.
Qed.

Lemma times_in (d : Z) c : In c (times "  " d) -> c = " "%char.
Proof.
  unfold times. induction (Z.to_nat d) as [|n IH]; simpl; [tauto|].
  intros [E|[E|H]]; auto.
Qed.

End TextFacts.

Section SplitJoin.

Variable sep : ascii.

Lemma split_when_nonempty (f : ascii -> bool) (s : str) : split_when f s <> [].
Proof.
  induction s as [|c s IH]; simpl; [discriminate|].
  destruct (f c); [discriminate|].
  destruct (split_when f s); discriminate.
Qed.

Lemma split_cons_sep (s : str) : split sep (sep :: s) = [] :: split sep s.
Proof. unfold split; simpl. rewrite Ascii.eqb_refl; reflexivity. Qed.

Lemma split_cons_other (c : ascii) (s : str) :
  c <> sep ->
  split sep (c :: s) = (c :: hd [] (split sep s)) :: tl (split sep s).
Proof.
  intros H. unfold split; simpl.
  destruct (Ascii.eqb sep c) eqn:E.
  - apply Ascii.eqb_eq in E; congruence.
  - pose proof (split_when_nonempty (Ascii.eqb sep) s) as N.
    destruct (split_when (Ascii.eqb sep) s); [contradiction|reflexivity].
Qed.

Lemma split_free (s : str) : ~ In sep s -> split sep s = [s].
Proof.
  induction s as [|c s IH]; intros H; [reflexivity|].
  rewrite split_cons_other by (intros ->; apply H; left; reflexivity).
  rewrite IH by (intros K; apply H; right; exact K). reflexivity.
Qed.

Lemma split_app (a b : str) :
  ~ In sep a -> split sep (a ++ sep :: b) = a :: split sep b.
Proof.
  induction a as [|c a IH]; intros H; simpl.
  - apply split_cons_sep.
  - rewrite split_cons_other by (intros ->; apply H; left; reflexivity).
    rewrite IH by (intros K; apply H; right; exact K). reflexivity.
Qed.

Lemma split_join (parts : list str) :
  parts <> [] -> Forall (fun p => ~ In sep p) parts ->
  split sep (join [sep] parts) = parts.
Proof.
  induction parts as [|p parts IH]; intros N H; [contradiction|].
  inversion H as [|? ? Hp Hps]; subst.
  destruct parts as [|q parts].
  - simpl. apply split_free; exact Hp.
  - change (join [sep] (p :: q :: parts))
      with (p ++ sep :: join [sep] (q :: parts)).
    rewrite split_app by exact Hp.
    rewrite IH by (discriminate || exact Hps). reflexivity.
Qed.

Lemma split_pieces_free (s : str) : Forall (fun p => ~ In sep p) (split sep s).
Proof.
  induction s as [|c s IH]; [repeat constructor; auto|].
  destruct (Ascii.eqb_spec c sep) as [->|N].
  - rewrite split_cons_sep. constructor; auto.
  - rewrite split_cons_other by exact N.
    pose proof (split_when_nonempty (Ascii.eqb sep) s) as NE.
    fold (split sep s) in NE.
    destruct (split sep s) as [|p ps]; [contradiction|].
    inversion IH; subst. constructor; [|assumption].
    simpl. intros [E|K]; [congruence|contradiction].
Qed.

Lemma split_pieces_incl (s p : str) c :
  In p (split sep s) -> In c p -> In c s.
Proof.
  revert p; induction s as [|x s IH]; intros p.
  - simpl. intros [<-|[]]; tauto.
  - destruct (Ascii.eqb_spec x sep) as [->|N].
    + rewrite split_cons_sep. intros [<-|H] K; [destruct K|].
      right; exact (IH _ H K).
    + rewrite split_cons_other by exact N.
      pose proof (split_when_nonempty (Ascii.eqb sep) s) as NE.
      fold (split sep s) in NE.
      destruct (split sep s) as [|q qs]; [contradiction|]. simpl.
      intros [<-|H] K.
      * destruct K as [->|K]; [left; reflexivity|].
        right; apply (IH q); [left; reflexivity|exact K].
      * right; apply (IH p); [right; exact H|exact K].
Qed.

Lemma join_snoc (parts : list str) (p : str) :
  parts <> [] -> join [sep] (parts ++ [p]) = join [sep] parts ++ sep :: p.
Proof.
  induction parts as [|q parts IH]; intros N; [contradiction|].
  destruct parts as [|r parts]; [reflexivity|].
  change (join [sep] ((q :: r :: parts) ++ [p]))
    with (q ++ sep :: join [sep] ((r :: parts) ++ [p])).
  rewrite IH by discriminate.
  change (join [sep] (q :: r :: parts)) with (q ++ sep :: join [sep] (r :: parts)).
  rewrite <- app_assoc. reflexivity.
Qed.

Lemma join_incl (parts : list str) c :
  In c (join [sep] parts) -> c = sep \/ exists p, In p parts /\ In c p.
Proof.
  induction parts as [|q parts IH]; [intros []|].
  destruct parts as [|r parts].
  - simpl. intros H; right; exists q; auto.
  - change (join [sep] (q :: r :: parts))
      with (q ++ sep :: join [sep] (r :: parts)).
    intros H. apply in_app_or in H. destruct H as [H|[H|H]].
    + right; exists q; split; [left; reflexivity|exact H].
    + left; congruence.
    + destruct (IH H) as [E|(p & P & K)]; [left; exact E|].
      right; exists p; split; [right; exact P|exact K].
Qed.

End SplitJoin.

Section Normalize.

Lemma replace1_absent (old : ascii) (new s : str) :
  ~ In old s -> replace1 old new s = s.
Proof.
  induction s as [|c s IH]; intros H; [reflexivity|].
  unfold replace1 in *; simpl.
  destruct (Ascii.eqb_spec c old) as [->|N].
  - exfalso; apply H; left; reflexivity.
  - rewrite IH by (intros K; apply H; right; exact K). reflexivity.
Qed.

Lemma replace1_incl (old : ascii) (new s : str) c :
  In c (replace1 old new s) -> In c new \/ (In c s /\ c <> old).
Proof.
  unfold replace1. rewrite in_flat_map. intros (x & Hx & Hc).
  destruct (Ascii.eqb_spec x old) as [->|N]; [left; exact Hc|].
  destruct Hc as [<-|[]]. right; split; assumption.
Qed.

Lemma replace2_absent (o1 o2 : ascii) (new s : str) :
  ~ In o1 s -> replace2 o1 o2 new s = s.
Proof.
  induction s as [|c s IH]; intros H; [reflexivity|].
  destruct s as [|d s]; [reflexivity|].
  change (replace2 o1 o2 new (c :: d :: s))
    with (if Ascii.eqb c o1 && Ascii.eqb d o2
          then new ++ replace2 o1 o2 new s
          else c :: replace2 o1 o2 new (d :: s)).
  destruct (Ascii.eqb_spec c o1) as [->|N].
  - exfalso; apply H; left; reflexivity.
  - simpl andb. cbv iota.
    rewrite IH by (intros K; apply H; right; exact K). reflexivity.
Qed.

(** After normalisation the text holds neither a carriage return nor a
    tab. *)
Lemma normalize_chars (text : str) c :
  In c (normalize text) -> c <> CR /\ c <> TAB.
Proof.
  unfold normalize. intros H.
  apply replace1_incl in H. destruct H as [H|[H N]].
  - simpl in H. destruct H as [<-|[<-|[]]]; split; discriminate.
  - split; [|exact N].
    apply replace1_incl in H. destruct H as [H|[_ K]]; [|exact K].
    destruct H as [<-|[]]. discriminate.
Qed.

Lemma normalize_fixed (text : str) :
  ~ In CR text -> ~ In TAB text -> normalize text = text.
Proof.
  intros HC HT. unfold normalize.
  rewrite replace2_absent by exact HC.
  rewrite (replace1_absent CR) by exact HC.
  apply replace1_absent; exact HT.
Qed.

End Normalize.

(** * The stylesheet reindenter: one line at a time *)

Section CssFacts.

Arguments css_line : simpl never.

Lemma css_line_eq (depth : Z) (out : list emitted) (raw : str) :
  css_line (depth, out) raw =
  if is_empty (strip raw) then (depth, out)
  else (css_next_depth depth (strip raw),
        out ++ [Indented (css_emit_depth depth (strip raw)) (strip raw)]).
Proof.
  unfold css_line, css_next_depth, css_emit_depth.
  destruct (is_empty (strip raw)); [reflexivity|].
  match goal with |- context [if ?b then ?x else ?x] =>
    replace (if b then x else x) with x by (destruct b; reflexivity) end.
  reflexivity.
Qed.

Lemma css_line_blank (st : Z * list emitted) (raw : str) :
  strip raw = [] -> css_line st raw = st.
Proof. destruct st as [d out]. intros H. rewrite css_line_eq, H. reflexivity. Qed.

Lemma css_line_same_strip (st : Z * list emitted) (raw raw' : str) :
  strip raw = strip raw' -> css_line st raw = css_line st raw'.
Proof. destruct st as [d out]. intros H. rewrite !css_line_eq, H. reflexivity. Qed.

Lemma css_line_acc (depth : Z) (out : list emitted) (raw : str) :
  css_line (depth, out) raw =
  (fst (css_line (depth, []) raw), out ++ snd (css_line (depth, []) raw)).
Proof.
  rewrite !css_line_eq. destruct (is_empty (strip raw)); simpl.
  - rewrite app_nil_r; reflexivity.
  - reflexivity.
Qed.

Lemma css_fold_acc (raws : list str) (depth : Z) (out : list emitted) :
  fold_left css_line raws (depth, out) =
  (fst (fold_left css_line raws (depth, [])),
   out ++ snd (fold_left css_line raws (depth, []))).
Proof.
  revert depth out; induction raws as [|raw raws IH]; intros depth out; simpl.
  - rewrite app_nil_r; reflexivity.
  - rewrite css_line_acc. destruct (css_line (depth, []) raw) as [d1 o1].
    cbn [fst snd]. rewrite IH, (IH d1 o1). cbn [fst snd].
    rewrite app_assoc. reflexivity.
Qed.

Lemma css_fold_entries (raws : list str) (depth : Z) :
  Forall (css_entry raws) (snd (fold_left css_line raws (depth, []))).
Proof.
  revert depth; induction raws as [|raw raws IH]; intros depth; simpl;
    [constructor|].
  rewrite css_line_eq. destruct (is_empty (strip raw)) eqn:E.
  - eapply Forall_impl; [|apply IH].
    intros e (d & r & Hr & Hn & He). exists d, r; simpl; auto.
  - rewrite css_fold_acc. simpl. constructor.
    + exists (css_emit_depth depth (strip raw)), raw. simpl.
      split; [auto|]. split; [|reflexivity].
      intros K; rewrite K in E; discriminate.
    + eapply Forall_impl; [|apply IH].
      intros e (d & r & Hr & Hn & He). exists d, r; simpl; auto.
Qed.

Lemma strip_render (d : Z) (line : str) :
  strip (render (Indented d (strip line))) = strip line.
Proof.
  simpl. rewrite strip_app_space by apply times_spaces. apply strip_idem.
Qed.

(** Running the loop again on the lines it emitted gives the same lines and
    the same final depth. *)
Lemma css_replay (raws : list str) (depth : Z) :
  fold_left css_line
    (map render (snd (fold_left css_line raws (depth, [])))) (depth, []) =
  fold_left css_line raws (depth, []).
Proof.
  revert depth; induction raws as [|raw raws IH]; intros depth; simpl;
    [reflexivity|].
  rewrite css_line_eq. destruct (is_empty (strip raw)) eqn:E; [apply IH|].
  cbn [app].
  set (d2 := css_next_depth depth (strip raw)).
  set (e := Indented (css_emit_depth depth (strip raw)) (strip raw)).
  rewrite (css_fold_acc raws d2 [e]). cbn [snd app map fold_left].
  rewrite (css_line_same_strip _ (render e) raw) by apply strip_render.
  rewrite css_line_eq, E. fold d2 e. cbn [app].
  rewrite (css_fold_acc (map render _) d2 [e]). rewrite IH. reflexivity.
Qed.

End CssFacts.

(** * Assembling the output *)

Section Assemble.

Lemma strip_ends_visible (s : str) : strip s <> [] -> ends_visible (strip s).
Proof.
  unfold strip. intros N.
  destruct (rstrip_nil_or_snoc (lstrip s)) as [E|(r & c & E & Hc)];
    [contradiction|].
  exists r, c; auto.
Qed.

Lemma ends_visible_app (a s : str) : ends_visible s -> ends_visible (a ++ s).
Proof.
  intros (r & c & -> & Hc). exists (a ++ r), c.
  rewrite app_assoc; auto.
Qed.

Lemma join_ends_visible (parts : list str) (p : str) :
  ends_visible p -> ends_visible (join [LF] (parts ++ [p])).
Proof.
  intros H. destruct parts as [|q parts]; [exact H|].
  rewrite join_snoc by discriminate.
  apply ends_visible_app. apply (ends_visible_app [LF]). exact H.
Qed.

Lemma rstrip_ends_visible (s : str) : ends_visible s -> rstrip s = s.
Proof. intros (r & c & -> & Hc). apply rstrip_snoc; exact Hc. Qed.

(** When the last emitted line ends visibly, nothing is stripped, and the
    output is the emitted lines followed by one empty piece. *)
Lemma assemble_visible (out : list emitted) (e : emitted) :
  ends_visible (render e) ->
  assemble (out ++ [e]) = join [LF] (map render (out ++ [e]) ++ [[]]).
Proof.
  intros H. unfold assemble.
  rewrite join_snoc by (rewrite map_app; destruct (map render out); discriminate).
  rewrite map_app. cbn [map].
  rewrite rstrip_ends_visible by (apply join_ends_visible; exact H).
  reflexivity.
Qed.

(** The shape of every output: a body without whitespace at its end,
    followed by one line break. *)
Lemma assemble_shape (out : list emitted) :
  exists body, assemble out = body ++ [LF] /\
               (body = [] \/ ends_visible body).
Proof.
  unfold assemble. exists (rstrip (join [LF] (map render out))).
  split; [reflexivity|].
  destruct (rstrip_nil_or_snoc (join [LF] (map render out)))
    as [E|(r & c & E & Hc)]; [left; exact E|].
  right; exists r, c; auto.
Qed.

End Assemble.

Section CssIdempotence.

Lemma css_entry_chars (raws : list str) (e : emitted) c :
  css_entry raws e -> In c (render e) ->
  c = " "%char \/ exists raw, In raw raws /\ In c raw.
Proof.
  intros (d & raw & Hr & _ & ->) H. simpl in H.
  apply in_app_or in H. destruct H as [H|H].
  - left; exact (times_in _ _ H).
  - right; exists raw; split; [exact Hr|exact (strip_incl _ _ H)].
Qed.

Lemma css_entry_visible (raws : list str) (e : emitted) :
  css_entry raws e -> ends_visible (render e).
Proof.
  intros (d & raw & _ & N & ->). simpl.
  apply ends_visible_app, strip_ends_visible; exact N.
Qed.

Lemma css_lines_entries (text : str) :
  Forall (css_entry (split LF (normalize text))) (css_lines text).
Proof. apply css_fold_entries. Qed.

Lemma css_rendered_chars (text : str) (e : emitted) c :
  In e (css_lines text) -> In c (render e) ->
  c <> LF /\ c <> CR /\ c <> TAB.
Proof.
  intros He Hc.
  pose proof (css_lines_entries text) as F.
  rewrite Forall_forall in F. specialize (F e He).
  destruct (css_entry_chars _ _ _ F Hc) as [->|(raw & Hr & K)].
  - repeat split; discriminate.
  - split.
    + intros ->.
      pose proof (split_pieces_free LF (normalize text)) as P.
      rewrite Forall_forall in P. exact (P raw Hr K).
    + apply (normalize_chars text).
      exact (split_pieces_incl LF _ _ _ Hr K).
Qed.

(** Reading the output back gives the lines that were emitted. *)
Lemma css_lines_assemble (text : str) :
  css_lines (assemble (css_lines text)) = css_lines text.
Proof.
  destruct (css_lines text) as [|e0 out0] eqn:E; [reflexivity|].
  assert (N : e0 :: out0 <> []) by discriminate.
  destruct (exists_last N) as (out & e & L).
  assert (He : In e (css_lines text))
    by (rewrite E, L; apply in_or_app; right; left; reflexivity).
  assert (V : ends_visible (render e)).
  { pose proof (css_lines_entries text) as F. rewrite Forall_forall in F.
    exact (css_entry_visible _ _ (F e He)). }
  assert (C : forall c, In c (assemble (css_lines text)) -> c <> CR /\ c <> TAB).
  { intros c Hc. rewrite E, L, assemble_visible in Hc by exact V.
    apply join_incl in Hc. destruct Hc as [->|(p & Hp & K)];
      [split; discriminate|].
    apply in_app_or in Hp. destruct Hp as [Hp|[<-|[]]]; [|destruct K].
    apply in_map_iff in Hp. destruct Hp as (x & <- & Hx).
    rewrite <- L, <- E in Hx.
    destruct (css_rendered_chars text x c Hx K) as (_ & ? & ?); auto. }
  rewrite <- E. unfold css_lines at 1.
  rewrite normalize_fixed
    by (intros K; apply C in K; destruct K as [K1 K2]; congruence).
  rewrite E, L, assemble_visible by exact V.
  rewrite split_join.
  - rewrite fold_left_app. cbn [fold_left].
    rewrite css_line_blank by reflexivity.
    rewrite <- L, <- E. unfold css_lines. rewrite css_replay. reflexivity.
  - destruct (map render (out ++ [e])); discriminate.
  - apply Forall_app. split; [|repeat constructor; auto].
    rewrite Forall_forall. intros p Hp K.
    apply in_map_iff in Hp. destruct Hp as (x & <- & Hx).
    rewrite <- L, <- E in Hx.
    destruct (css_rendered_chars text x LF Hx K) as (? & _); congruence.
Qed.

End CssIdempotence.

(** * The markup reindenter: one token at a time *)

Arguments Ascii.eqb : simpl never.

Section HtmlSteps.

Variables (tok : str) (rest : list str) (indent : Z) (out : list emitted).

Lemma html_loop_nil : html_loop [] indent out = Ok out.
Proof. reflexivity. Qed.

Lemma html_loop_blank :
  strip tok = [] -> html_loop (tok :: rest) indent out = html_loop rest indent out.
Proof. intros H. cbn [html_loop]. rewrite H. reflexivity. Qed.

Lemma html_loop_comment :
  is_comment_or_doctype (strip tok) = true ->
  html_loop (tok :: rest) indent out =
  html_loop rest indent (out ++ [Indented indent (strip tok)]).
Proof.
  unfold is_comment_or_doctype. intros H. cbn [html_loop]. rewrite H.
  destruct (strip tok) as [|c s]; [simpl in H; discriminate H|]. reflexivity.
Qed.

Lemma closing_not_comment (s : str) :
  is_closing_tag s = true ->
  is_empty s = false /\ is_comment_or_doctype s = false
  /\ startswith "<" s = true.
Proof.
  unfold is_closing_tag, is_comment_or_doctype.
  destruct s as [|a [|b s]]; try discriminate;
    [simpl; rewrite andb_false_r; discriminate|]. simpl.
  destruct (Ascii.eqb_spec "<" a) as [<-|]; [|discriminate].
  destruct (Ascii.eqb_spec "/" b) as [<-|]; [|discriminate].
  intros _. repeat split; reflexivity.
Qed.

Lemma html_loop_closing :
  is_closing_tag (strip tok) = true ->
  html_loop (tok :: rest) indent out =
  html_loop rest (Z.max (indent - 1) 0)
    (out ++ [Indented (Z.max (indent - 1) 0) (strip tok)]).
Proof.
  intros H. destruct (closing_not_comment _ H) as (E & C & L).
  unfold is_comment_or_doctype, is_closing_tag in *.
  cbn [html_loop]. rewrite E, C, L, H. reflexivity.
Qed.

End HtmlSteps.

Section HtmlGuards.

Lemma upper_char_punct (x c : ascii) :
  is_upper c = false -> upper_char x = c -> x = c.
Proof.
  unfold upper_char. destruct (is_lower x) eqn:L; [|auto].
  intros U E. exfalso. subst c. revert L U.
  destruct x as [[] [] [] [] [] [] [] []]; vm_compute; congruence.
Qed.

Lemma startswith_cons (x y : ascii) (p s : str) :
  startswith (x :: p) (y :: s) = Ascii.eqb x y && startswith p s.
Proof. reflexivity. Qed.

Lemma startswith_head (x : ascii) (p s : str) :
  startswith (x :: p) s = true -> exists r, s = x :: r /\ startswith p r = true.
Proof.
  destruct s as [|y s]; [discriminate|]. rewrite startswith_cons.
  destruct (Ascii.eqb_spec x y) as [<-|]; [|discriminate].
  intros H; exists s; auto.
Qed.

(** Only a text that begins with [<] counts as a comment or a doctype. *)
Lemma comment_starts_lt (s : str) :
  is_comment_or_doctype s = true -> startswith "<" s = true.
Proof.
  unfold is_comment_or_doctype. rewrite orb_true_iff. intros [H|H].
  - apply startswith_head in H. destruct H as (r & -> & _). reflexivity.
  - destruct s as [|c s]; [discriminate|].
    apply startswith_head in H. destruct H as (r & E & _).
    simpl in E. injection E as E _.
    apply upper_char_punct in E; [subst; reflexivity|reflexivity].
Qed.

(** The second character of a comment or of a doctype is [!]. *)
Lemma comment_second (s : str) :
  is_comment_or_doctype s = true -> exists r, s = "<"%char :: "!"%char :: r.
Proof.
  unfold is_comment_or_doctype. rewrite orb_true_iff. intros [H|H].
  - apply startswith_head in H. destruct H as (r & -> & H).
    apply startswith_head in H. destruct H as (r' & -> & _). eauto.
  - destruct s as [|c s]; [discriminate|].
    apply startswith_head in H. destruct H as (r & E & H).
    apply startswith_head in H. destruct H as (r' & E' & _).
    simpl in E. injection E as E1 E2. rewrite E' in E2.
    destruct s as [|d s]; [discriminate E2|].
    simpl in E2. injection E2 as E2 _.
    apply upper_char_punct in E1; [|reflexivity].
    apply upper_char_punct in E2; [|reflexivity].
    subst. eauto.
Qed.

(** The text of an opening tag whose name the name pattern finds: after
    [<] comes whitespace or the first character of the name. *)
Lemma open_name_some (s g : str) :
  Re.open_name s = Some g ->
  exists r, s = "<"%char :: r /\ g = take_while Re.name_char (lstrip r)
            /\ g <> [].
Proof.
  unfold Re.open_name. destruct s as [|c r]; [discriminate|].
  destruct (Ascii.eqb_spec c "<") as [->|N].
  - destruct (take_while Re.name_char (lstrip r)) as [|x g'] eqn:E;
      [discriminate|].
    intros H; injection H as <-. exists r. repeat split; auto. discriminate.
  - intros H. exfalso. revert H N.
    destruct c as [[] [] [] [] [] [] [] []]; try discriminate.
    intros _ N; apply N; reflexivity.
Qed.

Lemma name_after_lt (r : str) (c : ascii) :
  take_while Re.name_char (lstrip r) <> [] ->
  isspace c = false -> Re.name_char c = false ->
  forall r', r <> c :: r'.
Proof.
  intros N S C r' ->. apply N. unfold lstrip.
  rewrite drop_while_stop by exact S. simpl. rewrite C. reflexivity.
Qed.

Lemma named_open_guards (s g : str) :
  Re.open_name s = Some g ->
  is_empty s = false /\ is_comment_or_doctype s = false
  /\ startswith "<" s = true /\ is_closing_tag s = false.
Proof.
  intros H. destruct (open_name_some _ _ H) as (r & -> & E & N).
  rewrite E in N. repeat split.
  - destruct (is_comment_or_doctype ("<"%char :: r)) eqn:C; [|reflexivity].
    apply comment_second in C. destruct C as (r' & C). injection C as C.
    exfalso. revert C. apply name_after_lt; auto.
  - unfold is_closing_tag.
    destruct (startswith "</" ("<"%char :: r)) eqn:C; [|reflexivity].
    apply startswith_head in C. destruct C as (r1 & C1 & C).
    injection C1 as <-.
    apply startswith_head in C. destruct C as (r2 & C & _).
    exfalso. revert C. apply name_after_lt; auto.
Qed.

Lemma opaque_open_named (s : str) :
  is_opaque_open s = true -> exists g, Re.open_name s = Some g.
Proof.
  unfold is_opaque_open, tag_name_of.
  destruct (Re.open_name s) as [g|]; [eauto|discriminate].
Qed.

Lemma opaque_open_guards (s : str) :
  is_opaque_open s = true ->
  is_empty s = false /\ is_comment_or_doctype s = false
  /\ startswith "<" s = true /\ is_closing_tag s = false.
Proof.
  intros H. destruct (opaque_open_named _ H) as (g & G).
  exact (named_open_guards _ _ G).
Qed.

End HtmlGuards.

Section HtmlSteps2.

Variables (tok : str) (rest : list str) (indent : Z) (out : list emitted).

Lemma html_loop_opaque :
  is_opaque_open (strip tok) = true ->
  html_loop (tok :: rest) indent out =
  html_block (tag_name_of (strip tok))
    (out ++ [Indented indent (strip tok)]) (indent + 1) rest [].
Proof.
  intros H. destruct (opaque_open_guards _ H) as (E & C & L & K).
  unfold is_comment_or_doctype, is_closing_tag, is_opaque_open in *.
  cbn [html_loop]. rewrite E, C, L, K, H.
  match goal with |- ?scan rest [] = _ =>
    assert (G : forall ts inner,
               scan ts inner =
               html_block (tag_name_of (strip tok))
                 (out ++ [Indented indent (strip tok)]) (indent + 1) ts inner)
  end; [|apply G].
  induction ts as [|t ts IH]; intros inner; [reflexivity|].
  cbn [html_block]. destruct (Re.close_of (tag_name_of (strip tok)) t).
  - reflexivity.
  - apply IH.
Qed.

Lemma html_loop_plain :
  is_plain_open (strip tok) = true ->
  html_loop (tok :: rest) indent out =
  match self_closing_or_void (strip tok) with
  | IndexError => IndexError
  | Ok true => html_loop rest indent (out ++ [Indented indent (strip tok)])
  | Ok false =>
      html_loop rest (indent + 1) (out ++ [Indented indent (strip tok)])
  end.
Proof.
  unfold is_plain_open. rewrite !andb_true_iff, !negb_true_iff.
  intros ((((E & C) & L) & K) & O).
  unfold is_comment_or_doctype, is_closing_tag, is_opaque_open in *.
  cbn [html_loop]. rewrite E, C, L, K, O. reflexivity.
Qed.

Lemma html_loop_text :
  strip tok <> [] -> startswith "<" (strip tok) = false ->
  html_loop (tok :: rest) indent out =
  html_loop rest indent (out ++ text_lines indent tok).
Proof.
  intros N L.
  assert (C : is_comment_or_doctype (strip tok) = false).
  { destruct (is_comment_or_doctype (strip tok)) eqn:C; [|reflexivity].
    apply comment_starts_lt in C. congruence. }
  unfold is_comment_or_doctype in C.
  cbn [html_loop]. rewrite C, L.
  destruct (strip tok); [contradiction|reflexivity].
Qed.

End HtmlSteps2.

Lemma html_block_collect (tag_name : str) (out : list emitted) (indent : Z)
  (ts inner : list str) :
  html_block tag_name out indent ts inner =
  match snd (collect tag_name ts) with
  | [] => Ok (out ++ block_lines indent (inner ++ fst (collect tag_name ts)))
  | t :: ts' =>
      html_loop ts' (Z.max (indent - 1) 0)
        ((out ++ block_lines indent (inner ++ fst (collect tag_name ts)))
           ++ [Indented (Z.max (indent - 1) 0) (strip t)])
  end.
Proof.
  revert inner; induction ts as [|t ts IH]; intros inner.
  - simpl. rewrite app_nil_r. reflexivity.
  - cbn [html_block collect]. destruct (Re.close_of tag_name t).
    + cbn [fst snd]. rewrite app_nil_r. reflexivity.
    + cbn [fst snd]. rewrite IH, <- app_assoc. reflexivity.
Qed.

Lemma collect_spec (tag_name : str) (ts : list str) :
  ts = fst (collect tag_name ts) ++ snd (collect tag_name ts)
  /\ Forall (fun t => Re.close_of tag_name t = false) (fst (collect tag_name ts))
  /\ match snd (collect tag_name ts) with
     | [] => True
     | t :: _ => Re.close_of tag_name t = true
     end.
Proof.
  induction ts as [|t ts (E & F & C)]; [repeat split; constructor|].
  cbn [collect]. destruct (Re.close_of tag_name t) eqn:K; cbn [fst snd].
  - repeat split; [constructor|exact K].
  - repeat split; [simpl; congruence|constructor; assumption|exact C].
Qed.

Lemma collect_found (tag_name : str) (inner : list str) (t : str)
  (ts : list str) :
  Forall (fun x => Re.close_of tag_name x = false) inner ->
  Re.close_of tag_name t = true ->
  collect tag_name (inner ++ t :: ts) = (inner, t :: ts).
Proof.
  intros F K. induction F as [|x inner Hx _ IH]; cbn [collect app].
  - rewrite K. reflexivity.
  - rewrite Hx, IH. reflexivity.
Qed.

Lemma collect_missing (tag_name : str) (inner : list str) :
  Forall (fun x => Re.close_of tag_name x = false) inner ->
  collect tag_name inner = (inner, []).
Proof.
  intros F. induction F as [|x inner Hx _ IH]; cbn [collect]; [reflexivity|].
  rewrite Hx, IH. reflexivity.
Qed.

(** ** One turn of the [while] loop *)

Lemma html_loop_step (tok : str) (rest : list str) (indent : Z)
  (out : list emitted) :
  html_loop (tok :: rest) indent out =
  match html_step tok rest indent out with
  | Ok (ts, d, o) => html_loop ts d o
  | IndexError => IndexError
  end.
Proof.
  unfold html_step.
  destruct (is_empty (strip tok)) eqn:E.
  { apply html_loop_blank. destruct (strip tok); [reflexivity|discriminate]. }
  assert (N : strip tok <> []) by (intros K; rewrite K in E; discriminate).
  destruct (is_comment_or_doctype (strip tok)) eqn:C.
  { apply html_loop_comment; exact C. }
  destruct (startswith "<" (strip tok)) eqn:L.
  2:{ apply html_loop_text; assumption. }
  destruct (is_closing_tag (strip tok)) eqn:K.
  { apply html_loop_closing; exact K. }
  destruct (is_opaque_open (strip tok)) eqn:O.
  { rewrite html_loop_opaque by exact O. rewrite html_block_collect.
    destruct (snd (collect (tag_name_of (strip tok)) rest)); reflexivity. }
  rewrite html_loop_plain
    by (unfold is_plain_open; rewrite E, C, L, K, O; reflexivity).
  destruct (self_closing_or_void (strip tok)) as [[|]|]; reflexivity.
Qed.

Lemma collect_length (tag_name : str) (ts : list str) :
  (length (snd (collect tag_name ts)) <= length ts)%nat.
Proof.
  destruct (collect_spec tag_name ts) as (E & _ & _).
  rewrite E at 2. rewrite length_app. lia.
Qed.

Lemma html_step_length (tok : str) (rest : list str) (indent : Z)
  (out : list emitted) ts d o :
  html_step tok rest indent out = Ok (ts, d, o) ->
  (length ts <= length rest)%nat.
Proof.
  unfold html_step.
  destruct (is_empty (strip tok)); [intros H; injection H as <- _ _; lia|].
  destruct (is_comment_or_doctype (strip tok));
    [intros H; injection H as <- _ _; lia|].
  destruct (startswith "<" (strip tok));
    [|intros H; injection H as <- _ _; lia].
  destruct (is_closing_tag (strip tok));
    [intros H; injection H as <- _ _; lia|].
  destruct (is_opaque_open (strip tok)).
  - pose proof (collect_length (tag_name_of (strip tok)) rest) as B.
    destruct (snd (collect (tag_name_of (strip tok)) rest)) as [|t ts'];
      intros H; injection H as <- _ _; simpl in *; lia.
  - destruct (self_closing_or_void (strip tok)); [|discriminate].
    intros H; injection H as <- _ _; lia.
Qed.

(** A property of the depth and of the lines that every turn of the loop
    keeps holds when the loop ends. *)
Lemma html_loop_invariant (I : Z -> list emitted -> Prop) :
  (forall tok rest indent out ts d o,
      I indent out -> html_step tok rest indent out = Ok (ts, d, o) -> I d o) ->
  forall tokens indent out out',
    I indent out -> html_loop tokens indent out = Ok out' ->
    exists d, I d out'.
Proof.
  intros Step tokens.
  induction tokens as [tokens IH] using (induction_ltof1 _ (@length str)).
  unfold ltof in IH. intros indent out out' Hi H.
  destruct tokens as [|tok rest].
  - injection H as <-. exists indent; exact Hi.
  - rewrite html_loop_step in H.
    destruct (html_step tok rest indent out) as [[[ts d] o]|] eqn:S;
      [|discriminate].
    apply (IH ts) with (indent := d) (out := o); auto.
    + apply html_step_length in S. simpl; lia.
    + eapply Step; eauto.
Qed.

(** * Properties of the formatters *)

(** ** Depth *)

Section Depth.

Lemma block_lines_depth (indent : Z) (inner : list str) :
  0 <= indent -> Forall depth_ok (block_lines indent inner).
Proof.
  intros H. unfold block_lines. apply Forall_map. apply Forall_forall.
  intros line _. unfold block_line.
  destruct (is_empty (strip line)); simpl; auto.
Qed.

Lemma text_lines_depth (indent : Z) (tok : str) :
  0 <= indent -> Forall depth_ok (text_lines indent tok).
Proof.
  intros H. unfold text_lines. apply Forall_flat_map. apply Forall_forall.
  intros line _. destruct (is_empty (strip line)); repeat constructor; auto.
Qed.

(** Every turn of the markup loop keeps the depth at zero or above and
    emits lines at such depths only. *)
Lemma html_step_depth tok rest indent out ts d o :
  0 <= indent /\ Forall depth_ok out ->
  html_step tok rest indent out = Ok (ts, d, o) ->
  0 <= d /\ Forall depth_ok o.
Proof.
  intros [Hd Ho]. unfold html_step.
  destruct (is_empty (strip tok)); [intros H; injection H as _ <- <-; auto|].
  destruct (is_comment_or_doctype (strip tok)).
  { intros H; injection H as _ <- <-. split; [auto|].
    apply Forall_app; split; [auto|repeat constructor; auto]. }
  destruct (startswith "<" (strip tok)).
  2:{ intros H; injection H as _ <- <-. split; [auto|].
      apply Forall_app; split; [auto|apply text_lines_depth; auto]. }
  destruct (is_closing_tag (strip tok)).
  { intros H; injection H as _ <- <-. split; [lia|].
    apply Forall_app; split; [auto|repeat constructor; simpl; lia]. }
  destruct (is_opaque_open (strip tok)).
  - assert (B : Forall depth_ok
                  ((out ++ [Indented indent (strip tok)])
                     ++ block_lines (indent + 1)
                          (fst (collect (tag_name_of (strip tok)) rest)))).
    { apply Forall_app; split; [|apply block_lines_depth; lia].
      apply Forall_app; split; [auto|repeat constructor; auto]. }
    destruct (snd (collect (tag_name_of (strip tok)) rest));
      intros H; injection H as _ <- <-.
    + split; [lia|exact B].
    + split; [lia|].
      apply Forall_app; split; [exact B|repeat constructor; simpl; lia].
  - destruct (self_closing_or_void (strip tok)) as [b|]; [|discriminate].
    intros H; injection H as _ <- <-. split; [destruct b; lia|].
    apply Forall_app; split; [auto|repeat constructor; auto].
Qed.

Lemma css_fold_depth (raws : list str) (depth : Z) (out : list emitted) :
  0 <= depth -> Forall depth_ok out ->
  0 <= fst (fold_left css_line raws (depth, out))
  /\ Forall depth_ok (snd (fold_left css_line raws (depth, out))).
Proof.
  revert depth out; induction raws as [|raw raws IH]; intros depth out Hd Ho;
    [simpl; auto|].
  cbn [fold_left]. rewrite css_line_eq.
  destruct (is_empty (strip raw)); [apply IH; auto|].
  assert (E : 0 <= css_emit_depth depth (strip raw))
    by (unfold css_emit_depth; destruct (startswith "}" (strip raw)); lia).
  apply IH.
  - unfold css_next_depth. destruct (endswith "{" (strip raw)); lia.
  - apply Forall_app; split; [auto|repeat constructor; exact E].
Qed.

End Depth.

(** C2 (depth non-negativity).  For every input text, every line that the
    markup reindenter emits and every line that the stylesheet reindenter
    emits is emitted at a depth of zero or more, whatever the number of
    closing tags or closing braces; the decrement is [max (depth - 1) 0],
    so the depth itself is zero or more at every turn of the markup loop,
    also in a run that ends in an exception. *)
Theorem depth_non_negative (text : str) :
  (forall out_lines,
      html_lines text = Ok out_lines -> Forall depth_ok out_lines)
  /\ (forall ts indent out,
        html_reaches text ts indent out ->
        0 <= indent /\ Forall depth_ok out)
  /\ Forall depth_ok (css_lines text).
Proof.
  split; [|split].
  - intros out_lines H.
    destruct (html_loop_invariant
                (fun d o => 0 <= d /\ Forall depth_ok o)
                html_step_depth (Re.findall (normalize text)) 0 []
                out_lines) as (d & _ & F); auto.
    split; [lia|constructor].
  - intros ts indent out R. induction R as [|tok rest indent out ts d o _ IH S].
    + split; [lia|constructor].
    + exact (html_step_depth _ _ _ _ _ _ _ IH S).
  - apply css_fold_depth; [lia|constructor].
Qed.

Lemma depth_non_negative_witness :
  html_lines "</b></i><p>x</p></p>" =
    Ok [Indented 0 "</b>"; Indented 0 "</i>"; Indented 0 "<p>";
        Indented 1 "x"; Indented 0 "</p>"; Indented 0 "</p>"]
  /\ Forall depth_ok
       [Indented 0 "</b>"; Indented 0 "</i>"; Indented 0 "<p>";
        Indented 1 "x"; Indented 0 "</p>"; Indented 0 "</p>"].
Proof.
  split; [reflexivity|].
  apply (proj1 (depth_non_negative "</b></i><p>x</p></p>")). reflexivity.
Defined.

(** ** Closing tags *)

(** C7 (closing-tag order and saturation).  A closing tag first lowers the
    depth by one, not below zero, and is then emitted, trimmed, at the new
    depth; on [</div><p>x</p>] the stray closing tag and [<p>] are emitted
    at depth 0, the text at depth 1 and [</p>] at depth 0 again. *)
Theorem closing_tag_order :
  (forall tok rest indent out,
      is_closing_tag (strip tok) = true ->
      exists d,
        html_loop (tok :: rest) indent out =
          html_loop rest d (out ++ [Indented d (strip tok)])
        /\ (0 < indent -> d = indent - 1)
        /\ (indent <= 0 -> d = 0))
  /\ html_lines "</div><p>x</p>" =
       Ok [Indented 0 "</div>"; Indented 0 "<p>"; Indented 1 "x";
           Indented 0 "</p>"]
  /\ format_html "</div><p>x</p>" =
       Ok (unlines ["</div>"; "<p>"; "  x"; "</p>"; ""]).
Proof.
  split; [|split; reflexivity].
  intros tok rest indent out H. exists (Z.max (indent - 1) 0).
  split; [apply html_loop_closing; exact H|]. split; lia.
Qed.

Lemma closing_tag_order_witness :
  is_closing_tag (strip " </div>") = true
  /\ exists d,
       html_loop [" </div>"; "x"] 3 [] =
         html_loop ["x"] d ([] ++ [Indented d (strip " </div>")])
       /\ (0 < 3 -> d = 3 - 1) /\ (3 <= 0 -> d = 0).
Proof.
  split; [reflexivity|].
  apply (proj1 closing_tag_order " </div>" ["x"] 3 []). reflexivity.
Defined.

(** ** The end of the output *)

Lemma assemble_final_break (out_lines : list emitted) :
  one_final_break (assemble out_lines).
Proof.
  destruct (assemble_shape out_lines) as (body & E & B).
  exists body. split; [exact E|]. split; [|exact B].
  destruct B as [->|V]; [reflexivity|apply rstrip_ends_visible; exact V].
Qed.

(** C8 (trailing format).  The output of either reindenter is the joined
    lines with the whitespace at their end stripped, followed by exactly
    one line break: it ends with one line break and has no blank line
    before it. *)
Theorem trailing_format (text : str) :
  (forall out, format_html text = Ok out -> one_final_break out)
  /\ one_final_break (format_css text).
Proof.
  split; [|apply assemble_final_break].
  unfold format_html. destruct (html_lines text) as [ls|]; [|discriminate].
  intros out H; injection H as <-. apply assemble_final_break.
Qed.

Lemma trailing_format_witness :
  format_html "<p>x</p>  " = Ok (unlines ["<p>"; "  x"; "</p>"; ""])
  /\ one_final_break (unlines ["<p>"; "  x"; "</p>"; ""]).
Proof.
  split; [reflexivity|].
  apply (proj1 (trailing_format "<p>x</p>  ")). reflexivity.
Defined.

(** ** Lines with both braces *)

Section SingleLineBlock.

Lemma index_mem (c : ascii) (s : str) i : index c s = Some i -> mem c s = true.
Proof.
  revert i; induction s as [|x s IH]; intros i; [discriminate|].
  unfold mem in *. simpl. rewrite (Ascii.eqb_sym c x).
  destruct (Ascii.eqb x c); [reflexivity|]. simpl.
  destruct (index c s) as [k|]; [|discriminate]. intros _. exact (IH k eq_refl).
Qed.

Lemma index_head (c : ascii) (s : str) :
  startswith [c] s = true -> index c s = Some 0%nat.
Proof.
  intros H. apply startswith_head in H. destruct H as (r & -> & _).
  simpl. rewrite Ascii.eqb_refl. reflexivity.
Qed.

End SingleLineBlock.

(** C5, as the code has it.  A stylesheet line whose first opening brace
    comes before its first closing brace is emitted at the depth before the
    line (it cannot start with a closing brace), and the depth after it is
    that depth, plus one when the line ends with an opening brace: the test
    for both braces changes nothing by itself. *)
Theorem single_line_block_rule (depth : Z) (out : list emitted) (raw : str)
  (i j : nat) :
  index "{" (strip raw) = Some i -> index "}" (strip raw) = Some j ->
  (i < j)%nat ->
  css_line (depth, out) raw =
  (if endswith "{" (strip raw) then depth + 1 else depth,
   out ++ [Indented depth (strip raw)]).
Proof.
  intros Hi Hj Lt. rewrite css_line_eq.
  destruct (strip raw) as [|c line] eqn:E; [discriminate|].
  cbn [is_empty]. unfold css_next_depth, css_emit_depth.
  destruct (startswith "}" (c :: line)) eqn:S; [|reflexivity].
  apply index_head in S. rewrite S in Hj. injection Hj as <-. lia.
Qed.

Lemma single_line_block_rule_witness :
  index "{" (strip " a { b: c; } ") = Some 2%nat
  /\ index "}" (strip " a { b: c; } ") = Some 10%nat
  /\ css_line (4, []) " a { b: c; } " = (4, [Indented 4 "a { b: c; }"]).
Proof.
  split; [reflexivity|]. split; [reflexivity|].
  apply (single_line_block_rule 4 [] " a { b: c; } " 2 10);
    [reflexivity|reflexivity|repeat constructor].
Defined.

(** C5 as stated fails: [a{}{] has its opening brace before its closing
    brace, and the depth after it is one more than before. *)
Lemma single_line_block_counterexample :
  mem "{" "a{}{" = true /\ mem "}" "a{}{" = true
  /\ index "{" "a{}{" = Some 1%nat /\ index "}" "a{}{" = Some 2%nat
  /\ fst (css_line (0, []) "a{}{") = 1
  /\ format_css (unlines ["a{}{"; "b"]) = unlines ["a{}{"; "  b"; ""].
Proof. repeat split; reflexivity. Qed.

(** ** The dispatcher *)

(** C9 (dispatcher selection).  The suffix of the path, lower-cased, selects
    the formatter: [.html] and [.htm] the markup reindenter, [.css] the
    stylesheet reindenter; with any other suffix the new text is the input
    with every tab replaced by two spaces.  The file is written, with the
    new text, if and only if the new text differs from the text read. *)
Theorem dispatcher_selection (path : Path) (text : str) :
  (lower (suffix path) = ".html" \/ lower (suffix path) = ".htm" ->
   reformat path text = format_html text)
  /\ (lower (suffix path) = ".css" ->
      reformat path text = Ok (format_css text))
  /\ (lower (suffix path) <> ".html" -> lower (suffix path) <> ".htm" ->
      lower (suffix path) <> ".css" ->
      reformat path text =
        Ok (flat_map (fun c => if Ascii.eqb c TAB then "  " else [c]) text))
  /\ (forall new,
        reformat path text = Ok new ->
        exists effects,
          process_file path text = Ok effects
          /\ (forall p data, In (WriteText p data) effects ->
                             p = path /\ data = new)
          /\ (In (WriteText path new) effects <-> new <> text)).
Proof.
  unfold reformat, in_set. cbn [existsb].
  split; [|split; [|split]].
  - intros [-> | ->]; reflexivity.
  - intros ->; reflexivity.
  - intros H1 H2 H3.
    destruct (str_eqb (lower (suffix path)) ".html") eqn:E1;
      [apply str_eqb_eq in E1; contradiction|].
    destruct (str_eqb (lower (suffix path)) ".htm") eqn:E2;
      [apply str_eqb_eq in E2; contradiction|].
    destruct (str_eqb (lower (suffix path)) ".css") eqn:E3;
      [apply str_eqb_eq in E3; contradiction|].
    reflexivity.
  - intros new H. unfold process_file, reformat, in_set. cbn [existsb].
    rewrite H. cbn [bind].
    destruct (str_eqb new text) eqn:E; cbn [negb].
    + apply str_eqb_eq in E. eexists; split; [reflexivity|]. split.
      * intros p data [K|[]]; discriminate.
      * split; [intros [K|[]]; discriminate|congruence].
    + assert (N : new <> text)
        by (intros K; apply str_eqb_eq in K; congruence).
      eexists; split; [reflexivity|]. split.
      * intros p data [K|[K|[]]]; [injection K as <- <-; auto|discriminate].
      * split; [auto|intros _; left; reflexivity].
Qed.

Lemma dispatcher_selection_witness :
  lower (suffix {| path_str := "a/Index.HTML"; suffix := ".HTML" |}) = ".html"
  /\ reformat {| path_str := "a/Index.HTML"; suffix := ".HTML" |} "<p>x</p>"
     = format_html "<p>x</p>".
Proof.
  split; [reflexivity|].
  apply (proj1 (dispatcher_selection
                  {| path_str := "a/Index.HTML"; suffix := ".HTML" |}
                  "<p>x</p>")).
  left; reflexivity.
Defined.

(** ** Script and style blocks *)

Section Blocks.

Lemma drop_while_keeps (f : ascii -> bool) (a : str) x :
  In x a -> f x = false -> drop_while f a <> [].
Proof.
  induction a as [|c a IH]; intros H Fx; [destruct H|].
  simpl. destruct (f c) eqn:Fc; [|discriminate].
  destruct H as [->|H]; [congruence|auto].
Qed.

Lemma drop_while_app_keeps (f : ascii -> bool) (a w : str) :
  drop_while f a <> [] -> drop_while f (a ++ w) = drop_while f a ++ w.
Proof.
  induction a as [|c a IH]; intros N; [contradiction|].
  simpl in *. destruct (f c); [auto|reflexivity].
Qed.

Lemma rstrip_app_space (a ws : str) :
  Forall (fun c => isspace c = true) ws -> rstrip (a ++ ws) = rstrip a.
Proof.
  intros W. unfold rstrip. rewrite rev_app_distr.
  rewrite drop_while_app_all by (apply Forall_rev; exact W). reflexivity.
Qed.

Lemma strip_rstrip (s : str) : strip (rstrip s) = strip s.
Proof.
  destruct (rstrip_decompose s) as (ws & D & W).
  destruct (rstrip_nil_or_snoc s) as [E|(r & c & E & Hc)].
  - rewrite E in D. simpl in D. subst s. rewrite E. unfold strip, lstrip.
    rewrite (drop_while_all _ ws) by exact W. reflexivity.
  - rewrite D at 2. unfold strip, lstrip.
    rewrite drop_while_app_keeps, rstrip_app_space; [reflexivity|exact W|].
    rewrite E. apply (drop_while_keeps _ _ c); [|exact Hc].
    apply in_or_app; right; left; reflexivity.
Qed.

Lemma block_line_content (indent : Z) (line : str) :
  strip (render (block_line indent line)) = strip line.
Proof.
  unfold block_line. destruct (is_empty (strip line)) eqn:E.
  - destruct (strip line); [reflexivity|discriminate].
  - simpl. rewrite strip_app_space by apply times_spaces.
    apply strip_rstrip.
Qed.

Lemma block_line_blank (indent : Z) (line : str) :
  block_line indent line = Blank <-> strip line = [].
Proof.
  unfold block_line. destruct (strip line); simpl; split;
    congruence || discriminate.
Qed.

End Blocks.

(** C3, as the code has it.  When no token after the opening tag of a script
    or style block matches its closing tag, the loop emits the opening tag
    at the current depth, then every remaining token as the interior of the
    block, one line per piece between line breaks at one level more, and
    then ends: no closing tag is emitted, and no exception is raised. *)
Theorem unterminated_block (tok : str) (rest : list str) (indent : Z)
  (out : list emitted) :
  is_opaque_open (strip tok) = true ->
  Forall (fun t => Re.close_of (tag_name_of (strip tok)) t = false) rest ->
  html_loop (tok :: rest) indent out =
  Ok ((out ++ [Indented indent (strip tok)])
        ++ map (block_line (indent + 1)) (split LF (concat rest))).
Proof.
  intros O F. rewrite html_loop_opaque by exact O.
  rewrite html_block_collect, collect_missing by exact F. reflexivity.
Qed.

Lemma unterminated_block_witness :
  is_opaque_open (strip "<script>") = true
  /\ html_loop ["<script>"; "x"; "<b>"; "y"] 0 [] =
     Ok [Indented 0 "<script>"; Indented 1 "x<b>y"].
Proof.
  split; [reflexivity|].
  apply (unterminated_block "<script>" ["x"; "<b>"; "y"] 0 []);
    [reflexivity|repeat constructor].
Defined.

(** C3 as stated fails: after the opening tag of an unterminated block the
    rest of the input is emitted. *)
Lemma unterminated_block_counterexample :
  Re.findall (normalize "<script>x = 1;") = ["<script>"; "x = 1;"]
  /\ Re.close_of "script" "x = 1;" = false
  /\ html_lines "<script>x = 1;" =
       Ok [Indented 0 "<script>"; Indented 1 "x = 1;"]
  /\ format_html "<script>x = 1;" = Ok (unlines ["<script>"; "  x = 1;"; ""]).
Proof. repeat split; reflexivity. Qed.

(** C4, as the code has it.  For a script or style block with a closing
    tag, the interior is the text of the tokens between the two tags, split
    at line breaks.  Every piece gives exactly one line, in order: a blank
    piece an empty line, any other piece the indent prefix followed by the
    piece without the whitespace at its end; so the content of each line is
    that of its piece, and the empty lines are as many as the blank pieces,
    the pieces before the first and after the last line break included.
    The closing tag follows at the depth of the opening tag. *)
Theorem opaque_block_lines (tok : str) (inner : list str) (t : str)
  (rest : list str) (indent : Z) (out : list emitted) :
  is_opaque_open (strip tok) = true ->
  Forall (fun x => Re.close_of (tag_name_of (strip tok)) x = false) inner ->
  Re.close_of (tag_name_of (strip tok)) t = true ->
  let pieces := split LF (concat inner) in
  let block := map (block_line (indent + 1)) pieces in
  html_loop (tok :: inner ++ t :: rest) indent out =
    html_loop rest (Z.max indent 0)
      (((out ++ [Indented indent (strip tok)]) ++ block)
         ++ [Indented (Z.max indent 0) (strip t)])
  /\ map (fun e => strip (render e)) block = map strip pieces
  /\ (forall p, In p pieces -> strip p <> [] ->
                render (block_line (indent + 1) p)
                = times "  " (indent + 1) ++ rstrip p)
  /\ empty_count block = blank_count pieces.
Proof.
  intros O F K pieces block. split; [|split; [|split]].
  - rewrite html_loop_opaque by exact O.
    rewrite html_block_collect, collect_found by assumption.
    cbn [fst snd app]. replace (indent + 1 - 1) with indent by lia.
    reflexivity.
  - unfold block. rewrite map_map. apply map_ext.
    intros p. apply block_line_content.
  - intros p _ N. unfold block_line.
    destruct (strip p); [contradiction|reflexivity].
  - unfold block, empty_count, blank_count. clear.
    induction pieces as [|p ps IH]; [reflexivity|]. simpl.
    unfold block_line at 1. destruct (is_empty (strip p)); simpl; auto.
Qed.

Lemma opaque_block_lines_witness :
  is_opaque_open (strip "<style>") = true
  /\ html_loop ("<style>" :: [unlines [""; ".a{color:red}"; ""]]
                ++ "</style>" :: []) 0 [] =
     html_loop [] (Z.max 0 0)
       ((([] ++ [Indented 0 (strip "<style>")])
           ++ map (block_line (0 + 1))
                (split LF (concat [unlines [""; ".a{color:red}"; ""]])))
          ++ [Indented (Z.max 0 0) (strip "</style>")]).
Proof.
  split; [reflexivity|].
  apply (opaque_block_lines "<style>" [unlines [""; ".a{color:red}"; ""]]
           "</style>" [] 0 []);
    [reflexivity|repeat constructor|reflexivity].
Defined.

(** C4 as stated fails: the style block below has one interior line, which
    is not blank, and the input has no blank line at all; the output has
    two empty lines around the rule.  Counted on the interior as the loop
    collects it, the blank pieces are two in the input and four in the
    output, and the count grows with every pass. *)
Lemma opaque_block_counterexample :
  let input := unlines ["<style>"; ".a{color:red}"; "</style>"] in
  let output := unlines ["<style>"; ""; "  .a{color:red}"; ""; "</style>"; ""] in
  format_html input = Ok output
  /\ html_lines input =
       Ok [Indented 0 "<style>"; Blank; Indented 1 ".a{color:red}"; Blank;
           Indented 0 "</style>"]
  /\ blank_count (split LF input) = 0%nat
  /\ opening_block_interior "style" input = [""; ".a{color:red}"; ""]
  /\ opening_block_interior "style" output
     = [""; ""; "  .a{color:red}"; ""; ""]
  /\ blank_count (opening_block_interior "style" input) = 2%nat
  /\ blank_count (opening_block_interior "style" output) = 4%nat.
Proof. repeat split; reflexivity. Qed.

(** ** Characters that belong to no token *)

Section Tokens.

Lemma startswith_incl (p s : str) c :
  startswith p s = true -> In c p -> In c s.
Proof.
  revert s; induction p as [|x p IH]; intros s H K; [destruct K|].
  apply startswith_head in H. destruct H as (r & -> & H).
  destruct K as [->|K]; [left; reflexivity|right; exact (IH _ H K)].
Qed.

Lemma skipn_incl (n : nat) (s : str) c : In c (skipn n s) -> In c s.
Proof.
  intros H. rewrite <- (firstn_skipn n s). apply in_or_app; right; exact H.
Qed.

Lemma lazy_until_needs (pat s : str) c :
  In c pat -> ~ In c s -> Re.lazy_until pat s = None.
Proof.
  intros P. induction s as [|x s IH]; intros N.
  - simpl. destruct (startswith pat []) eqn:S; [|reflexivity].
    exfalso. exact (N (startswith_incl _ _ _ S P)).
  - cbn [Re.lazy_until]. destruct (startswith pat (x :: s)) eqn:S.
    + exfalso. exact (N (startswith_incl _ _ _ S P)).
    + rewrite IH by (intros K; apply N; right; exact K). reflexivity.
Qed.

Lemma token_re_without_gt (s : str) :
  ~ In ">"%char s -> Re.token_re s = Re.text_run s.
Proof.
  intros N. unfold Re.token_re.
  assert (C : Re.comment s = None).
  { unfold Re.comment. destruct (startswith "<!--" s); [|reflexivity].
    rewrite (lazy_until_needs "-->" _ ">"); [reflexivity|simpl; auto|].
    intros K; exact (N (skipn_incl _ _ _ K)). }
  assert (D : Re.doctype s = None).
  { unfold Re.doctype. destruct (Re.startswith_ci "<!DOCTYPE" s);
      [|reflexivity].
    rewrite (lazy_until_needs ">" _ ">"); [reflexivity|simpl; auto|].
    intros K; exact (N (skipn_incl _ _ _ K)). }
  assert (T : Re.tag s = None).
  { unfold Re.tag. destruct s as [|c r]; [reflexivity|].
    assert (E : drop_while Re.not_gt r = []).
    { apply drop_while_all. apply Forall_forall. intros x Hx.
      unfold Re.not_gt. destruct (Ascii.eqb_spec x ">") as [->|]; [|reflexivity].
      exfalso; apply N; right; exact Hx. }
    rewrite E. destruct c as [[] [] [] [] [] [] [] []]; try reflexivity.
    destruct (take_while Re.not_gt r); reflexivity. }
  rewrite C, D, T. reflexivity.
Qed.

Lemma text_run_some (s tok rest : str) :
  Re.text_run s = Some (tok, rest) ->
  tok = take_while Re.not_lt s /\ rest = drop_while Re.not_lt s.
Proof.
  unfold Re.text_run. destruct (take_while Re.not_lt s); [discriminate|].
  intros H; injection H as <- <-. auto.
Qed.

Lemma not_lt_run (s : str) : ~ In "<"%char (take_while Re.not_lt s).
Proof.
  intros H. pose proof (take_while_all Re.not_lt s) as F.
  rewrite Forall_forall in F. specialize (F _ H). discriminate.
Qed.

(** In a text without [>], every token is a run of text. *)
Lemma findall_without_gt (fuel : nat) (s : str) :
  ~ In ">"%char s ->
  Forall (fun tok => ~ In "<"%char tok) (Re.findall_from fuel s).
Proof.
  revert s; induction fuel as [|fuel IH]; intros s N; [constructor|].
  cbn [Re.findall_from]. destruct s as [|c r]; [constructor|].
  rewrite token_re_without_gt by exact N.
  destruct (Re.text_run (c :: r)) as [[tok rest]|] eqn:E.
  - apply text_run_some in E. destruct E as [-> ->]. constructor.
    + apply not_lt_run.
    + apply IH. intros K. exact (N (drop_while_incl _ _ _ K)).
  - apply IH. intros K; apply N; right; exact K.
Qed.

Lemma replace2_incl (o1 o2 : ascii) (new s : str) c :
  In c (replace2 o1 o2 new s) -> In c new \/ In c s.
Proof.
  induction s as [s IH] using (induction_ltof1 _ (@length ascii)).
  unfold ltof in IH. destruct s as [|x [|y r]]; [intros []|simpl; auto|].
  change (replace2 o1 o2 new (x :: y :: r))
    with (if Ascii.eqb x o1 && Ascii.eqb y o2
          then new ++ replace2 o1 o2 new r
          else x :: replace2 o1 o2 new (y :: r)).
  destruct (Ascii.eqb x o1 && Ascii.eqb y o2); intros H.
  - apply in_app_or in H. destruct H as [H|H]; [auto|].
    apply IH in H; [|simpl; lia]. destruct H; [auto|right; right; right; auto].
  - destruct H as [->|H]; [right; left; reflexivity|].
    apply IH in H; [|simpl; lia]. destruct H; [auto|right; right; auto].
Qed.

Lemma normalize_incl (text : str) c :
  In c (normalize text) -> c = LF \/ c = " "%char \/ In c text.
Proof.
  unfold normalize. intros H.
  apply replace1_incl in H. destruct H as [H|[H _]].
  { right; left. simpl in H. destruct H as [<-|[<-|[]]]; reflexivity. }
  apply replace1_incl in H. destruct H as [H|[H _]].
  { left. destruct H as [<-|[]]. reflexivity. }
  apply replace2_incl in H. destruct H as [H|H]; [|auto].
  left. destruct H as [<-|[]]. reflexivity.
Qed.

Lemma strip_nil_spaces (s : str) :
  strip s = [] -> Forall (fun c => isspace c = true) s.
Proof.
  unfold strip. intros H.
  destruct (rstrip_decompose (lstrip s)) as (ws & D & W). rewrite H in D.
  simpl in D. rewrite <- (take_drop_while isspace s).
  apply Forall_app; split; [apply take_while_all|].
  fold (lstrip s). rewrite D. exact W.
Qed.

Lemma spaces_strip_nil (s : str) :
  Forall (fun c => isspace c = true) s -> strip s = [].
Proof.
  intros H. unfold strip, lstrip. rewrite drop_while_all by exact H.
  reflexivity.
Qed.

Lemma text_lines_blank (indent : Z) (tok : str) :
  strip tok = [] -> text_lines indent tok = [].
Proof.
  intros H. apply strip_nil_spaces in H. rewrite Forall_forall in H.
  unfold text_lines.
  assert (G : forall l, (forall p, In p l -> In p (split LF tok)) ->
    flat_map (fun line => if is_empty (strip line) then []
                          else [Indented indent (strip line)]) l = []).
  { induction l as [|p l IH]; intros Hl; [reflexivity|]. simpl.
    rewrite spaces_strip_nil.
    - simpl. apply IH. intros q Hq; apply Hl; right; exact Hq.
    - apply Forall_forall. intros c Hc. apply H.
      apply (split_pieces_incl LF tok p); [apply Hl; left; reflexivity|exact Hc]. }
  apply G; auto.
Qed.

Lemma text_lines_chars (indent : Z) (tok : str) e c :
  In e (text_lines indent tok) -> In c (render e) ->
  c = " "%char \/ In c tok.
Proof.
  unfold text_lines. rewrite in_flat_map. intros (line & Hl & He) Hc.
  destruct (is_empty (strip line)); [destruct He|].
  destruct He as [<-|[]]. simpl in Hc. apply in_app_or in Hc.
  destruct Hc as [Hc|Hc]; [left; exact (times_in _ _ Hc)|right].
  apply (split_pieces_incl LF tok line); [exact Hl|exact (strip_incl _ _ Hc)].
Qed.

(** Tokens without [<] are text nodes, and the loop only emits their
    lines. *)
Lemma html_loop_texts (tokens : list str) (indent : Z) (out : list emitted) :
  Forall (fun tok => ~ In "<"%char tok) tokens ->
  html_loop tokens indent out = Ok (out ++ flat_map (text_lines indent) tokens).
Proof.
  intros F. revert out. induction F as [|tok tokens N _ IH]; intros out.
  - simpl. rewrite app_nil_r. reflexivity.
  - cbn [flat_map]. destruct (strip tok) as [|c s] eqn:E.
    + rewrite html_loop_blank by exact E.
      rewrite text_lines_blank by exact E. apply IH.
    + rewrite html_loop_text.
      * rewrite IH, app_assoc. reflexivity.
      * rewrite E; discriminate.
      * destruct (startswith "<" (strip tok)) eqn:S; [|reflexivity].
        exfalso. apply N. apply strip_incl.
        apply (startswith_incl _ _ _ S). left; reflexivity.
Qed.

Lemma assemble_incl (out_lines : list emitted) c :
  In c (assemble out_lines) ->
  c = LF \/ exists e, In e out_lines /\ In c (render e).
Proof.
  unfold assemble. intros H. apply in_app_or in H.
  destruct H as [H|[<-|[]]]; [|auto].
  apply rstrip_incl, join_incl in H. destruct H as [->|(p & P & K)]; [auto|].
  apply in_map_iff in P. destruct P as (e & <- & He). right; eauto.
Qed.

End Tokens.

(** C10 (characters lost by the tokenizer).  A [<] after which no [>]
    follows begins no token of the pattern, and the scan steps over it: in
    a text without any [>] no token holds a [<], the reindenter returns,
    and its output holds no [<].  So on [a < b], which holds one, the
    output is the two lines [a] and [b]. *)
Theorem unmatched_lt_is_dropped :
  (forall text,
      ~ In ">"%char text ->
      Forall (fun tok => ~ In "<"%char tok) (Re.findall (normalize text))
      /\ exists out, format_html text = Ok out /\ ~ In "<"%char out)
  /\ In "<"%char "a < b"
  /\ Re.findall (normalize "a < b") = ["a "; " b"]
  /\ format_html "a < b" = Ok (unlines ["a"; "b"; ""]).
Proof.
  split; [|split; [right; right; left; reflexivity|split; reflexivity]].
  intros text N.
  assert (N' : ~ In ">"%char (normalize text)).
  { intros K. apply normalize_incl in K.
    destruct K as [K|[K|K]]; [discriminate K|discriminate K|auto]. }
  pose proof (findall_without_gt (length (normalize text)) _ N') as F.
  fold (Re.findall (normalize text)) in F. split; [exact F|].
  unfold format_html, html_lines. rewrite html_loop_texts by exact F.
  cbn [bind app]. eexists; split; [reflexivity|].
  intros K. apply assemble_incl in K.
  destruct K as [K|(e & He & K)]; [discriminate K|].
  apply in_flat_map in He. destruct He as (tok & Ht & He).
  rewrite Forall_forall in F.
  destruct (text_lines_chars _ _ _ _ He K) as [D|D]; [discriminate D|].
  exact (F tok Ht D).
Qed.

Lemma unmatched_lt_is_dropped_witness :
  ~ In ">"%char "a << b"
  /\ Forall (fun tok => ~ In "<"%char tok) (Re.findall (normalize "a << b"))
  /\ exists out, format_html "a << b" = Ok out /\ ~ In "<"%char out.
Proof.
  assert (N : ~ In ">"%char "a << b").
  { simpl. intros [K|[K|[K|[K|[K|[K|[]]]]]]]; discriminate K. }
  split; [exact N|].
  exact (proj1 unmatched_lt_is_dropped "a << b" N).
Defined.

(** ** Void and self-closing tags *)

Section BareName.

Variable P : ascii -> bool.

Lemma drop_while_app (a b : str) :
  drop_while P (a ++ b) =
  match drop_while P a with
  | [] => drop_while P b
  | r => r ++ b
  end.
Proof.
  induction a as [|c a IH]; simpl.
  - destruct (drop_while P b); reflexivity.
  - destruct (P c); [exact IH|reflexivity].
Qed.

Lemma rstrip_by_app_keep (a : str) (x : ascii) (b : str) :
  P x = false ->
  rstrip_by P ((a ++ [x]) ++ b) = (a ++ [x]) ++ rstrip_by P b.
Proof.
  intros Hx. unfold rstrip_by. rewrite rev_app_distr, drop_while_app.
  assert (R : rev (a ++ [x]) = x :: rev a)
    by (rewrite rev_app_distr; reflexivity).
  rewrite R. destruct (drop_while P (rev b)) as [|c r].
  - rewrite drop_while_stop by exact Hx.
    rewrite <- R, rev_involutive. cbn [rev]. rewrite app_nil_r. reflexivity.
  - rewrite rev_app_distr, <- R, rev_involutive. reflexivity.
Qed.

Lemma rstrip_by_prefix (s : str) : exists t, s = rstrip_by P s ++ t.
Proof.
  exists (rev (take_while P (rev s))). unfold rstrip_by.
  rewrite <- rev_app_distr, take_drop_while, rev_involutive. reflexivity.
Qed.

Lemma rstrip_by_last (s r : str) (c : ascii) :
  rstrip_by P s = r ++ [c] -> P c = false.
Proof.
  unfold rstrip_by. intros H.
  apply (f_equal (@rev ascii)) in H.
  rewrite rev_involutive, rev_app_distr in H. simpl in H.
  exact (drop_while_head _ _ _ _ H).
Qed.

End BareName.

Section SplitWhen.

Variable f : ascii -> bool.

Lemma split_when_free (a : str) :
  Forall (fun c => f c = false) a -> split_when f a = [a].
Proof.
  induction 1 as [|c a Hc _ IH]; simpl; [reflexivity|].
  rewrite Hc, IH. reflexivity.
Qed.

Lemma split_when_app (a : str) (w : ascii) (b : str) :
  Forall (fun c => f c = false) a -> f w = true ->
  split_when f (a ++ w :: b) = a :: split_when f b.
Proof.
  intros Ha Hw. induction Ha as [|c a Hc _ IH]; simpl.
  - rewrite Hw. reflexivity.
  - rewrite Hc, IH. reflexivity.
Qed.

End SplitWhen.

Section PlainTags.

Lemma name_char_facts (c : ascii) :
  Re.name_char c = true ->
  isspace c = false /\ mem c "<>/ " = false /\ mem c "<>/" = false
  /\ c <> "/"%char.
Proof.
  destruct c as [[] [] [] [] [] [] [] []]; vm_compute;
    intros H; try discriminate H; repeat split; discriminate.
Qed.

Lemma space_not_name (w : ascii) : isspace w = true -> Re.name_char w = false.
Proof.
  destruct (Re.name_char w) eqn:E; [|reflexivity].
  apply name_char_facts in E. destruct E as (E & _). congruence.
Qed.

Lemma take_while_app_stop (f : ascii -> bool) (a b : str) :
  Forall (fun c => f c = true) a ->
  match b with [] => True | x :: _ => f x = false end ->
  take_while f (a ++ b) = a.
Proof.
  intros Ha Hb. induction Ha as [|c a Hc _ IH]; simpl.
  - destruct b as [|x b]; [reflexivity|]. simpl. rewrite Hb. reflexivity.
  - rewrite Hc, IH. reflexivity.
Qed.

Lemma endswith_last (x : ascii) (s : str) :
  endswith [x] s = true -> exists r, s = r ++ [x].
Proof.
  unfold endswith. cbn [rev app]. intros H.
  apply startswith_head in H. destruct H as (r & E & _).
  exists (rev r). apply (f_equal (@rev ascii)) in E.
  rewrite rev_involutive in E. exact E.
Qed.

Lemma endswith_app (p a : str) : endswith p (a ++ p) = true.
Proof.
  unfold endswith. rewrite rev_app_distr.
  induction (rev p) as [|c r IH]; [reflexivity|].
  simpl. rewrite Ascii.eqb_refl. exact IH.
Qed.

Variables (name mid : str).
Hypothesis name_nonempty : name <> [].
Hypothesis name_chars : Forall (fun c => Re.name_char c = true) name.
Hypothesis mid_shape : plain_mid mid.

Local Abbreviation s := (plain_tag name mid).

Lemma name_last : exists a x, name = a ++ [x] /\ Re.name_char x = true.
Proof.
  destruct (exists_last name_nonempty) as (a & x & E).
  exists a, x. split; [exact E|].
  rewrite Forall_forall in name_chars. apply name_chars.
  rewrite E. apply in_or_app; right; left; reflexivity.
Qed.

Lemma name_head : exists x b, name = x :: b /\ Re.name_char x = true.
Proof.
  destruct name as [|x b]; [contradiction|].
  exists x, b. split; [reflexivity|]. inversion name_chars; assumption.
Qed.

Lemma plain_open_name : Re.open_name s = Some name.
Proof.
  unfold plain_tag, Re.open_name. cbn [app].
  destruct name_head as (x & b & E & Hx).
  assert (L : lstrip (name ++ mid ++ ">") = name ++ mid ++ ">").
  { rewrite E. cbn [app]. unfold lstrip. apply drop_while_stop.
    apply name_char_facts in Hx. tauto. }
  rewrite L, take_while_app_stop.
  - rewrite E. reflexivity.
  - exact name_chars.
  - destruct mid_shape as [->|[->|(w & mid' & -> & Hw)]]; cbn [app];
      [reflexivity|reflexivity|apply space_not_name; exact Hw].
Qed.

Lemma plain_tag_name : tag_name_of s = lower name.
Proof. unfold tag_name_of. rewrite plain_open_name. reflexivity. Qed.

(** Stripping [chars], which hold [<] and [>] but no name character, from
    both ends leaves the name, followed by nothing or by something that
    begins with whitespace. *)
Lemma plain_strip_chars (chars : str) :
  mem "<" chars = true -> mem ">" chars = true ->
  (forall c, Re.name_char c = true -> mem c chars = false) ->
  endswith "/>" s = false ->
  exists y, strip_chars chars s = name ++ y
            /\ match y with
               | [] => True
               | w :: _ => isspace w = true
               end
            /\ forall r c, name ++ y = r ++ [c] -> mem c chars = false.
Proof.
  intros Hlt Hgt Hname Hend.
  destruct name_head as (x & b & E & Hx).
  destruct name_last as (a & z & Ea & Hz).
  assert (D : strip_chars chars s
              = rstrip_by (fun c => mem c chars) (name ++ mid ++ ">")).
  { unfold strip_chars, plain_tag, rstrip_by. cbn [app drop_while].
    rewrite Hlt.
    rewrite E. cbn [app]. rewrite drop_while_stop by (apply Hname; exact Hx).
    reflexivity. }
  assert (D2 : strip_chars chars s
               = name ++ rstrip_by (fun c => mem c chars) (mid ++ ">")).
  { rewrite D, Ea. apply rstrip_by_app_keep. apply Hname; exact Hz. }
  exists (rstrip_by (fun c => mem c chars) (mid ++ ">")).
  split; [exact D2|]. split.
  - destruct (rstrip_by_prefix (fun c => mem c chars) (mid ++ ">")) as (t & T).
    destruct (rstrip_by (fun c => mem c chars) (mid ++ ">")) as [|w y] eqn:R;
      [exact I|].
    destruct mid_shape as [->|[->|(w' & mid' & -> & Hw)]].
    + exfalso. unfold rstrip_by in R. cbn [app rev drop_while] in R.
      rewrite Hgt in R. discriminate R.
    + exfalso. unfold plain_tag in Hend.
      rewrite app_assoc, app_assoc in Hend.
      rewrite <- (app_assoc _ "/" ">") in Hend.
      change ("/" ++ ">") with "/>" in Hend.
      rewrite endswith_app in Hend. discriminate.
    + cbn [app] in T. injection T as <- _. exact Hw.
  - intros r c Hr. rewrite <- D2, D in Hr.
    exact (rstrip_by_last _ _ _ _ Hr).
Qed.

Lemma name_no_slash_end : endswith "/" name = false.
Proof.
  destruct (endswith "/" name) eqn:E; [|reflexivity].
  apply endswith_last in E. destruct E as (r & E).
  destruct name_last as (a & z & Ea & Hz).
  rewrite Ea in E. apply app_inj_tail in E. destruct E as (_ & ->).
  apply name_char_facts in Hz. tauto.
Qed.

Lemma name_no_space : Forall (fun c => isspace c = false) name.
Proof.
  eapply Forall_impl; [|exact name_chars].
  intros c H. apply name_char_facts in H. tauto.
Qed.

Lemma first_word (y : str) :
  match y with [] => True | w :: _ => isspace w = true end ->
  first (split_ws (name ++ y)) = Ok name.
Proof.
  intros Hy. unfold split_ws. destruct y as [|w y].
  - rewrite app_nil_r, split_when_free by exact name_no_space.
    destruct name; [contradiction|reflexivity].
  - rewrite split_when_app by (exact name_no_space || exact Hy).
    destruct name; [contradiction|reflexivity].
Qed.

Lemma name_is_self_closing :
  is_self_closing name = Ok (in_set (lower name) VOID_ELEMENTS).
Proof.
  unfold is_self_closing. rewrite name_no_slash_end.
  rewrite <- (app_nil_r name) at 1. rewrite first_word by exact I.
  reflexivity.
Qed.

(** For a tag of these shapes the test of the loop is the one of the
    claim: the suffix [/>] first, then the element name in the set of void
    elements. *)
Lemma plain_self_closing :
  self_closing_or_void s
  = Ok (endswith "/>" s || in_set (lower name) VOID_ELEMENTS).
Proof.
  unfold self_closing_or_void.
  destruct (endswith "/>" s) eqn:E; [reflexivity|]. cbn [orb].
  unfold bare_name. destruct (mem " " s) eqn:M.
  - destruct (plain_strip_chars "<>/ ") as (y & -> & Hy & _);
      [reflexivity|reflexivity| |exact E|].
    + intros c H. apply name_char_facts in H. tauto.
    + rewrite first_word by exact Hy. cbn [bind].
      apply name_is_self_closing.
  - destruct (plain_strip_chars "<>/") as (y & -> & Hy & L);
      [reflexivity|reflexivity| |exact E|].
    + intros c H. apply name_char_facts in H. tauto.
    + cbn [bind]. unfold is_self_closing.
      destruct (endswith "/" (name ++ y)) eqn:S.
      * apply endswith_last in S. destruct S as (r & S).
        specialize (L _ _ S). discriminate L.
      * rewrite first_word by exact Hy. reflexivity.
Qed.

Lemma plain_is_plain_open :
  opaque_name (lower name) = false -> is_plain_open s = true.
Proof.
  intros O. unfold is_plain_open, is_opaque_open.
  destruct (named_open_guards _ _ plain_open_name) as (E & C & L & K).
  rewrite plain_tag_name, E, C, L, K, O. reflexivity.
Qed.

End PlainTags.

(** C6, as the code has it.  An opening tag of the form [<name>],
    [<name/>] or [<name], whitespace, anything, [>], whose name is a run of
    letters, digits, [:] and [-] other than script and style, is treated as
    self-closing exactly when its text ends with [/>] or, that failing,
    its lower-cased name is a void element.  Either way it is emitted at
    the current depth; the depth then stays as it is for a self-closing
    tag and grows by one for any other. *)
Theorem void_or_self_closing (tok : str) (rest : list str) (indent : Z)
  (out : list emitted) (name mid : str) :
  strip tok = "<" ++ name ++ mid ++ ">" ->
  name <> [] -> Forall (fun c => Re.name_char c = true) name ->
  plain_mid mid ->
  opaque_name (lower name) = false ->
  tag_name_of (strip tok) = lower name
  /\ self_closing_or_void (strip tok)
     = Ok (endswith "/>" (strip tok) || in_set (lower name) VOID_ELEMENTS)
  /\ html_loop (tok :: rest) indent out =
     html_loop rest
       (if endswith "/>" (strip tok) || in_set (lower name) VOID_ELEMENTS
        then indent else indent + 1)
       (out ++ [Indented indent (strip tok)]).
Proof.
  intros E N C M O.
  pose proof (plain_self_closing name mid N C M) as S.
  pose proof (plain_is_plain_open name mid N C M O) as Pl.
  unfold plain_tag in S, Pl. rewrite <- E in S, Pl.
  split; [rewrite E; exact (plain_tag_name name mid N C M)|].
  split; [exact S|].
  rewrite html_loop_plain by exact Pl. rewrite S.
  destruct (endswith "/>" (strip tok) || in_set (lower name) VOID_ELEMENTS);
    reflexivity.
Qed.

Lemma void_or_self_closing_witness :
  strip " <IMG src=x>" = "<" ++ "IMG" ++ " src=x" ++ ">"
  /\ html_loop [" <IMG src=x>"; "t"] 1 [] =
     html_loop ["t"] 1 ([] ++ [Indented 1 "<IMG src=x>"]).
Proof.
  split; [reflexivity|].
  apply (void_or_self_closing " <IMG src=x>" ["t"] 1 [] "IMG" " src=x").
  - reflexivity.
  - discriminate.
  - repeat constructor.
  - right; right. exists " "%char, "src=x". split; reflexivity.
  - reflexivity.
Defined.

(** C6 as stated fails.  [<script/>] ends with [/>], yet it opens a block
    and what follows is emitted one level deeper; [<a/ b>] neither ends
    with [/>] nor is named as a void element, yet [<c>] follows it at the
    same depth; [<br.x>] has the name [br] for the name pattern, yet it
    is not treated as void. *)
Lemma void_or_self_closing_counterexample :
  (endswith "/>" "<script/>" = true
   /\ html_lines "<script/><p>" =
        Ok [Indented 0 "<script/>"; Indented 1 "<p>"])
  /\ (endswith "/>" "<a/ b>" = false /\ tag_name_of "<a/ b>" = "a"
      /\ in_set "a" VOID_ELEMENTS = false
      /\ html_lines "<a/ b><c>" =
           Ok [Indented 0 "<a/ b>"; Indented 0 "<c>"])
  /\ (tag_name_of "<br.x>" = "br" /\ in_set "br" VOID_ELEMENTS = true
      /\ html_lines "<br.x><c>" =
           Ok [Indented 0 "<br.x>"; Indented 1 "<c>"]).
Proof. repeat split; reflexivity. Qed.

(** * The token stream *)

Section FindAll.

Lemma startswith_prefix (p s : str) :
  startswith p s = true -> s = p ++ skipn (length p) s.
Proof.
  revert s; induction p as [|x p IH]; intros s H; [reflexivity|].
  apply startswith_head in H. destruct H as (r & -> & H).
  simpl. f_equal. exact (IH _ H).
Qed.

Lemma startswith_self (p r : str) : startswith p (p ++ r) = true.
Proof.
  induction p as [|x p IH]; [reflexivity|].
  simpl. rewrite Ascii.eqb_refl. exact IH.
Qed.

(** Whether [s] starts with [p] is decided by the first [length p]
    characters of [s]. *)
Lemma startswith_app_long (p a r : str) :
  (length p <= length a)%nat -> startswith p (a ++ r) = startswith p a.
Proof.
  revert a; induction p as [|x p IH]; intros a L; [reflexivity|].
  destruct a as [|y a]; [simpl in L; lia|].
  simpl. rewrite IH by (simpl in L; lia). reflexivity.
Qed.

Lemma lazy_until_split (pat s m rest : str) :
  Re.lazy_until pat s = Some (m, rest) ->
  s = m ++ rest /\ exists k, m = k ++ pat.
Proof.
  revert m rest; induction s as [|c s IH]; intros m rest.
  - simpl. destruct (startswith pat []) eqn:S; [|discriminate].
    intros H; injection H as <- <-. split.
    + apply startswith_prefix; exact S.
    + exists []; reflexivity.
  - cbn [Re.lazy_until]. destruct (startswith pat (c :: s)) eqn:S.
    + intros H; injection H as <- <-. split.
      * apply startswith_prefix; exact S.
      * exists []; reflexivity.
    + destruct (Re.lazy_until pat s) as [[m' rest']|]; [|discriminate].
      intros H; injection H as <- <-.
      destruct (IH _ _ eq_refl) as (E & k & K). split.
      * simpl; congruence.
      * exists (c :: k). simpl; congruence.
Qed.

(** A lazy match does not depend on what follows it. *)
Lemma lazy_until_stable (pat s m rest r : str) :
  Re.lazy_until pat s = Some (m, rest) ->
  Re.lazy_until pat (m ++ r) = Some (m, r).
Proof.
  revert m rest; induction s as [|c s IH]; intros m rest.
  - simpl. destruct (startswith pat []) eqn:S; [|discriminate].
    intros H; injection H as <- _.
    destruct pat; [destruct r; reflexivity|discriminate].
  - cbn [Re.lazy_until]. destruct (startswith pat (c :: s)) eqn:S.
    + intros H; injection H as <- _.
      destruct pat as [|x pat]; [destruct r; reflexivity|].
      cbn [app Re.lazy_until]. change (x :: pat ++ r) with ((x :: pat) ++ r).
      rewrite startswith_self.
      rewrite skipn_app, skipn_all, Nat.sub_diag. reflexivity.
    + destruct (Re.lazy_until pat s) as [[m' rest']|] eqn:E; [|discriminate].
      intros H; injection H as <- <-.
      destruct (lazy_until_split _ _ _ _ E) as (Es & k & K).
      cbn [app Re.lazy_until].
      assert (S' : startswith pat (c :: m' ++ r) = false).
      { change (c :: m' ++ r) with ((c :: m') ++ r).
        rewrite startswith_app_long
          by (rewrite K; simpl; rewrite length_app; lia).
        rewrite <- S, Es. change (c :: m' ++ rest') with ((c :: m') ++ rest').
        rewrite startswith_app_long
          by (rewrite K; simpl; rewrite length_app; lia).
        reflexivity. }
      rewrite S', (IH _ _ eq_refl). reflexivity.
Qed.

(** What a match of [token_re] consumes. *)
Lemma token_re_split (s tok rest : str) :
  Re.token_re s = Some (tok, rest) -> s = tok ++ rest /\ tok <> [].
Proof.
  unfold Re.token_re.
  destruct (Re.comment s) as [[t r]|] eqn:C.
  { intros H; injection H as <- <-. unfold Re.comment in C.
    destruct (startswith "<!--" s); [|discriminate].
    destruct (Re.lazy_until "-->" (skipn 4 s)) as [[m r']|] eqn:L;
      [|discriminate].
    injection C as <- <-. destruct (lazy_until_split _ _ _ _ L) as (E & k & K).
    split.
    - rewrite <- app_assoc, <- E. symmetry; exact (firstn_skipn 4 s).
    - rewrite K. intros Z. apply (f_equal (@length ascii)) in Z.
      rewrite !length_app in Z. simpl in Z. lia. }
  destruct (Re.doctype s) as [[t r]|] eqn:D.
  { intros H; injection H as <- <-. unfold Re.doctype in D.
    destruct (Re.startswith_ci "<!DOCTYPE" s); [|discriminate].
    destruct (Re.lazy_until ">" (skipn 9 s)) as [[m r']|] eqn:L;
      [|discriminate].
    injection D as <- <-. destruct (lazy_until_split _ _ _ _ L) as (E & k & K).
    split.
    - rewrite <- app_assoc, <- E. symmetry; exact (firstn_skipn 9 s).
    - rewrite K. intros Z. apply (f_equal (@length ascii)) in Z.
      rewrite !length_app in Z. simpl in Z. lia. }
  destruct (Re.tag s) as [[t r]|] eqn:T.
  { intros H; injection H as <- <-. unfold Re.tag in T.
    destruct s as [|c s]; [discriminate|].
    destruct (Ascii.eqb_spec c "<") as [->|N].
    - pose proof (take_drop_while Re.not_gt s) as E.
      destruct (take_while Re.not_gt s) as [|x run]; [discriminate|].
      destruct (drop_while Re.not_gt s) as [|y r']; [discriminate|].
      destruct (Ascii.eqb_spec y ">") as [->|N].
      + injection T as <- <-. split; [|discriminate].
        rewrite <- E. simpl. rewrite <- app_assoc. reflexivity.
      + exfalso. revert T N.
        destruct y as [[] [] [] [] [] [] [] []]; try discriminate.
        intros _ N; apply N; reflexivity.
    - exfalso. revert T N.
      destruct c as [[] [] [] [] [] [] [] []]; try discriminate.
      intros _ N; apply N; reflexivity. }
  intros H. unfold Re.text_run in H.
  destruct (take_while Re.not_lt s) as [|x run] eqn:K; [discriminate|].
  injection H as <- <-. split; [|discriminate].
  rewrite <- K. symmetry; apply take_drop_while.
Qed.

End FindAll.

Section FindAllEquations.

Lemma findall_from_enough (n m : nat) (s : str) :
  (length s <= n)%nat -> (length s <= m)%nat ->
  Re.findall_from n s = Re.findall_from m s.
Proof.
  revert m s; induction n as [|n IH]; intros m s Hn Hm.
  - destruct s; [|simpl in Hn; lia]. destruct m; reflexivity.
  - destruct m as [|m]; [destruct s; [reflexivity|simpl in Hm; lia]|].
    cbn [Re.findall_from]. destruct s as [|c r]; [reflexivity|].
    destruct (Re.token_re (c :: r)) as [[tok rest]|] eqn:T.
    + apply token_re_split in T. destruct T as (E & N).
      assert (length rest < length (c :: r))%nat.
      { rewrite E, length_app. destruct tok; [contradiction|simpl; lia]. }
      f_equal. apply IH; lia.
    + apply IH; simpl in *; lia.
Qed.

Lemma findall_token (s tok rest : str) :
  Re.token_re s = Some (tok, rest) -> Re.findall s = tok :: Re.findall rest.
Proof.
  intros T. pose proof (token_re_split _ _ _ T) as (E & N).
  unfold Re.findall. destruct s as [|c r]; [destruct tok; discriminate|].
  cbn [length Re.findall_from]. rewrite T. f_equal.
  apply findall_from_enough; [|lia].
  apply (f_equal (@length ascii)) in E. rewrite length_app in E.
  simpl in E. destruct tok; [contradiction|simpl in E; lia].
Qed.

Lemma findall_skip (c : ascii) (r : str) :
  Re.token_re (c :: r) = None -> Re.findall (c :: r) = Re.findall r.
Proof.
  intros T. unfold Re.findall. cbn [length Re.findall_from]. rewrite T.
  reflexivity.
Qed.

End FindAllEquations.

Section TokenKinds.

Lemma startswith_sealed (q a : str) (x : ascii) (r : str) :
  ~ In x q -> startswith q ((a ++ [x]) ++ r) = startswith q (a ++ [x]).
Proof.
  revert a; induction q as [|y q IH]; intros a N; [reflexivity|].
  destruct a as [|c a]; simpl.
  - destruct (Ascii.eqb_spec y x) as [->|_]; [|reflexivity].
    exfalso; apply N; left; reflexivity.
  - rewrite IH by (intros K; apply N; right; exact K). reflexivity.
Qed.

Lemma lower_char_punct (x c : ascii) :
  is_lower c = false -> lower_char x = c -> x = c.
Proof.
  unfold lower_char. destruct (is_upper x) eqn:L; [|auto].
  intros U E. exfalso. subst c. revert L U.
  destruct x as [[] [] [] [] [] [] [] []]; vm_compute; congruence.
Qed.

Lemma lower_app (a b : str) : lower (a ++ b) = lower a ++ lower b.
Proof. apply map_app. Qed.

Lemma startswith_ci_sealed (p a r : str) :
  ~ In ">"%char (lower p) ->
  Re.startswith_ci p ((a ++ ">") ++ r) = Re.startswith_ci p (a ++ ">").
Proof.
  intros N. unfold Re.startswith_ci. rewrite !lower_app.
  apply (startswith_sealed (lower p) (lower a) ">" (lower r)). exact N.
Qed.

Lemma startswith_length (p s : str) :
  startswith p s = true -> (length p <= length s)%nat.
Proof.
  intros H. apply startswith_prefix in H. rewrite H, length_app. lia.
Qed.

Lemma lazy_until_found (c : ascii) (s : str) :
  In c s -> Re.lazy_until [c] s <> None.
Proof.
  induction s as [|x s IH]; intros H; [destruct H|].
  cbn [Re.lazy_until]. destruct (startswith [c] (x :: s)) eqn:S;
    [discriminate|].
  destruct H as [->|H].
  - simpl in S. rewrite Ascii.eqb_refl in S. discriminate.
  - specialize (IH H). destruct (Re.lazy_until [c] s) as [[m r]|];
      [discriminate|contradiction].
Qed.

Lemma lazy_until_extend (pat x m r rest : str) :
  Re.lazy_until pat x = Some (m, r) ->
  Re.lazy_until pat (x ++ rest) = Some (m, r ++ rest).
Proof.
  intros H. destruct (lazy_until_split _ _ _ _ H) as (E & _).
  rewrite E at 1. rewrite <- app_assoc.
  exact (lazy_until_stable _ _ _ _ _ H).
Qed.

Lemma comment_stable (s tok rest r : str) :
  Re.comment s = Some (tok, rest) ->
  Re.comment (tok ++ r) = Some (tok, r) /\ markup tok.
Proof.
  unfold Re.comment. destruct (startswith "<!--" s) eqn:S; [|discriminate].
  destruct (Re.lazy_until "-->" (skipn 4 s)) as [[m r']|] eqn:L;
    [|discriminate].
  apply startswith_prefix in S.
  assert (F : firstn 4 s = "<!--") by (rewrite S; reflexivity).
  rewrite F. intros H.
  assert (Et : tok = "<!--" ++ m) by congruence. subst tok. clear H. split.
  - rewrite <- app_assoc, startswith_self.
    change (skipn 4 ("<!--" ++ m ++ r)) with (m ++ r).
    change (firstn 4 ("<!--" ++ m ++ r)) with "<!--".
    rewrite (lazy_until_stable _ _ _ _ r L). reflexivity.
  - destruct (lazy_until_split _ _ _ _ L) as (_ & k & ->).
    exists ("!--" ++ k ++ "--"). simpl. rewrite <- !app_assoc. reflexivity.
Qed.

Lemma startswith_ci_prefix (p s : str) :
  Re.startswith_ci p s = true ->
  exists a, s = a ++ skipn (length p) s /\ length a = length p
            /\ lower a = lower p /\ firstn (length p) s = a.
Proof.
  unfold Re.startswith_ci. intros H.
  exists (firstn (length p) s).
  pose proof (startswith_length _ _ H) as L. unfold lower in L.
  rewrite !length_map in L.
  split; [symmetry; apply firstn_skipn|].
  split; [apply firstn_length_le; exact L|]. split; [|reflexivity].
  apply startswith_prefix in H. unfold lower in *.
  rewrite <- firstn_map, H, firstn_app, length_map.
  rewrite Nat.sub_diag, firstn_O, app_nil_r.
  apply firstn_all2. rewrite length_map. lia.
Qed.

Lemma doctype_not_comment (a r : str) :
  lower a = lower "<!DOCTYPE" -> startswith "<!--" (a ++ r) = false.
Proof.
  intros H. destruct a as [|c1 [|c2 [|c3 a]]]; try discriminate H.
  simpl in H. injection H as _ _ H3 _.
  cbn [app startswith].
  destruct (Ascii.eqb_spec "-" c3) as [<-|_];
    [discriminate H3|rewrite !andb_false_r; reflexivity].
Qed.

Lemma doctype_stable (s tok rest r : str) :
  Re.doctype s = Some (tok, rest) ->
  Re.comment (tok ++ r) = None /\ Re.doctype (tok ++ r) = Some (tok, r)
  /\ markup tok.
Proof.
  unfold Re.doctype.
  destruct (Re.startswith_ci "<!DOCTYPE" s) eqn:S; [|discriminate].
  destruct (Re.lazy_until ">" (skipn 9 s)) as [[m r']|] eqn:L;
    [|discriminate].
  destruct (startswith_ci_prefix _ _ S) as (a & E & La & Lo & F).
  change (length "<!DOCTYPE") with 9%nat in *. rewrite F.
  intros H.
  assert (Et : tok = a ++ m) by congruence. subst tok. clear H.
  split; [|split].
  - unfold Re.comment. rewrite <- app_assoc, doctype_not_comment by exact Lo.
    reflexivity.
  - assert (S' : Re.startswith_ci "<!DOCTYPE" ((a ++ m) ++ r) = true).
    { unfold Re.startswith_ci. rewrite <- app_assoc, lower_app, Lo.
      apply startswith_self. }
    rewrite S'.
    assert (K : skipn 9 ((a ++ m) ++ r) = m ++ r).
    { rewrite <- app_assoc, skipn_app, La, Nat.sub_diag.
      rewrite skipn_all2 by lia. reflexivity. }
    assert (K' : firstn 9 ((a ++ m) ++ r) = a).
    { rewrite <- app_assoc, firstn_app, La, Nat.sub_diag, firstn_O, app_nil_r.
      apply firstn_all2; lia. }
    rewrite K, K', (lazy_until_stable _ _ _ _ r L). reflexivity.
  - destruct (lazy_until_split _ _ _ _ L) as (_ & k & ->).
    destruct a as [|c a]; [discriminate La|].
    simpl in Lo. injection Lo as Lc _.
    apply lower_char_punct in Lc; [subst c|reflexivity].
    exists (a ++ k). simpl. rewrite <- app_assoc. reflexivity.
Qed.

End TokenKinds.

Section TokenStability.

Lemma tag_split (s tok rest : str) :
  Re.tag s = Some (tok, rest) ->
  exists run, run <> [] /\ Forall (fun c => Re.not_gt c = true) run
              /\ tok = "<"%char :: run ++ ">" /\ s = tok ++ rest.
Proof.
  unfold Re.tag. destruct s as [|c s]; [discriminate|].
  destruct (Ascii.eqb_spec c "<") as [->|N].
  - pose proof (take_drop_while Re.not_gt s) as E.
    pose proof (take_while_all Re.not_gt s) as F.
    destruct (take_while Re.not_gt s) as [|x run]; [discriminate|].
    destruct (drop_while Re.not_gt s) as [|y r']; [discriminate|].
    destruct (Ascii.eqb_spec y ">") as [->|N].
    + intros H.
      assert (Et : tok = "<"%char :: (x :: run) ++ ">") by congruence.
      assert (Er : rest = r') by congruence. subst tok rest.
      exists (x :: run). split; [discriminate|]. split; [exact F|].
      split; [reflexivity|]. rewrite <- E. simpl. rewrite <- app_assoc.
      reflexivity.
    + intros T. exfalso. revert T N.
      destruct y as [[] [] [] [] [] [] [] []]; try discriminate.
      intros _ N; apply N; reflexivity.
  - intros T. exfalso. revert T N.
    destruct c as [[] [] [] [] [] [] [] []]; try discriminate.
    intros _ N; apply N; reflexivity.
Qed.

Lemma tag_of_run (run r : str) :
  run <> [] -> Forall (fun c => Re.not_gt c = true) run ->
  Re.tag (("<"%char :: run ++ ">") ++ r) = Some ("<"%char :: run ++ ">", r).
Proof.
  intros N F. unfold Re.tag. cbn [app]. rewrite <- app_assoc.
  rewrite take_while_app_stop by (exact F || reflexivity).
  assert (D : drop_while Re.not_gt (run ++ ">" ++ r) = ">" ++ r).
  { clear N. induction F as [|c run Hc _ IH]; [reflexivity|].
    simpl. rewrite Hc. exact IH. }
  rewrite D. destruct run; [contradiction|reflexivity].
Qed.

Lemma not_head_lt (c : ascii) (r : str) :
  c <> "<"%char ->
  Re.comment (c :: r) = None /\ Re.doctype (c :: r) = None
  /\ Re.tag (c :: r) = None.
Proof.
  intros N. split; [|split].
  - unfold Re.comment. rewrite startswith_cons.
    destruct (Ascii.eqb_spec "<" c) as [<-|_]; [contradiction|reflexivity].
  - unfold Re.doctype, Re.startswith_ci.
    change (lower "<!DOCTYPE") with ("<"%char :: lower "!DOCTYPE").
    change (lower (c :: r)) with (lower_char c :: lower r).
    rewrite startswith_cons.
    destruct (Ascii.eqb_spec "<" (lower_char c)) as [E|_]; [|reflexivity].
    symmetry in E. apply lower_char_punct in E; [contradiction|reflexivity].
  - unfold Re.tag. revert N.
    destruct c as [[] [] [] [] [] [] [] []]; try reflexivity.
    intros N; exfalso; apply N; reflexivity.
Qed.

(** A run of text in front of markup, or at the end, is one token. *)
Lemma token_re_text (q x : str) :
  q <> [] -> ~ In "<"%char q ->
  (x = [] \/ exists x', x = "<"%char :: x') ->
  Re.token_re (q ++ x) = Some (q, x).
Proof.
  intros N F X. destruct q as [|c q]; [contradiction|].
  assert (Hc : c <> "<"%char) by (intros ->; apply F; left; reflexivity).
  destruct (not_head_lt c (q ++ x) Hc) as (C & D & T).
  unfold Re.token_re. cbn [app]. rewrite C, D, T.
  assert (A : Forall (fun a => Re.not_lt a = true) (c :: q)).
  { apply Forall_forall. intros a Ha. unfold Re.not_lt.
    destruct (Ascii.eqb_spec a "<") as [->|_]; [contradiction|reflexivity]. }
  unfold Re.text_run. change (c :: q ++ x) with ((c :: q) ++ x).
  rewrite take_while_app_stop;
    [|exact A|destruct X as [->|(x' & ->)]; [exact I|reflexivity]].
  rewrite drop_while_app_all by exact A.
  destruct X as [->|(x' & ->)]; reflexivity.
Qed.

Lemma lower_in_gt (a : str) : In ">"%char a -> In ">"%char (lower a).
Proof. intros H. apply (in_map lower_char) in H. exact H. Qed.

(** A token of markup is matched again, as the same token, in front of
    any text [r], unless it opens a comment that ends nowhere in the
    input while [r] holds the end of a comment. *)
Lemma token_re_markup_stable (s tok rest r : str) :
  Re.token_re ("<"%char :: s) = Some (tok, rest) ->
  (Re.comment ("<"%char :: s) = None ->
   startswith "<!--" ("<"%char :: s) = true ->
   Re.lazy_until "-->" (skipn 4 (tok ++ r)) = None) ->
  Re.token_re (tok ++ r) = Some (tok, r).
Proof.
  unfold Re.token_re at 1. intros H Hc.
  destruct (Re.comment ("<"%char :: s)) as [[t r1]|] eqn:C.
  { assert (Et : t = tok) by congruence. subst t.
    destruct (comment_stable _ _ _ r C) as (C' & M).
    unfold Re.token_re. rewrite C'. auto. }
  destruct (Re.doctype ("<"%char :: s)) as [[t r1]|] eqn:D.
  { assert (Et : t = tok) by congruence. subst t.
    destruct (doctype_stable _ _ _ r D) as (C' & D' & M).
    unfold Re.token_re. rewrite C', D'. auto. }
  destruct (Re.tag ("<"%char :: s)) as [[t r1]|] eqn:T.
  2:{ exfalso. unfold Re.text_run in H. simpl in H. discriminate H. }
  assert (Et : t = tok) by congruence. subst t.
  assert (Er : r1 = rest) by congruence. subst r1. clear H.
  destruct (tag_split _ _ _ T) as (run & N & F & Et & Es).
  assert (Seal : tok = ("<"%char :: run) ++ ">") by (rewrite Et; reflexivity).
  unfold Re.token_re.
  assert (C' : Re.comment (tok ++ r) = None).
  { unfold Re.comment. destruct (startswith "<!--" (tok ++ r)) eqn:S1;
      [|reflexivity].
    rewrite Hc; [reflexivity|reflexivity|].
    rewrite Es, Seal, startswith_sealed.
    - rewrite Seal, startswith_sealed in S1; [exact S1|].
      simpl. intros [K|[K|[K|[K|[]]]]]; discriminate K.
    - simpl. intros [K|[K|[K|[K|[]]]]]; discriminate K. }
  assert (D' : Re.doctype (tok ++ r) = None).
  { unfold Re.doctype.
    destruct (Re.startswith_ci "<!DOCTYPE" (tok ++ r)) eqn:S2; [|reflexivity].
    exfalso.
    assert (G : ~ In ">"%char (lower "<!DOCTYPE")).
    { simpl. intros K. repeat (destruct K as [K|K]; [discriminate K|]).
      exact K. }
    rewrite Seal, startswith_ci_sealed in S2 by exact G.
    assert (S3 : Re.startswith_ci "<!DOCTYPE" ("<"%char :: s) = true).
    { rewrite Es, Seal, startswith_ci_sealed by exact G. exact S2. }
    unfold Re.doctype in D. rewrite S3 in D.
    destruct (startswith_ci_prefix _ _ S3) as (a & E & La & Lo & _).
    change (length "<!DOCTYPE") with 9%nat in *.
    assert (In ">"%char ("<"%char :: s)) as K.
    { rewrite Es, Seal. apply in_or_app; left.
      apply in_or_app; right; left; reflexivity. }
    rewrite E in K. apply in_app_or in K. destruct K as [K|K].
    - apply lower_in_gt in K. rewrite Lo in K. exact (G K).
    - apply lazy_until_found in K.
      destruct (Re.lazy_until ">" (skipn 9 ("<"%char :: s))) as [[m r2]|];
        [discriminate D|apply K; reflexivity]. }
  rewrite C', D', Et, tag_of_run by assumption. reflexivity.
Qed.

Lemma token_re_markup (s tok rest : str) :
  Re.token_re ("<"%char :: s) = Some (tok, rest) -> markup tok.
Proof.
  unfold Re.token_re. intros H.
  destruct (Re.comment ("<"%char :: s)) as [[t r1]|] eqn:C.
  { assert (Et : t = tok) by congruence. subst t.
    exact (proj2 (comment_stable _ _ _ [] C)). }
  destruct (Re.doctype ("<"%char :: s)) as [[t r1]|] eqn:D.
  { assert (Et : t = tok) by congruence. subst t.
    exact (proj2 (proj2 (doctype_stable _ _ _ [] D))). }
  destruct (Re.tag ("<"%char :: s)) as [[t r1]|] eqn:T.
  - assert (Et : t = tok) by congruence. subst t.
    destruct (tag_split _ _ _ T) as (run & _ & _ & Et & _).
    exists run; exact Et.
  - exfalso. unfold Re.text_run in H. simpl in H. discriminate H.
Qed.

Lemma markup_trimmed (tok : str) : markup tok -> strip tok = tok.
Proof.
  intros (body & ->). apply trimmed_strip. split.
  - reflexivity.
  - change ("<"%char :: body ++ ">") with (("<"%char :: body) ++ ">").
    apply rstrip_snoc. reflexivity.
Qed.

End TokenStability.

(** * Markup without script or style blocks *)

Section SimpleRun.

Lemma html_step_simple (tok : str) (rest : list str) (indent : Z)
  (out : list emitted) :
  not_opaque tok ->
  html_step tok rest indent out =
  match token_step tok indent with
  | Ok (d, new) => Ok (rest, d, out ++ new)
  | IndexError => IndexError
  end.
Proof.
  unfold not_opaque, token_step, html_step. intros O. rewrite O.
  destruct (is_empty (strip tok)); [rewrite app_nil_r; reflexivity|].
  destruct (is_comment_or_doctype (strip tok)); [reflexivity|].
  destruct (startswith "<" (strip tok)); [|reflexivity].
  destruct (is_closing_tag (strip tok)); [reflexivity|].
  destruct (self_closing_or_void (strip tok)); reflexivity.
Qed.

Lemma html_loop_simple (tokens : list str) (indent : Z) (out : list emitted) :
  Forall not_opaque tokens ->
  html_loop tokens indent out =
  match simple_run tokens indent with
  | Ok new => Ok (out ++ new)
  | IndexError => IndexError
  end.
Proof.
  intros F. revert indent out.
  induction F as [|tok rest O _ IH]; intros indent out.
  - simpl. rewrite app_nil_r. reflexivity.
  - rewrite html_loop_step, html_step_simple by exact O.
    cbn [simple_run]. destruct (token_step tok indent) as [[d new]|];
      [|reflexivity].
    rewrite IH. destruct (simple_run rest d); [|reflexivity].
    rewrite app_assoc. reflexivity.
Qed.

(** A token of text keeps the depth and emits its lines that are not
    blank. *)
Lemma token_step_text (tok : str) (indent : Z) :
  ~ In "<"%char tok -> token_step tok indent = Ok (indent, text_lines indent tok).
Proof.
  intros N. unfold token_step, html_step.
  destruct (strip tok) as [|c s] eqn:E.
  - cbn [is_empty]. rewrite text_lines_blank by exact E. reflexivity.
  - cbn [is_empty].
    assert (L : startswith "<" (c :: s) = false).
    { destruct (startswith "<" (c :: s)) eqn:S; [|reflexivity].
      exfalso. apply N. apply strip_incl. rewrite E.
      apply (startswith_incl _ _ _ S). left; reflexivity. }
    assert (C : is_comment_or_doctype (c :: s) = false).
    { destruct (is_comment_or_doctype (c :: s)) eqn:C; [|reflexivity].
      apply comment_starts_lt in C. congruence. }
    rewrite C, L. reflexivity.
Qed.

(** A token of markup emits itself, as one line. *)
Lemma token_step_markup (tok : str) (indent d : Z) (new : list emitted) :
  markup tok -> not_opaque tok ->
  token_step tok indent = Ok (d, new) ->
  exists dl, new = [Indented dl tok].
Proof.
  intros M O. unfold not_opaque in O. unfold token_step, html_step.
  rewrite (markup_trimmed _ M) in *. rewrite O.
  destruct M as (body & ->). cbn [is_empty].
  destruct (is_comment_or_doctype _);
    [intros H; injection H as _ <-; eauto|].
  change (startswith "<" ("<"%char :: body ++ ">")) with true. cbv iota.
  destruct (is_closing_tag _); [intros H; injection H as _ <-; eauto|].
  destruct (self_closing_or_void _); [|discriminate].
  intros H; injection H as _ <-; eauto.
Qed.

End SimpleRun.

(** ** Where a text occurs in another *)

Section Occurs.

Lemma occurs_refl (s : str) : occurs s s.
Proof. exists [], []. rewrite app_nil_r. reflexivity. Qed.

Lemma occurs_trans (a b c : str) : occurs a b -> occurs b c -> occurs a c.
Proof.
  intros (x & y & ->) (u & v & ->). exists (u ++ x), (y ++ v).
  rewrite <- !app_assoc. reflexivity.
Qed.

Lemma occurs_app_l (pat a b : str) : occurs pat a -> occurs pat (a ++ b).
Proof.
  intros (x & y & ->). exists x, (y ++ b). rewrite <- !app_assoc. reflexivity.
Qed.

Lemma occurs_app_r (pat a b : str) : occurs pat b -> occurs pat (a ++ b).
Proof.
  intros (x & y & ->). exists (a ++ x), y. rewrite <- !app_assoc. reflexivity.
Qed.

Lemma occurs_incl (pat s : str) c : occurs pat s -> In c pat -> In c s.
Proof.
  intros (a & b & ->) H. apply in_or_app; right. apply in_or_app; left.
  exact H.
Qed.

Lemma lazy_until_occurs (pat s : str) :
  Re.lazy_until pat s = None <-> ~ occurs pat s.
Proof.
  split.
  - intros H (a & b & E). subst s. revert H.
    induction a as [|c a IH].
    + cbn [app]. destruct (pat ++ b) as [|x r] eqn:E.
      * simpl. destruct pat; [discriminate|discriminate E].
      * cbn [Re.lazy_until]. rewrite <- E, startswith_self. discriminate.
    + cbn [app Re.lazy_until].
      destruct (startswith pat (c :: a ++ pat ++ b)); [discriminate|].
      destruct (Re.lazy_until pat (a ++ pat ++ b)) as [[m r]|];
        [discriminate|]. intros _. apply IH. reflexivity.
  - intros N. destruct (Re.lazy_until pat s) as [[m r]|] eqn:E;
      [|reflexivity].
    exfalso. apply N. destruct (lazy_until_split _ _ _ _ E) as (-> & k & ->).
    exists k, r. rewrite <- app_assoc. reflexivity.
Qed.

(** A pattern that begins a text cannot reach across a character that it
    does not hold. *)
Lemma prefix_before_sep (pat v a : str) (x : ascii) (b : str) :
  ~ In x pat -> pat ++ v = a ++ x :: b -> exists a', a = pat ++ a'.
Proof.
  revert a; induction pat as [|y pat IH]; intros a N E; [exists a; reflexivity|].
  destruct a as [|c a].
  - simpl in E. injection E as -> _. exfalso; apply N; left; reflexivity.
  - simpl in E. injection E as -> E.
    destruct (IH a) as (a' & ->); [intros K; apply N; right; exact K|exact E|].
    exists a'. reflexivity.
Qed.

Lemma occurs_app_sep (pat a : str) (x : ascii) (b : str) :
  ~ In x pat -> occurs pat (a ++ x :: b) -> occurs pat a \/ occurs pat b.
Proof.
  intros N (u & v & E). revert u E. induction a as [|c a IH]; intros u E.
  - destruct u as [|y u].
    + destruct (prefix_before_sep pat v [] x b N (eq_sym E)) as (a' & E').
      left. exists [], a'. exact E'.
    + simpl in E. injection E as _ ->. right. exists u, v. reflexivity.
  - destruct u as [|y u].
    + destruct (prefix_before_sep pat v (c :: a) x b N (eq_sym E)) as (a' & E').
      left. exists [], a'. exact E'.
    + simpl in E. injection E as _ E.
      destruct (IH u E) as [(p & q & ->)|H]; [left|right; exact H].
      exists (c :: p), q. reflexivity.
Qed.

Lemma strip_occurs (s : str) : occurs (strip s) s.
Proof.
  unfold strip. destruct (rstrip_decompose (lstrip s)) as (ws & E & _).
  exists (take_while isspace s), ws.
  rewrite <- E. unfold lstrip. symmetry. apply take_drop_while.
Qed.

Lemma split_head_prefix (sep : ascii) (s : str) :
  exists b, s = hd [] (split sep s) ++ b.
Proof.
  induction s as [|c s (b & IH)]; [exists []; reflexivity|].
  destruct (Ascii.eqb_spec c sep) as [->|N].
  - rewrite split_cons_sep. exists (sep :: s). reflexivity.
  - rewrite split_cons_other by exact N. exists b. simpl. congruence.
Qed.

Lemma split_piece_occurs (sep : ascii) (s p : str) :
  In p (split sep s) -> occurs p s.
Proof.
  revert p; induction s as [|c s IH]; intros p.
  - simpl. intros [<-|[]]. apply occurs_refl.
  - destruct (Ascii.eqb_spec c sep) as [->|N].
    + rewrite split_cons_sep. intros [<-|H].
      * exists [], (sep :: s). reflexivity.
      * apply (occurs_app_r p [sep] s). exact (IH _ H).
    + rewrite split_cons_other by exact N.
      destruct (split_head_prefix sep s) as (b & E).
      pose proof (split_when_nonempty (Ascii.eqb sep) s) as NE.
      fold (split sep s) in NE.
      destruct (split sep s) as [|q qs]; [contradiction|]. simpl in *.
      intros [<-|H].
      * exists [], b. simpl. congruence.
      * apply (occurs_app_r p [c] s). apply IH. right; exact H.
Qed.

End Occurs.

(** ** The lines of the output, as text *)

Section Contents.

Lemma findall_from_occurs (fuel : nat) (s : str) :
  Forall (fun t => occurs t s) (Re.findall_from fuel s).
Proof.
  revert s; induction fuel as [|fuel IH]; intros s; [constructor|].
  cbn [Re.findall_from]. destruct s as [|c r]; [constructor|].
  destruct (Re.token_re (c :: r)) as [[tok rest]|] eqn:T.
  - apply token_re_split in T. destruct T as (E & _). rewrite E.
    constructor.
    + apply occurs_app_l, occurs_refl.
    + eapply Forall_impl; [|apply IH].
      intros t H. apply occurs_app_r; exact H.
  - eapply Forall_impl; [|apply IH].
    intros t H. apply (occurs_app_r t [c] r); exact H.
Qed.

Lemma findall_occurs (s : str) : Forall (fun t => occurs t s) (Re.findall s).
Proof. apply findall_from_occurs. Qed.

Lemma content_in_trans (a b : str) (e : emitted) :
  occurs a b -> content_in a e -> content_in b e.
Proof.
  destruct e as [d c|]; simpl; [|auto].
  intros H K. exact (occurs_trans _ _ _ K H).
Qed.

Lemma text_lines_contents (indent : Z) (tok : str) :
  Forall (content_in tok) (text_lines indent tok).
Proof.
  unfold text_lines. apply Forall_flat_map, Forall_forall.
  intros line Hl. destruct (is_empty (strip line)); constructor; [|constructor].
  simpl. apply (occurs_trans _ line).
  - apply strip_occurs.
  - exact (split_piece_occurs _ _ _ Hl).
Qed.

Lemma token_step_contents (tok : str) (indent d : Z) (new : list emitted) :
  token_step tok indent = Ok (d, new) -> Forall (content_in tok) new.
Proof.
  unfold token_step, html_step.
  pose proof (strip_occurs tok) as S.
  destruct (is_empty (strip tok)); [intros H; injection H as _ <-; constructor|].
  destruct (is_comment_or_doctype (strip tok));
    [intros H; injection H as _ <-; repeat constructor; exact S|].
  destruct (startswith "<" (strip tok));
    [|intros H; injection H as _ <-; apply text_lines_contents].
  destruct (is_closing_tag (strip tok));
    [intros H; injection H as _ <-; repeat constructor; exact S|].
  destruct (is_opaque_open (strip tok)).
  - cbn [collect fst snd].
    intros H; injection H as _ <-. repeat constructor; exact S.
  - destruct (self_closing_or_void (strip tok)); [|discriminate].
    intros H; injection H as _ <-; repeat constructor; exact S.
Qed.

Lemma simple_run_contents (s : str) (tokens : list str) (indent : Z)
  (lines : list emitted) :
  Forall (fun t => occurs t s) tokens ->
  simple_run tokens indent = Ok lines -> Forall (content_in s) lines.
Proof.
  intros F. revert indent lines.
  induction F as [|tok rest Ht _ IH]; intros indent lines.
  - intros H; injection H as <-. constructor.
  - cbn [simple_run].
    destruct (token_step tok indent) as [[d new]|] eqn:T; [|discriminate].
    destruct (simple_run rest d) as [more|] eqn:R; [|discriminate].
    intros H; injection H as <-. apply Forall_app. split.
    + eapply Forall_impl; [|exact (token_step_contents _ _ _ _ T)].
      intros e. apply content_in_trans. exact Ht.
    + exact (IH _ _ R).
Qed.

Lemma occurs_nil (pat : str) : occurs pat [] -> pat = [].
Proof.
  intros (a & b & E). destruct a; [|discriminate E].
  destruct pat; [reflexivity|discriminate E].
Qed.

Lemma occurs_after_spaces (pat ws c : str) :
  pat <> [] -> ~ In " "%char pat -> Forall (fun x => x = " "%char) ws ->
  occurs pat (ws ++ c) -> occurs pat c.
Proof.
  intros N S F. induction F as [|x ws -> _ IH]; [auto|].
  intros H. apply (occurs_app_sep pat [] " " (ws ++ c) S) in H.
  destruct H as [H|H]; [apply occurs_nil in H; contradiction|auto].
Qed.

Lemma times_all_spaces (d : Z) : Forall (fun x => x = " "%char) (times "  " d).
Proof. apply Forall_forall. intros x H. exact (times_in _ _ H). Qed.

(** A pattern without line break or space that occurs in the rendered
    lines occurs in the content of one of them. *)
Lemma occurs_render_all (pat : str) (lines : list emitted) :
  pat <> [] -> ~ In " "%char pat -> ~ In LF pat ->
  occurs pat (render_all lines) ->
  exists d c, In (Indented d c) lines /\ occurs pat c.
Proof.
  intros N S L. induction lines as [|e lines IH]; intros H.
  - apply occurs_nil in H. contradiction.
  - unfold render_all in H. cbn [flat_map] in H. rewrite <- app_assoc in H.
    apply (occurs_app_sep pat (render e) LF _ L) in H.
    destruct H as [H|H].
    + destruct e as [d c|]; [|apply occurs_nil in H; contradiction].
      simpl in H. apply occurs_after_spaces in H;
        [|assumption|assumption|apply times_all_spaces].
      exists d, c. split; [left; reflexivity|exact H].
    + destruct (IH H) as (d & c & I1 & I2). exists d, c.
      split; [right; exact I1|exact I2].
Qed.

Lemma render_all_app (a b : list emitted) :
  render_all (a ++ b) = render_all a ++ render_all b.
Proof. apply flat_map_app. Qed.

Lemma render_all_ends (lines : list emitted) :
  lines = [] \/ exists a, render_all lines = a ++ [LF].
Proof.
  destruct lines as [|e0 l0]; [left; reflexivity|right].
  assert (N : e0 :: l0 <> []) by discriminate.
  destruct (exists_last N) as (l & e & ->).
  rewrite render_all_app. unfold render_all at 2. cbn [flat_map].
  rewrite app_nil_r. exists (render_all l ++ render e).
  rewrite <- app_assoc. reflexivity.
Qed.

Lemma render_all_incl (lines : list emitted) c :
  In c (render_all lines) ->
  c = LF \/ exists e, In e lines /\ In c (render e).
Proof.
  unfold render_all. rewrite in_flat_map. intros (e & He & H).
  apply in_app_or in H. destruct H as [H|[<-|[]]]; [|auto].
  right; eauto.
Qed.

End Contents.

(** ** Text that waits for the next token *)

Section PendingText.

Lemma split_app_pieces (sep : ascii) (a x : str) :
  split sep (a ++ sep :: x) = split sep a ++ split sep x.
Proof.
  induction a as [|c a IH]; cbn [app].
  - rewrite split_cons_sep. reflexivity.
  - destruct (Ascii.eqb_spec c sep) as [->|N].
    + rewrite !split_cons_sep, IH. reflexivity.
    + rewrite !split_cons_other by exact N. rewrite IH.
      pose proof (split_when_nonempty (Ascii.eqb sep) a) as NE.
      fold (split sep a) in NE.
      destruct (split sep a); [contradiction|reflexivity].
Qed.

Lemma text_lines_app (indent : Z) (a x : str) :
  text_lines indent ((a ++ [LF]) ++ x)
  = text_lines indent (a ++ [LF]) ++ text_lines indent x.
Proof.
  unfold text_lines. rewrite <- app_assoc. cbn [app].
  rewrite !split_app_pieces, !flat_map_app.
  change (split LF []) with [@nil ascii]. cbn [flat_map strip lstrip rstrip].
  simpl. rewrite app_nil_r. reflexivity.
Qed.

Lemma text_lines_pending (indent : Z) (p x : str) :
  pending p -> text_lines indent (p ++ x)
               = text_lines indent p ++ text_lines indent x.
Proof.
  intros (_ & [->|(a & ->)]); [reflexivity|apply text_lines_app].
Qed.

Lemma text_lines_spaces (indent : Z) (ws : str) :
  Forall (fun c => isspace c = true) ws -> text_lines indent ws = [].
Proof. intros H. apply text_lines_blank, spaces_strip_nil, H. Qed.

Lemma text_lines_entries (indent : Z) (tok : str) :
  ~ In "<"%char tok -> Forall (text_entry indent) (text_lines indent tok).
Proof.
  intros N. unfold text_lines. apply Forall_flat_map, Forall_forall.
  intros line Hl. destruct (strip line) as [|c s] eqn:E; [constructor|].
  cbn [is_empty]. constructor; [|constructor].
  exists (c :: s). rewrite <- E. split; [reflexivity|].
  split; [apply strip_idem|]. split; [rewrite E; discriminate|]. split.
  - intros K. apply strip_incl in K.
    pose proof (split_pieces_free LF tok) as F. rewrite Forall_forall in F.
    exact (F _ Hl K).
  - intros K. apply strip_incl in K. apply N.
    exact (split_pieces_incl LF _ _ _ Hl K).
Qed.

Lemma text_lines_one (indent d : Z) (c : str) :
  strip c = c -> c <> [] -> ~ In LF c ->
  text_lines indent ((times "  " d ++ c) ++ [LF]) = [Indented indent c].
Proof.
  intros T N L. unfold text_lines.
  rewrite split_app_pieces, split_free.
  - cbn [app flat_map]. rewrite strip_app_space by apply times_spaces.
    rewrite T. destruct c; [contradiction|]. reflexivity.
  - intros K. apply in_app_or in K. destruct K as [K|K]; [|auto].
    apply times_in in K. discriminate K.
Qed.

(** Reading the lines of text again gives the same lines. *)
Lemma text_lines_render (indent : Z) (lines : list emitted) :
  Forall (text_entry indent) lines ->
  text_lines indent (render_all lines) = lines.
Proof.
  induction 1 as [|e lines (c & -> & T & N & L & _) _ IH]; [reflexivity|].
  unfold render_all. cbn [flat_map]. fold (render_all lines).
  cbn [render]. rewrite text_lines_app, text_lines_one by assumption.
  rewrite IH. reflexivity.
Qed.

Lemma pending_nil : pending [].
Proof. split; [intros []|left; reflexivity]. Qed.

Lemma pending_break : pending [LF].
Proof.
  split; [intros [K|[]]; discriminate K|right; exists []; reflexivity].
Qed.

Lemma pending_lines (indent : Z) (p : str) (lines : list emitted) :
  pending p -> Forall (text_entry indent) lines ->
  pending (p ++ render_all lines).
Proof.
  intros (N & E) F. split.
  - intros K. apply in_app_or in K. destruct K as [K|K]; [auto|].
    apply render_all_incl in K. destruct K as [K|(e & He & K)];
      [discriminate K|].
    rewrite Forall_forall in F. destruct (F e He) as (c & -> & _ & _ & _ & Nc).
    simpl in K. apply in_app_or in K. destruct K as [K|K]; [|auto].
    apply times_in in K. discriminate K.
  - destruct (render_all_ends lines) as [->|(a & ->)].
    + simpl. rewrite app_nil_r. exact E.
    + right. exists (p ++ a). rewrite app_assoc. reflexivity.
Qed.

End PendingText.

(** ** Reading the output of the markup reindenter again *)

Section ReadAgain.

Lemma not_opaque_text (q : str) : ~ In "<"%char q -> not_opaque q.
Proof.
  intros N. unfold not_opaque.
  destruct (is_opaque_open (strip q)) eqn:O; [|reflexivity].
  exfalso. destruct (opaque_open_guards _ O) as (_ & _ & L & _).
  apply N, strip_incl. apply (startswith_incl _ _ _ L). left; reflexivity.
Qed.

Lemma html_loop_text_token (q : str) (rest : list str) (indent : Z)
  (out : list emitted) :
  ~ In "<"%char q ->
  html_loop (q :: rest) indent out =
  html_loop rest indent (out ++ text_lines indent q).
Proof.
  intros N. rewrite html_loop_step.
  rewrite html_step_simple by (apply not_opaque_text; exact N).
  rewrite token_step_text by exact N. reflexivity.
Qed.

(** Text in front of markup is read as one token, and adds its lines. *)
Lemma html_loop_pending (q x : str) (indent : Z) (out : list emitted) :
  ~ In "<"%char q ->
  html_loop (Re.findall (q ++ "<"%char :: x)) indent out =
  html_loop (Re.findall ("<"%char :: x)) indent (out ++ text_lines indent q).
Proof.
  intros N. destruct q as [|c q].
  - cbn [app]. change (text_lines indent []) with (@nil emitted).
    rewrite app_nil_r. reflexivity.
  - rewrite (findall_token _ (c :: q) ("<"%char :: x)).
    + apply html_loop_text_token; exact N.
    + apply token_re_text; [discriminate|exact N|right; eauto].
Qed.

Lemma html_loop_pending_end (p : str) (indent : Z) (out : list emitted) :
  ~ In "<"%char p ->
  html_loop (Re.findall p) indent out = Ok (out ++ text_lines indent p).
Proof.
  intros N. destruct p as [|c p].
  - change (text_lines indent []) with (@nil emitted).
    rewrite app_nil_r. reflexivity.
  - rewrite <- (app_nil_r (c :: p)) at 1.
    rewrite (findall_token _ (c :: p) []).
    + rewrite html_loop_text_token by exact N. reflexivity.
    + apply token_re_text; [discriminate|exact N|left; reflexivity].
Qed.

(** The token of an unterminated comment stays one: nothing that the loop
    emits after it holds the end of a comment. *)
Lemma no_arrow_after (s tok rest : str) (lines : list emitted) :
  "<"%char :: s = tok ++ rest -> markup tok ->
  Re.comment ("<"%char :: s) = None ->
  startswith "<!--" ("<"%char :: s) = true ->
  Forall (content_in rest) lines ->
  Re.lazy_until "-->" (skipn 4 (tok ++ LF :: render_all lines)) = None.
Proof.
  intros E (body & Et) C S F.
  assert (Seal : tok = ("<"%char :: body) ++ ">") by (rewrite Et; reflexivity).
  assert (G : ~ In ">"%char "<!--").
  { simpl. intros [K|[K|[K|[K|[]]]]]; discriminate K. }
  assert (St : startswith "<!--" tok = true).
  { rewrite E, Seal, startswith_sealed in S by exact G.
    rewrite Seal. exact S. }
  pose proof (startswith_length _ _ St) as Len.
  change (length "<!--") with 4%nat in Len.
  unfold Re.comment in C. rewrite S in C.
  assert (A : ~ occurs "-->" (skipn 4 tok ++ rest)).
  { apply lazy_until_occurs.
    destruct (Re.lazy_until "-->" (skipn 4 ("<"%char :: s))) as [[m r]|] eqn:L;
      [discriminate C|].
    rewrite E, skipn_app in L.
    replace (4 - length tok)%nat with 0%nat in L by lia. exact L. }
  apply lazy_until_occurs. rewrite skipn_app.
  replace (4 - length tok)%nat with 0%nat by lia. cbn [skipn].
  intros K. apply occurs_app_sep in K.
  2:{ simpl. intros [Z|[Z|[Z|[]]]]; discriminate Z. }
  destruct K as [K|K].
  - apply A. apply occurs_app_l. exact K.
  - apply occurs_render_all in K.
    + destruct K as (d & c & I1 & I2).
      rewrite Forall_forall in F. specialize (F _ I1). simpl in F.
      apply A. apply occurs_app_r. exact (occurs_trans _ _ _ I2 F).
    + discriminate.
    + simpl. intros [Z|[Z|[Z|[]]]]; discriminate Z.
    + simpl. intros [Z|[Z|[Z|[]]]]; discriminate Z.
Qed.

(** The loop, run on the rendered lines that it emitted for the tokens of
    [s], emits the same lines; text that was pending in front of them
    adds its own. *)
Lemma read_again (n : nat) :
  forall s, (length s <= n)%nat ->
  Forall not_opaque (Re.findall s) ->
  forall indent lines, simple_run (Re.findall s) indent = Ok lines ->
  forall p out, pending p ->
  html_loop (Re.findall (p ++ render_all lines)) indent out
  = Ok (out ++ text_lines indent p ++ lines).
Proof.
  induction n as [|n IH]; intros s Len Fo indent lines Run p out Hp.
  - destruct s; [|simpl in Len; lia].
    injection Run as <-. cbn [render_all flat_map]. rewrite !app_nil_r.
    apply html_loop_pending_end. exact (proj1 Hp).
  - destruct s as [|c r].
    { injection Run as <-. cbn [render_all flat_map]. rewrite !app_nil_r.
      apply html_loop_pending_end. exact (proj1 Hp). }
    destruct (Re.token_re (c :: r)) as [[tok rest]|] eqn:T.
    2:{ rewrite (findall_skip _ _ T) in Fo, Run.
        apply (IH r); auto. simpl in Len; lia. }
    rewrite (findall_token _ _ _ T) in Fo, Run.
    destruct (token_re_split _ _ _ T) as (Es & Nt).
    assert (Lr : (length rest <= n)%nat).
    { apply (f_equal (@length ascii)) in Es. rewrite length_app in Es.
      simpl in Es, Len. destruct tok; [contradiction|simpl in Es; lia]. }
    inversion Fo as [|? ? Ot Fr]; subst.
    cbn [simple_run] in Run.
    destruct (token_step tok indent) as [[d new]|] eqn:St; [|discriminate].
    destruct (simple_run (Re.findall rest) d) as [more|] eqn:Rm;
      [|discriminate].
    injection Run as <-.
    destruct (Ascii.eqb_spec c "<") as [->|Nc].
    + (* a token of markup: the pending text, then the token itself *)
      pose proof (token_re_markup _ _ _ T) as M.
      assert (Cm : Forall (content_in rest) more)
        by exact (simple_run_contents _ _ _ _ (findall_occurs rest) Rm).
      assert (T2 : Re.token_re (tok ++ LF :: render_all more)
                   = Some (tok, LF :: render_all more)).
      { apply (token_re_markup_stable r tok rest _ T).
        intros C S. apply (no_arrow_after r tok rest more); auto. }
      destruct (token_step_markup _ _ _ _ M Ot St) as (dl & ->).
      cbn [render_all flat_map app render].
      fold (render_all more).
      destruct M as (body & Eb).
      replace (p ++ ((times "  " dl ++ tok) ++ [LF]) ++ render_all more)
        with ((p ++ times "  " dl)
                ++ "<"%char :: (body ++ ">") ++ LF :: render_all more)
        by (rewrite Eb; cbn [app]; rewrite <- !app_assoc; cbn [app];
            rewrite <- ?app_assoc; reflexivity).
      rewrite html_loop_pending.
      2:{ intros K. apply in_app_or in K. destruct K as [K|K].
          - exact (proj1 Hp K).
          - apply times_in in K. discriminate K. }
      rewrite text_lines_pending by exact Hp.
      rewrite (text_lines_spaces indent (times "  " dl))
        by apply times_spaces.
      rewrite app_nil_r.
      change ("<"%char :: (body ++ ">") ++ LF :: render_all more)
        with (("<"%char :: body ++ ">") ++ LF :: render_all more).
      rewrite <- Eb, (findall_token _ _ _ T2).
      rewrite html_loop_step, html_step_simple, St by exact Ot.
      change (LF :: render_all more) with ([LF] ++ render_all more).
      rewrite (IH rest Lr Fr d more Rm [LF] _ pending_break).
      change (text_lines d [LF]) with (@nil emitted).
      rewrite <- !app_assoc. reflexivity.
    + (* a token of text: it joins the pending text *)
      assert (Nl : ~ In "<"%char tok).
      { destruct (not_head_lt c r Nc) as (C & D & Tg).
        unfold Re.token_re in T. rewrite C, D, Tg in T.
        apply text_run_some in T. destruct T as (-> & _). apply not_lt_run. }
      rewrite token_step_text in St by exact Nl. injection St as <- <-.
      pose proof (text_lines_entries indent tok Nl) as Fe.
      rewrite render_all_app, app_assoc.
      rewrite (IH rest Lr Fr indent more Rm _ _ (pending_lines _ _ _ Hp Fe)).
      rewrite text_lines_pending by exact Hp.
      rewrite text_lines_render by exact Fe.
      rewrite <- !app_assoc. reflexivity.
Qed.

End ReadAgain.

Section HtmlIdempotence.

Lemma text_entry_visible (indent : Z) (e : emitted) :
  text_entry indent e -> visible_entry e.
Proof. intros (c & -> & T & N & _). exists indent, c. auto. Qed.

Lemma token_step_visible (tok : str) (indent d : Z) (new : list emitted) :
  not_opaque tok -> token_step tok indent = Ok (d, new) ->
  Forall visible_entry new.
Proof.
  unfold not_opaque, token_step, html_step. intros O. rewrite O.
  assert (V : is_empty (strip tok) = false ->
              visible_entry (Indented indent (strip tok))
              /\ visible_entry (Indented (Z.max (indent - 1) 0) (strip tok))).
  { intros E. split; eexists _, _; (split; [reflexivity|]);
      (split; [intros K; rewrite K in E; discriminate|apply strip_idem]). }
  destruct (is_empty (strip tok)) eqn:E;
    [intros H; injection H as _ <-; constructor|].
  destruct (V eq_refl) as (V1 & V2).
  destruct (is_comment_or_doctype (strip tok));
    [intros H; injection H as _ <-; repeat constructor; exact V1|].
  destruct (startswith "<" (strip tok)) eqn:L.
  2:{ intros H; injection H as _ <-. unfold text_lines.
      apply Forall_flat_map, Forall_forall. intros line _.
      destruct (strip line) as [|c s] eqn:El; [constructor|].
      cbn [is_empty]. repeat constructor. exists indent, (c :: s).
      rewrite <- El. split; [reflexivity|].
      split; [rewrite El; discriminate|apply strip_idem]. }
  destruct (is_closing_tag (strip tok));
    [intros H; injection H as _ <-; repeat constructor; exact V2|].
  destruct (self_closing_or_void (strip tok)); [|discriminate].
  intros H; injection H as _ <-; repeat constructor; exact V1.
Qed.

Lemma simple_run_visible (tokens : list str) (indent : Z)
  (lines : list emitted) :
  Forall not_opaque tokens -> simple_run tokens indent = Ok lines ->
  Forall visible_entry lines.
Proof.
  intros F. revert indent lines.
  induction F as [|tok rest O _ IH]; intros indent lines.
  - intros H; injection H as <-. constructor.
  - cbn [simple_run].
    destruct (token_step tok indent) as [[d new]|] eqn:T; [|discriminate].
    destruct (simple_run rest d) as [more|] eqn:R; [|discriminate].
    intros H; injection H as <-. apply Forall_app. split.
    + exact (token_step_visible _ _ _ _ O T).
    + exact (IH _ _ R).
Qed.

Lemma join_render_all (e : emitted) (lines : list emitted) :
  join [LF] (map render (e :: lines)) ++ [LF] = render_all (e :: lines).
Proof.
  revert e; induction lines as [|e' lines IH]; intros e.
  - simpl. rewrite app_nil_r. reflexivity.
  - change (join [LF] (map render (e :: e' :: lines)))
      with (render e ++ [LF] ++ join [LF] (map render (e' :: lines))).
    rewrite <- !app_assoc, IH. unfold render_all. cbn [flat_map].
    rewrite <- !app_assoc. reflexivity.
Qed.

(** The output for lines with content is these lines, each followed by a
    line break. *)
Lemma assemble_render_all (e : emitted) (lines : list emitted) :
  Forall visible_entry (e :: lines) ->
  assemble (e :: lines) = render_all (e :: lines).
Proof.
  intros F. rewrite <- join_render_all. unfold assemble. f_equal.
  apply rstrip_ends_visible.
  assert (N : e :: lines <> []) by discriminate.
  destruct (exists_last N) as (l & x & E). rewrite E in *.
  rewrite map_app. cbn [map]. apply join_ends_visible.
  apply Forall_app in F. destruct F as (_ & F). inversion F as [|? ? V _].
  destruct V as (d & c & -> & Nc & T). simpl.
  apply ends_visible_app. rewrite <- T. apply strip_ends_visible.
  rewrite T. exact Nc.
Qed.

(** Without script or style blocks, formatting the output of the markup
    reindenter again changes nothing. *)
Lemma format_html_again (text out : str) :
  Forall not_opaque (Re.findall (normalize text)) ->
  format_html text = Ok out -> format_html out = Ok out.
Proof.
  intros F. unfold format_html at 1, html_lines.
  rewrite html_loop_simple by exact F.
  destruct (simple_run (Re.findall (normalize text)) 0) as [lines|] eqn:R;
    [|discriminate].
  cbn [bind app]. intros H; injection H as <-.
  destruct lines as [|e lines]; [reflexivity|].
  pose proof (simple_run_visible _ _ _ F R) as V.
  pose proof (simple_run_contents _ _ _ _ (findall_occurs _) R) as C.
  rewrite assemble_render_all by exact V.
  unfold format_html, html_lines.
  rewrite normalize_fixed.
  - change (render_all (e :: lines)) with ([] ++ render_all (e :: lines)) at 1.
    rewrite (read_again _ _ (le_n _) F 0 _ R [] [] pending_nil).
    cbn [bind app]. change (text_lines 0 []) with (@nil emitted).
    cbn [app]. rewrite assemble_render_all by exact V. reflexivity.
  - intros K. apply render_all_incl in K.
    destruct K as [K|(x & Hx & K)]; [discriminate K|].
    rewrite Forall_forall in C. specialize (C _ Hx).
    destruct x as [d c|]; [|destruct K]. simpl in K, C.
    apply in_app_or in K. destruct K as [K|K];
      [apply times_in in K; discriminate K|].
    apply (occurs_incl _ _ _ C) in K.
    apply normalize_chars in K. destruct K as (K & _). apply K; reflexivity.
  - intros K. apply render_all_incl in K.
    destruct K as [K|(x & Hx & K)]; [discriminate K|].
    rewrite Forall_forall in C. specialize (C _ Hx).
    destruct x as [d c|]; [|destruct K]. simpl in K, C.
    apply in_app_or in K. destruct K as [K|K];
      [apply times_in in K; discriminate K|].
    apply (occurs_incl _ _ _ C) in K.
    apply normalize_chars in K. destruct K as (_ & K). apply K; reflexivity.
Qed.

End HtmlIdempotence.

(** ** Idempotence *)

(** C1, as the code has it.  The stylesheet reindenter is idempotent on
    every input.  The markup reindenter is idempotent on every input in
    which no token opens a script or style block, whenever it returns; so
    formatting the output for [<div><p>Hi</p></div>] again changes
    nothing.  With a script or style block it need not be: for the style
    block of three lines below, the first pass puts an empty line before
    and after the interior line, and the second pass indents that line
    once more and puts two empty lines before and after it. *)
Theorem idempotence :
  (forall text, format_css (format_css text) = format_css text)
  /\ (forall text out,
        Forall (fun tok => is_opaque_open (strip tok) = false)
               (Re.findall (normalize text)) ->
        format_html text = Ok out -> format_html out = Ok out)
  /\ (format_html "<div><p>Hi</p></div>"
        = Ok (unlines ["<div>"; "  <p>"; "    Hi"; "  </p>"; "</div>"; ""])
      /\ format_html
           (unlines ["<div>"; "  <p>"; "    Hi"; "  </p>"; "</div>"; ""])
         = Ok (unlines ["<div>"; "  <p>"; "    Hi"; "  </p>"; "</div>"; ""]))
  /\ (format_html (unlines ["<style>"; ".a{color:red}"; "</style>"])
        = Ok (unlines ["<style>"; ""; "  .a{color:red}"; ""; "</style>"; ""])
      /\ format_html
           (unlines ["<style>"; ""; "  .a{color:red}"; ""; "</style>"; ""])
         = Ok (unlines ["<style>"; ""; ""; "    .a{color:red}"; ""; "";
                        "</style>"; ""])).
Proof.
  split; [|split; [|split; split; reflexivity]].
  - intros text. unfold format_css. rewrite css_lines_assemble. reflexivity.
  - exact format_html_again.
Qed.

Lemma idempotence_witness :
  Forall (fun tok => is_opaque_open (strip tok) = false)
         (Re.findall (normalize "<ul><li>a<br>b</li></ul>"))
  /\ format_html "<ul><li>a<br>b</li></ul>"
     = Ok (unlines ["<ul>"; "  <li>"; "    a"; "    <br>"; "    b"; "  </li>";
                    "</ul>"; ""])
  /\ format_html
       (unlines ["<ul>"; "  <li>"; "    a"; "    <br>"; "    b"; "  </li>";
                 "</ul>"; ""])
     = Ok (unlines ["<ul>"; "  <li>"; "    a"; "    <br>"; "    b"; "  </li>";
                    "</ul>"; ""]).
Proof.
  assert (F : Forall (fun tok => is_opaque_open (strip tok) = false)
                (Re.findall (normalize "<ul><li>a<br>b</li></ul>")))
    by (repeat constructor).
  split; [exact F|]. split; [reflexivity|].
  apply (proj1 (proj2 idempotence) "<ul><li>a<br>b</li></ul>");
    [exact F|reflexivity].
Defined.

(** C1 as stated fails for the markup reindenter: on this style block the
    second pass gives a text other than the first, with the interior line
    indented once more and two more empty lines. *)
Lemma idempotence_counterexample :
  let input := unlines ["<style>"; ".a{color:red}"; "</style>"] in
  let once := unlines ["<style>"; ""; "  .a{color:red}"; ""; "</style>"; ""] in
  let twice :=
    unlines ["<style>"; ""; ""; "    .a{color:red}"; ""; ""; "</style>"; ""] in
  format_html input = Ok once /\ format_html once = Ok twice /\ once <> twice.
Proof. repeat split; try reflexivity. discriminate. Qed.

(** * Further properties *)

(** ** What the tokenizer keeps *)

Section TokenizerKeeps.

Lemma drops_lt_refl (s : str) : drops_lt s s.
Proof. induction s; constructor; assumption. Qed.

Lemma drops_lt_app (a s t : str) : drops_lt s t -> drops_lt (a ++ s) (a ++ t).
Proof. intros H. induction a; [exact H|]. simpl. constructor. assumption. Qed.

(** Where no alternative of the pattern matches, the text begins with
    [<]. *)
Lemma token_re_none (c : ascii) (r : str) :
  Re.token_re (c :: r) = None -> c = "<"%char.
Proof.
  intros H. destruct (Ascii.eqb_spec c "<") as [E|N]; [exact E|].
  exfalso. destruct (not_head_lt c r N) as (C & D & T).
  unfold Re.token_re in H. rewrite C, D, T in H.
  unfold Re.text_run in H. simpl in H. unfold Re.not_lt in H.
  destruct (Ascii.eqb_spec c "<") as [E|_]; [contradiction|].
  simpl in H. discriminate H.
Qed.

Lemma findall_drops (n : nat) :
  forall s, (length s <= n)%nat -> drops_lt s (concat (Re.findall s)).
Proof.
  induction n as [|n IH]; intros s Len.
  - destruct s; [constructor|simpl in Len; lia].
  - destruct s as [|c r]; [constructor|].
    destruct (Re.token_re (c :: r)) as [[tok rest]|] eqn:T.
    + rewrite (findall_token _ _ _ T). cbn [concat].
      destruct (token_re_split _ _ _ T) as (E & N). rewrite E.
      apply drops_lt_app. apply IH.
      apply (f_equal (@length ascii)) in E. rewrite length_app in E.
      simpl in E, Len. destruct tok; [contradiction|simpl in E; lia].
    + rewrite (findall_skip _ _ T). rewrite (token_re_none _ _ T).
      constructor. apply IH. simpl in Len; lia.
Qed.

End TokenizerKeeps.

(** X1.  The tokens, put together, are the text with some [<] characters
    deleted: the tokenizer loses nothing else, and it keeps the order. *)
Theorem findall_loses_only_lt (text : str) :
  drops_lt text (concat (Re.findall text)).
Proof. exact (findall_drops (length text) text (le_n _)). Qed.

(** X2.  Every token is either a non-empty run of characters other than
    [<], or markup that begins with [<], ends with [>] and holds a
    character between the two. *)
Theorem findall_token_shapes (text : str) :
  Forall (fun tok =>
            (tok <> [] /\ ~ In "<"%char tok)
            \/ exists body, body <> [] /\ tok = "<"%char :: body ++ ">")
         (Re.findall text).
Proof.
  induction text as [text IH] using (induction_ltof1 _ (@length ascii)).
  unfold ltof in IH. destruct text as [|c r]; [constructor|].
  destruct (Re.token_re (c :: r)) as [[tok rest]|] eqn:T.
  - rewrite (findall_token _ _ _ T).
    destruct (token_re_split _ _ _ T) as (E & N).
    constructor.
    + destruct (Ascii.eqb_spec c "<") as [->|Nc].
      * right. destruct (token_re_markup _ _ _ T) as (body & Eb).
        exists body. split; [|exact Eb]. intros ->.
        (* [<>] is no token *)
        subst tok. cbn [app] in E. injection E as E.
        unfold Re.token_re, Re.comment, Re.doctype, Re.startswith_ci, Re.tag
          in T.
        rewrite E in T. vm_compute in T. discriminate T.
      * left. split; [exact N|].
        destruct (not_head_lt c r Nc) as (C & D & Tg).
        unfold Re.token_re in T. rewrite C, D, Tg in T.
        apply text_run_some in T. destruct T as (-> & _). apply not_lt_run.
    + apply IH. apply (f_equal (@length ascii)) in E.
      rewrite length_app in E. simpl in E |- *.
      destruct tok; [contradiction|simpl in E; lia].
  - rewrite (findall_skip _ _ T). apply IH. simpl; lia.
Qed.

(** ** What the formatters change *)

Section KeptCharacters.

(** [f] picks characters to follow through a formatter; it picks no
    whitespace. *)
Variable f : ascii -> bool.
Hypothesis f_space : forall c, isspace c = true -> f c = false.

Lemma filter_spaces (ws : str) :
  Forall (fun c => isspace c = true) ws -> filter f ws = [].
Proof.
  induction 1 as [|c ws Hc _ IH]; [reflexivity|].
  simpl. rewrite (f_space _ Hc). exact IH.
Qed.

Lemma filter_lstrip (s : str) : filter f (lstrip s) = filter f s.
Proof.
  rewrite <- (take_drop_while isspace s) at 2. rewrite filter_app.
  rewrite (filter_spaces (take_while isspace s)) by apply take_while_all.
  reflexivity.
Qed.

Lemma filter_rstrip (s : str) : filter f (rstrip s) = filter f s.
Proof.
  destruct (rstrip_decompose s) as (ws & E & W). rewrite E at 2.
  rewrite filter_app, (filter_spaces ws W), app_nil_r. reflexivity.
Qed.

Lemma filter_strip (s : str) : filter f (strip s) = filter f s.
Proof. unfold strip. rewrite filter_rstrip. apply filter_lstrip. Qed.

Lemma filter_blank (s : str) : strip s = [] -> filter f s = [].
Proof. intros H. apply filter_spaces, strip_nil_spaces, H. Qed.

Lemma filter_times (d : Z) (s : str) :
  filter f (times "  " d ++ s) = filter f s.
Proof.
  rewrite filter_app, (filter_spaces (times "  " d)) by apply times_spaces.
  reflexivity.
Qed.

Lemma filter_split (s : str) : filter f (concat (split LF s)) = filter f s.
Proof.
  induction s as [|c s IH]; [reflexivity|].
  destruct (Ascii.eqb_spec c LF) as [->|N].
  - rewrite split_cons_sep. cbn [concat app filter].
    rewrite f_space by reflexivity. exact IH.
  - rewrite split_cons_other by exact N.
    pose proof (split_when_nonempty (Ascii.eqb LF) s) as NE.
    fold (split LF s) in NE.
    destruct (split LF s) as [|p ps]; [contradiction|].
    cbn [hd tl concat app filter] in *. rewrite IH. reflexivity.
Qed.

Lemma filter_join (parts : list str) :
  filter f (join [LF] parts) = filter f (concat parts).
Proof.
  induction parts as [|p parts IH]; [reflexivity|].
  destruct parts as [|q parts]; [simpl; rewrite app_nil_r; reflexivity|].
  change (join [LF] (p :: q :: parts))
    with (p ++ LF :: join [LF] (q :: parts)).
  change (concat (p :: q :: parts)) with (p ++ concat (q :: parts)).
  rewrite (filter_app f p (LF :: _)), (filter_app f p (concat _)).
  cbn [filter]. rewrite f_space by reflexivity. rewrite IH. reflexivity.
Qed.

Lemma filter_replace1 (old : ascii) (new s : str) :
  isspace old = true -> Forall (fun c => isspace c = true) new ->
  filter f (replace1 old new s) = filter f s.
Proof.
  intros Ho Hn. unfold replace1. induction s as [|c s IH]; [reflexivity|].
  cbn [flat_map]. rewrite filter_app, IH.
  destruct (Ascii.eqb_spec c old) as [->|_].
  - rewrite (filter_spaces new Hn). simpl. rewrite (f_space _ Ho). reflexivity.
  - simpl. destruct (f c); reflexivity.
Qed.

Lemma filter_replace2 (o1 o2 : ascii) (new s : str) :
  isspace o1 = true -> isspace o2 = true ->
  Forall (fun c => isspace c = true) new ->
  filter f (replace2 o1 o2 new s) = filter f s.
Proof.
  intros H1 H2 Hn.
  induction s as [s IH] using (induction_ltof1 _ (@length ascii)).
  unfold ltof in IH. destruct s as [|x [|y r]]; [reflexivity|reflexivity|].
  change (replace2 o1 o2 new (x :: y :: r))
    with (if Ascii.eqb x o1 && Ascii.eqb y o2
          then new ++ replace2 o1 o2 new r
          else x :: replace2 o1 o2 new (y :: r)).
  destruct (Ascii.eqb_spec x o1) as [->|_];
    [destruct (Ascii.eqb_spec y o2) as [->|_]|]; cbn [andb].
  - rewrite filter_app, (filter_spaces new Hn), IH by (simpl; lia).
    simpl. rewrite (f_space _ H1), (f_space _ H2). reflexivity.
  - cbn [filter]. rewrite IH by (simpl; lia). reflexivity.
  - cbn [filter]. rewrite IH by (simpl; lia). reflexivity.
Qed.

Lemma filter_normalize (text : str) :
  filter f (normalize text) = filter f text.
Proof.
  unfold normalize.
  rewrite filter_replace1 by first [reflexivity|repeat constructor].
  rewrite filter_replace1 by first [reflexivity|repeat constructor].
  apply filter_replace2; first [reflexivity|repeat constructor].
Qed.

Lemma filter_render_cat_app (a b : list emitted) :
  filter f (render_cat (a ++ b))
  = filter f (render_cat a) ++ filter f (render_cat b).
Proof. unfold render_cat. rewrite flat_map_app, filter_app. reflexivity. Qed.

Lemma filter_render_one (d : Z) (s : str) :
  filter f (render_cat [Indented d (strip s)]) = filter f s.
Proof.
  unfold render_cat. cbn [flat_map render]. rewrite app_nil_r.
  rewrite filter_times. apply filter_strip.
Qed.

Lemma filter_assemble (lines : list emitted) :
  filter f (assemble lines) = filter f (render_cat lines).
Proof.
  unfold assemble. rewrite filter_app. cbn [filter].
  rewrite f_space by reflexivity. rewrite app_nil_r.
  rewrite filter_rstrip, filter_join. unfold render_cat.
  rewrite flat_map_concat_map. reflexivity.
Qed.

Lemma filter_text_lines (indent : Z) (tok : str) :
  filter f (render_cat (text_lines indent tok)) = filter f tok.
Proof.
  rewrite <- (filter_split tok). unfold text_lines, render_cat.
  induction (split LF tok) as [|line ls IH]; [reflexivity|].
  cbn [flat_map concat]. rewrite flat_map_app, !filter_app, IH. f_equal.
  destruct (is_empty (strip line)) eqn:E.
  - symmetry. apply filter_blank. destruct (strip line);
      [reflexivity|discriminate].
  - cbn [flat_map render]. rewrite app_nil_r, filter_times.
    apply filter_strip.
Qed.

Lemma filter_block_lines (indent : Z) (inner : list str) :
  filter f (render_cat (block_lines indent inner)) = filter f (concat inner).
Proof.
  rewrite <- (filter_split (concat inner)). unfold block_lines, render_cat.
  induction (split LF (concat inner)) as [|line ls IH]; [reflexivity|].
  cbn [map flat_map concat]. rewrite !filter_app, IH. f_equal.
  unfold block_line. destruct (is_empty (strip line)) eqn:E.
  - symmetry. apply filter_blank. destruct (strip line);
      [reflexivity|discriminate].
  - cbn [render]. rewrite filter_times. apply filter_rstrip.
Qed.

(** A turn of the markup loop moves the picked characters of the tokens
    it consumes into the lines, in order. *)
Lemma html_step_keeps tok rest indent out ts d o :
  html_step tok rest indent out = Ok (ts, d, o) ->
  filter f (render_cat o) ++ filter f (concat ts)
  = filter f (render_cat out) ++ filter f (concat (tok :: rest)).
Proof.
  cbn [concat]. rewrite (filter_app f tok).
  unfold html_step.
  destruct (is_empty (strip tok)) eqn:E.
  { intros H; injection H as <- _ <-. rewrite (filter_blank tok);
      [reflexivity|destruct (strip tok); [reflexivity|discriminate]]. }
  assert (One : forall x, filter f (render_cat (out ++ [Indented x (strip tok)]))
                          ++ filter f (concat rest)
                = filter f (render_cat out) ++ filter f tok
                    ++ filter f (concat rest)).
  { intros x. rewrite filter_render_cat_app, filter_render_one.
    rewrite <- app_assoc. reflexivity. }
  destruct (is_comment_or_doctype (strip tok));
    [intros H; injection H as <- _ <-; apply One|].
  destruct (startswith "<" (strip tok)).
  2:{ intros H; injection H as <- _ <-.
      rewrite filter_render_cat_app, filter_text_lines, <- app_assoc.
      reflexivity. }
  destruct (is_closing_tag (strip tok));
    [intros H; injection H as <- _ <-; apply One|].
  destruct (is_opaque_open (strip tok)).
  - destruct (collect_spec (tag_name_of (strip tok)) rest) as (Er & _ & _).
    assert (Q : filter f (concat rest)
                = filter f (concat (fst (collect (tag_name_of (strip tok)) rest)))
                  ++ filter f
                       (concat (snd (collect (tag_name_of (strip tok)) rest))))
      by (rewrite <- filter_app, <- concat_app; f_equal; f_equal; exact Er).
    rewrite Q. clear Q Er.
    destruct (snd (collect (tag_name_of (strip tok)) rest)) as [|t ts'];
      intros H; injection H as <- _ <-.
    + rewrite !filter_render_cat_app, filter_render_one, filter_block_lines.
      cbn [concat filter]. rewrite <- !app_assoc. reflexivity.
    + rewrite !filter_render_cat_app, !filter_render_one, filter_block_lines.
      cbn [concat]. rewrite (filter_app f t). rewrite <- !app_assoc.
      reflexivity.
  - destruct (self_closing_or_void (strip tok)) as [b|]; [|discriminate].
    intros H; injection H as <- _ <-. apply One.
Qed.

Lemma html_loop_keeps (tokens : list str) :
  forall indent out out',
    html_loop tokens indent out = Ok out' ->
    filter f (render_cat out')
    = filter f (render_cat out) ++ filter f (concat tokens).
Proof.
  induction tokens as [tokens IH] using (induction_ltof1 _ (@length str)).
  unfold ltof in IH. intros indent out out' H.
  destruct tokens as [|tok rest].
  - injection H as <-. cbn [concat filter]. rewrite app_nil_r. reflexivity.
  - rewrite html_loop_step in H.
    destruct (html_step tok rest indent out) as [[[ts d] o]|] eqn:S;
      [|discriminate].
    rewrite (IH ts) with (indent := d) (out := o) (out' := out');
      [|apply html_step_length in S; simpl; lia|exact H].
    exact (html_step_keeps _ _ _ _ _ _ _ S).
Qed.

Lemma css_fold_keeps (raws : list str) (depth : Z) (out : list emitted) :
  filter f (render_cat (snd (fold_left css_line raws (depth, out))))
  = filter f (render_cat out) ++ filter f (concat raws).
Proof.
  revert depth out; induction raws as [|raw raws IH]; intros depth out.
  - cbn [fold_left snd concat filter]. rewrite app_nil_r. reflexivity.
  - cbn [fold_left concat]. rewrite css_line_eq, (filter_app f raw).
    destruct (is_empty (strip raw)) eqn:E.
    + rewrite IH, (filter_blank raw);
        [reflexivity|destruct (strip raw); [reflexivity|discriminate]].
    + rewrite IH, filter_render_cat_app, filter_render_one, <- app_assoc.
      reflexivity.
Qed.

End KeptCharacters.

Lemma drops_lt_filter (f : ascii -> bool) (s t : str) :
  f "<"%char = false -> drops_lt s t -> filter f s = filter f t.
Proof.
  intros Hf. induction 1 as [|c s t _ IH|s t _ IH]; [reflexivity| |].
  - simpl. rewrite IH. reflexivity.
  - simpl. rewrite Hf. exact IH.
Qed.

(** X3.  The stylesheet reindenter changes whitespace only: the characters
    of its output that are not whitespace are those of the input, in the
    same order. *)
Theorem format_css_keeps_ink (text : str) :
  filter is_ink (format_css text) = filter is_ink text.
Proof.
  assert (S : forall c, isspace c = true -> is_ink c = false)
    by (intros c H; unfold is_ink; rewrite H; reflexivity).
  unfold format_css, css_lines. rewrite (filter_assemble _ S).
  rewrite (css_fold_keeps _ S). cbn [render_cat flat_map filter app].
  rewrite (filter_split _ S), (filter_normalize _ S). reflexivity.
Qed.

(** X4.  When the markup reindenter returns, it has changed whitespace
    and deleted [<] characters only: the characters of its output that
    are neither whitespace nor [<] are those of the input, in the same
    order; this holds with script and style blocks too. *)
Theorem format_html_keeps_ink (text out : str) :
  format_html text = Ok out ->
  filter is_ink_not_lt out = filter is_ink_not_lt text.
Proof.
  assert (S : forall c, isspace c = true -> is_ink_not_lt c = false)
    by (intros c H; unfold is_ink_not_lt; rewrite H; reflexivity).
  unfold format_html, html_lines.
  destruct (html_loop (Re.findall (normalize text)) 0 []) as [lines|] eqn:H;
    [|discriminate].
  cbn [bind]. intros K; injection K as <-.
  rewrite (filter_assemble _ S), (html_loop_keeps _ S _ _ _ _ H).
  cbn [render_cat flat_map filter app].
  rewrite <- (drops_lt_filter is_ink_not_lt _ _ eq_refl
                (findall_drops _ (normalize text) (le_n _))).
  apply (filter_normalize _ S).
Qed.

Lemma format_html_keeps_ink_witness :
  format_html "<p>a <b  c</p>" = Ok (unlines ["<p>"; "  a"; "  <b  c</p>"; ""])
  /\ filter is_ink_not_lt (unlines ["<p>"; "  a"; "  <b  c</p>"; ""])
     = filter is_ink_not_lt "<p>a <b  c</p>".
Proof.
  split; [reflexivity|].
  apply (format_html_keeps_ink "<p>a <b  c</p>"). reflexivity.
Defined.

(** ** The characters of the output *)

Section OutputCharacters.

Lemma in_render_cat (lines : list emitted) c :
  In c (render_cat lines) <-> exists e, In e lines /\ In c (render e).
Proof. unfold render_cat. apply in_flat_map. Qed.

Lemma in_render_cat_app (a b : list emitted) c :
  In c (render_cat (a ++ b)) -> In c (render_cat a) \/ In c (render_cat b).
Proof. unfold render_cat. rewrite flat_map_app. apply in_app_or. Qed.

Lemma in_render_one (d : Z) (s : str) c :
  In c (render_cat [Indented d (strip s)]) -> c = " "%char \/ In c s.
Proof.
  unfold render_cat. cbn [flat_map render]. rewrite app_nil_r. intros H.
  apply in_app_or in H. destruct H as [H|H].
  - left; exact (times_in _ _ H).
  - right; exact (strip_incl _ _ H).
Qed.

Lemma in_block_lines (indent : Z) (inner : list str) c :
  In c (render_cat (block_lines indent inner)) ->
  c = " "%char \/ In c (concat inner).
Proof.
  rewrite in_render_cat. intros (e & He & Hc). unfold block_lines in He.
  apply in_map_iff in He. destruct He as (line & <- & Hl).
  unfold block_line in Hc. destruct (is_empty (strip line)); [destruct Hc|].
  simpl in Hc. apply in_app_or in Hc. destruct Hc as [Hc|Hc].
  - left; exact (times_in _ _ Hc).
  - right. apply (split_pieces_incl LF _ line); [exact Hl|].
    exact (rstrip_incl _ _ Hc).
Qed.

Lemma in_text_lines (indent : Z) (tok : str) c :
  In c (render_cat (text_lines indent tok)) -> c = " "%char \/ In c tok.
Proof.
  rewrite in_render_cat. intros (e & He & Hc).
  exact (text_lines_chars _ _ _ _ He Hc).
Qed.

(** A turn of the markup loop puts into the lines only spaces and
    characters of the tokens. *)
Lemma html_step_chars tok rest indent out ts d o :
  html_step tok rest indent out = Ok (ts, d, o) ->
  (forall c, In c (concat ts) -> In c (concat rest))
  /\ (forall c, In c (render_cat o) ->
                In c (render_cat out) \/ c = " "%char
                \/ In c tok \/ In c (concat rest)).
Proof.
  unfold html_step.
  assert (One : forall x c,
             In c (render_cat (out ++ [Indented x (strip tok)])) ->
             In c (render_cat out) \/ c = " "%char
             \/ In c tok \/ In c (concat rest)).
  { intros x c H. apply in_render_cat_app in H. destruct H as [H|H]; [auto|].
    apply in_render_one in H. tauto. }
  destruct (is_empty (strip tok)); [intros H; injection H as <- _ <-; auto|].
  destruct (is_comment_or_doctype (strip tok));
    [intros H; injection H as <- _ <-; split; [auto|apply One]|].
  destruct (startswith "<" (strip tok)).
  2:{ intros H; injection H as <- _ <-. split; [auto|]. intros c H.
      apply in_render_cat_app in H. destruct H as [H|H]; [auto|].
      apply in_text_lines in H. tauto. }
  destruct (is_closing_tag (strip tok));
    [intros H; injection H as <- _ <-; split; [auto|apply One]|].
  destruct (is_opaque_open (strip tok)).
  - destruct (collect_spec (tag_name_of (strip tok)) rest) as (Er & _ & _).
    set (inner := fst (collect (tag_name_of (strip tok)) rest)) in *.
    assert (Inner : forall c, In c (concat inner) -> In c (concat rest)).
    { intros c H. rewrite Er, concat_app. apply in_or_app; auto. }
    assert (Blk : forall c,
               In c (render_cat ((out ++ [Indented indent (strip tok)])
                                   ++ block_lines (indent + 1) inner)) ->
               In c (render_cat out) \/ c = " "%char
               \/ In c tok \/ In c (concat rest)).
    { intros c H. apply in_render_cat_app in H. destruct H as [H|H].
      - exact (One _ _ H).
      - apply in_block_lines in H. destruct H as [H|H]; auto. }
    destruct (snd (collect (tag_name_of (strip tok)) rest)) as [|t ts'] eqn:Es;
      intros H; injection H as <- _ <-.
    + split; [intros c []|exact Blk].
    + split.
      * intros c H. rewrite Er, concat_app. apply in_or_app; right.
        cbn [concat]. apply in_or_app; auto.
      * intros c H. apply in_render_cat_app in H. destruct H as [H|H];
          [exact (Blk _ H)|].
        apply in_render_one in H. destruct H as [H|H]; [auto|].
        right; right; right. rewrite Er, concat_app. apply in_or_app; right.
        cbn [concat]. apply in_or_app; auto.
  - destruct (self_closing_or_void (strip tok)) as [b|]; [|discriminate].
    intros H; injection H as <- _ <-. split; [auto|apply One].
Qed.

Lemma html_loop_chars (tokens : list str) :
  forall indent out out' c,
    html_loop tokens indent out = Ok out' -> In c (render_cat out') ->
    In c (render_cat out) \/ c = " "%char \/ In c (concat tokens).
Proof.
  induction tokens as [tokens IH] using (induction_ltof1 _ (@length str)).
  unfold ltof in IH. intros indent out out' c H Hc.
  destruct tokens as [|tok rest].
  - injection H as <-. auto.
  - rewrite html_loop_step in H.
    destruct (html_step tok rest indent out) as [[[ts d] o]|] eqn:S;
      [|discriminate].
    destruct (html_step_chars _ _ _ _ _ _ _ S) as (Sub & New).
    destruct (IH ts (ltac:(apply html_step_length in S; simpl; lia))
                d o out' c H Hc) as [K|[K|K]].
    + destruct (New _ K) as [Q|[Q|[Q|Q]]]; [auto|auto| |];
        right; right; cbn [concat]; apply in_or_app; auto.
    + auto.
    + right; right. cbn [concat]. apply in_or_app; right. exact (Sub _ K).
Qed.

Lemma drops_lt_incl (s t : str) c : drops_lt s t -> In c t -> In c s.
Proof.
  induction 1 as [|x s t _ IH|s t _ IH]; [auto| |].
  - intros [->|H]; [left; reflexivity|right; auto].
  - intros H; right; auto.
Qed.

Lemma normalized_char (text : str) c :
  In c (normalize text) ->
  c = LF \/ c = " "%char \/ (In c text /\ c <> CR /\ c <> TAB).
Proof.
  intros H. pose proof (normalize_chars _ _ H) as (N1 & N2).
  apply normalize_incl in H. tauto.
Qed.

End OutputCharacters.

(** X5.  Neither reindenter invents characters: every character of the
    output is a line break, a space, or a character of the input other
    than a carriage return or a tab; so the output holds no carriage
    return and no tab. *)
Theorem output_characters (text : str) (c : ascii) :
  (In c (format_css text) ->
   c = LF \/ c = " "%char \/ (In c text /\ c <> CR /\ c <> TAB))
  /\ (forall out,
        format_html text = Ok out -> In c out ->
        c = LF \/ c = " "%char \/ (In c text /\ c <> CR /\ c <> TAB)).
Proof.
  split.
  - intros H. apply assemble_incl in H. destruct H as [H|(e & He & H)];
      [auto|].
    pose proof (css_lines_entries text) as F. rewrite Forall_forall in F.
    destruct (css_entry_chars _ _ _ (F e He) H) as [->|(raw & Hr & K)];
      [auto|].
    apply normalized_char. exact (split_pieces_incl LF _ _ _ Hr K).
  - unfold format_html, html_lines. intros out.
    destruct (html_loop (Re.findall (normalize text)) 0 []) as [lines|] eqn:L;
      [|discriminate].
    cbn [bind]. intros K; injection K as <-. intros H.
    apply assemble_incl in H. destruct H as [H|(e & He & H)]; [auto|].
    destruct (html_loop_chars _ _ _ _ c L) as [K|[K|K]].
    + apply in_render_cat. eauto.
    + destruct K.
    + auto.
    + apply normalized_char.
      exact (drops_lt_incl _ _ _ (findall_drops _ _ (le_n _)) K).
Qed.

Lemma output_characters_witness :
  format_html (unlines ["<p>" ++ [TAB] ++ "a" ++ [CR]; "</p>"])
    = Ok (unlines ["<p>"; "  a"; "</p>"; ""])
  /\ In "a"%char (unlines ["<p>"; "  a"; "</p>"; ""])
  /\ ("a"%char = LF \/ "a"%char = " "%char
      \/ (In "a"%char (unlines ["<p>" ++ [TAB] ++ "a" ++ [CR]; "</p>"])
          /\ "a"%char <> CR /\ "a"%char <> TAB)).
Proof.
  assert (I : In "a"%char (unlines ["<p>"; "  a"; "</p>"; ""]))
    by (vm_compute; tauto).
  split; [reflexivity|]. split; [exact I|].
  apply (proj2 (output_characters
                  (unlines ["<p>" ++ [TAB] ++ "a" ++ [CR]; "</p>"]) "a")
           (unlines ["<p>"; "  a"; "</p>"; ""])); [reflexivity|exact I].
Defined.

(** ** The lines of the output *)

Section OutputLines.

Lemma css_fold_contents (raws : list str) (depth : Z) :
  snd (fold_left css_line raws (depth, []))
  = map (fun e => Indented (match e with Indented d _ => d | Blank => 0 end)
                           (content_of e))
        (snd (fold_left css_line raws (depth, [])))
  /\ map content_of (snd (fold_left css_line raws (depth, [])))
     = filter (fun l => negb (is_empty l)) (map strip raws).
Proof.
  revert depth; induction raws as [|raw raws IH]; intros depth;
    [split; reflexivity|].
  cbn [fold_left map filter]. rewrite css_line_eq.
  destruct (is_empty (strip raw)) eqn:E; cbn [negb]; [apply IH|].
  cbn [app]. rewrite css_fold_acc. cbn [snd app map content_of].
  destruct (IH (css_next_depth depth (strip raw))) as (I1 & I2).
  split; [rewrite <- I1; reflexivity|rewrite I2; reflexivity].
Qed.

Lemma nonblank_lines_trimmed (s : str) :
  Forall (fun l => l <> [] /\ strip l = l /\ ~ In LF l) (nonblank_lines s).
Proof.
  unfold nonblank_lines. apply Forall_forall. intros l H.
  apply filter_In in H. destruct H as (H & N).
  apply in_map_iff in H. destruct H as (p & <- & Hp).
  split; [destruct (strip p); [discriminate N|discriminate]|].
  split; [apply strip_idem|].
  intros K. apply strip_incl in K.
  pose proof (split_pieces_free LF s) as F. rewrite Forall_forall in F.
  exact (F _ Hp K).
Qed.

(** The lines of an output whose emitted lines all have content. *)
Lemma nonblank_lines_assemble (lines : list emitted) :
  Forall (fun e => exists d c, e = Indented d c /\ c <> [] /\ strip c = c
                               /\ ~ In LF c) lines ->
  nonblank_lines (assemble lines) = map content_of lines.
Proof.
  intros F. destruct lines as [|e0 l0]; [reflexivity|].
  assert (V : Forall visible_entry (e0 :: l0)).
  { eapply Forall_impl; [|exact F].
    intros e (d & c & -> & N & T & _). exists d, c; auto. }
  rewrite assemble_render_all by exact V.
  unfold nonblank_lines. clear V. revert F.
  generalize (e0 :: l0). clear. intros lines F.
  induction F as [|e lines (d & c & -> & N & T & L) _ IH]; [reflexivity|].
  unfold render_all. cbn [flat_map render]. fold (render_all lines).
  rewrite <- app_assoc. cbn [app].
  rewrite split_app_pieces, map_app, filter_app, IH.
  rewrite split_free.
  - cbn [map filter content_of]. rewrite strip_app_space by apply times_spaces.
    rewrite T. destruct c; [contradiction|reflexivity].
  - intros K. apply in_app_or in K. destruct K as [K|K]; [|auto].
    apply times_in in K. discriminate K.
Qed.

Lemma css_lines_shape (text : str) :
  Forall (fun e => exists d c, e = Indented d c /\ c <> [] /\ strip c = c
                               /\ ~ In LF c) (css_lines text).
Proof.
  pose proof (css_lines_entries text) as F.
  eapply Forall_impl; [|exact F].
  intros e (d & raw & Hr & N & ->). exists d, (strip raw).
  split; [reflexivity|]. split; [exact N|]. split; [apply strip_idem|].
  intros K. apply strip_incl in K.
  pose proof (split_pieces_free LF (normalize text)) as P.
  rewrite Forall_forall in P. exact (P _ Hr K).
Qed.

Lemma text_only_token (s : str) :
  s <> [] -> ~ In "<"%char s -> Re.findall s = [s].
Proof.
  intros N L. rewrite <- (app_nil_r s) at 1.
  rewrite (findall_token _ s []); [reflexivity|].
  apply token_re_text; auto.
Qed.

Lemma text_lines_nonblank (indent : Z) (tok : str) :
  text_lines indent tok = map (Indented indent) (nonblank_lines tok).
Proof.
  unfold text_lines, nonblank_lines.
  induction (split LF tok) as [|l ls IH]; [reflexivity|].
  cbn [flat_map map filter]. rewrite IH.
  destruct (is_empty (strip l)); reflexivity.
Qed.

Lemma css_lines_contents (text : str) :
  map content_of (css_lines text) = nonblank_lines (normalize text).
Proof. exact (proj2 (css_fold_contents (split LF (normalize text)) 0)). Qed.

Lemma html_plain_lines (text : str) :
  ~ In "<"%char text ->
  html_lines text = Ok (map (Indented 0) (nonblank_lines (normalize text))).
Proof.
  intros N.
  assert (N' : ~ In "<"%char (normalize text)).
  { intros K. apply normalize_incl in K.
    destruct K as [K|[K|K]]; [discriminate K|discriminate K|auto]. }
  unfold html_lines. destruct (normalize text) as [|c s] eqn:E;
    [reflexivity|].
  rewrite text_only_token by (discriminate || exact N').
  rewrite html_loop_text_token by exact N'.
  rewrite text_lines_nonblank. reflexivity.
Qed.

End OutputLines.

(** X6.  The stylesheet reindenter keeps every line that is not blank,
    once and in order, and nothing else: the trimmed non-blank lines of
    its output are those of the normalized input. *)
Theorem format_css_lines (text : str) :
  nonblank_lines (format_css text) = nonblank_lines (normalize text)
  /\ length (css_lines text) = length (nonblank_lines (normalize text)).
Proof.
  split.
  - unfold format_css.
    rewrite nonblank_lines_assemble by apply css_lines_shape.
    apply css_lines_contents.
  - rewrite <- css_lines_contents, length_map. reflexivity.
Qed.

(** X7.  On a text without [<] the markup reindenter does not fail and
    emits, at depth zero, the trimmed lines that are not blank. *)
Theorem format_html_plain_text (text : str) :
  ~ In "<"%char text ->
  html_lines text = Ok (map (Indented 0) (nonblank_lines (normalize text)))
  /\ format_html text
     = Ok (assemble (map (Indented 0) (nonblank_lines (normalize text)))).
Proof.
  intros N. pose proof (html_plain_lines text N) as H.
  split; [exact H|]. unfold format_html. rewrite H. reflexivity.
Qed.

Lemma format_html_plain_text_witness :
  ~ In "<"%char (unlines ["  a > b "; ""; "c"])
  /\ html_lines (unlines ["  a > b "; ""; "c"])
     = Ok (map (Indented 0) (nonblank_lines (normalize (unlines ["  a > b "; ""; "c"])))).
Proof.
  assert (N : ~ In "<"%char (unlines ["  a > b "; ""; "c"])).
  { vm_compute. intros K.
    repeat (destruct K as [K|K]; [discriminate K|]). exact K. }
  split; [exact N|].
  exact (proj1 (format_html_plain_text (unlines ["  a > b "; ""; "c"]) N)).
Defined.

(** X8.  On an input of whitespace only, the empty input included, either
    reindenter gives the line break alone. *)
Theorem blank_input (text : str) :
  Forall (fun c => isspace c = true) text ->
  format_css text = [LF] /\ format_html text = Ok [LF].
Proof.
  intros W.
  assert (B : nonblank_lines (normalize text) = []).
  { unfold nonblank_lines.
    assert (Wn : forall c, In c (normalize text) -> isspace c = true).
    { intros c K. apply normalize_incl in K.
      destruct K as [->|[->|K]]; [reflexivity|reflexivity|].
      rewrite Forall_forall in W. auto. }
    assert (G : forall l, (forall p, In p l -> In p (split LF (normalize text)))
                          -> filter (fun l => negb (is_empty l)) (map strip l) = []).
    { induction l as [|p l IH]; intros Hl; [reflexivity|].
      cbn [map filter]. rewrite spaces_strip_nil.
      - apply IH. intros q Hq; apply Hl; right; exact Hq.
      - apply Forall_forall. intros c Hc. apply Wn.
        apply (split_pieces_incl LF _ p); [apply Hl; left; reflexivity|exact Hc]. }
    apply G; auto. }
  split.
  - pose proof (css_lines_contents text) as L. rewrite B in L.
    unfold format_css. destruct (css_lines text); [reflexivity|discriminate L].
  - assert (N : ~ In "<"%char text).
    { intros K. rewrite Forall_forall in W. specialize (W _ K).
      discriminate W. }
    unfold format_html. rewrite (html_plain_lines text N), B. reflexivity.
Qed.

Lemma blank_input_witness :
  Forall (fun c => isspace c = true) ([TAB; CR; LF] ++ "  ")
  /\ format_css ([TAB; CR; LF] ++ "  ") = [LF]
  /\ format_html ([TAB; CR; LF] ++ "  ") = Ok [LF].
Proof.
  assert (W : Forall (fun c => isspace c = true) ([TAB; CR; LF] ++ "  "))
    by (repeat constructor).
  split; [exact W|]. exact (blank_input _ W).
Defined.

(** ** Blocks and elements that are closed *)

Section Balanced.

Lemma at_least_weaken (d d' : Z) (lines : list emitted) :
  d <= d' -> Forall (at_least d') lines -> Forall (at_least d) lines.
Proof.
  intros L. apply Forall_impl. intros [x c|]; simpl; [lia|auto].
Qed.

(** Balanced lines give back the depth at which they begin, and are
    emitted at that depth or deeper. *)
Lemma css_balanced_run (raws : list str) :
  css_balanced raws ->
  forall depth out, 0 <= depth ->
  exists lines,
    fold_left css_line raws (depth, out) = (depth, out ++ lines)
    /\ Forall (at_least depth) lines.
Proof.
  induction 1 as [|raw rest (S & E) _ IH
                  |o inner c rest (So & Eo) _ IHi (Sc & Ec) _ IHr];
    intros depth out D.
  - exists []. rewrite app_nil_r. split; [reflexivity|constructor].
  - cbn [fold_left]. rewrite css_line_eq.
    unfold css_next_depth, css_emit_depth. rewrite S, E.
    destruct (is_empty (strip raw)); [apply IH; exact D|].
    destruct (IH depth (out ++ [Indented depth (strip raw)]) D)
      as (lines & -> & F).
    exists (Indented depth (strip raw) :: lines).
    rewrite <- app_assoc. split; [reflexivity|].
    constructor; [simpl; lia|exact F].
  - cbn [fold_left]. rewrite fold_left_app. cbn [fold_left].
    rewrite css_line_eq. unfold css_next_depth, css_emit_depth.
    rewrite So, Eo.
    assert (No : is_empty (strip o) = false).
    { destruct (strip o); [discriminate Eo|reflexivity]. }
    rewrite No.
    destruct (IHi (depth + 1) (out ++ [Indented depth (strip o)]))
      as (li & -> & Fi); [lia|].
    rewrite css_line_eq. unfold css_next_depth, css_emit_depth.
    rewrite Sc, Ec.
    assert (Nc : is_empty (strip c) = false).
    { destruct (strip c); [discriminate Sc|reflexivity]. }
    rewrite Nc. replace (Z.max (depth + 1 - 1) 0) with depth by lia.
    destruct (IHr depth (((out ++ [Indented depth (strip o)]) ++ li)
                           ++ [Indented depth (strip c)]) D)
      as (lr & -> & Fr).
    exists ([Indented depth (strip o)] ++ li
              ++ [Indented depth (strip c)] ++ lr).
    rewrite <- !app_assoc. split; [reflexivity|].
    repeat (apply Forall_app; split); try (repeat constructor; simpl; lia).
    + apply (at_least_weaken depth (depth + 1)); [lia|exact Fi].
    + exact Fr.
Qed.

Lemma html_leaf_step (tok : str) (rest : list str) (indent : Z)
  (out : list emitted) :
  html_leaf tok ->
  exists lines,
    html_loop (tok :: rest) indent out = html_loop rest indent (out ++ lines)
    /\ Forall (at_least indent) lines.
Proof.
  intros [L|[C|(P & S)]].
  - destruct (strip tok) as [|c s] eqn:E.
    + exists []. rewrite app_nil_r. split; [|constructor].
      apply html_loop_blank; exact E.
    + exists (text_lines indent tok). split.
      * apply html_loop_text; [rewrite E; discriminate|rewrite E; exact L].
      * unfold text_lines. apply Forall_flat_map, Forall_forall.
        intros line _. destruct (is_empty (strip line));
          repeat constructor. simpl; lia.
  - exists [Indented indent (strip tok)]. split;
      [apply html_loop_comment; exact C|repeat constructor; simpl; lia].
  - exists [Indented indent (strip tok)]. split;
      [|repeat constructor; simpl; lia].
    rewrite html_loop_plain by exact P. rewrite S. reflexivity.
Qed.

(** Balanced tokens give back the depth at which they begin, and their
    lines are emitted at that depth or deeper. *)
Lemma html_balanced_run (tokens : list str) :
  html_balanced tokens ->
  forall more indent out, 0 <= indent ->
  exists lines,
    html_loop (tokens ++ more) indent out
    = html_loop more indent (out ++ lines)
    /\ Forall (at_least indent) lines.
Proof.
  induction 1 as [|tok rest Lf _ IH
                  |o inner c rest (Po & So) _ IHi Cc _ IHr
                  |o inner c rest Oo Fi Cc _ IHr];
    intros more indent out D.
  - exists []. rewrite app_nil_r. split; [reflexivity|constructor].
  - cbn [app].
    destruct (html_leaf_step tok (rest ++ more) indent out Lf)
      as (l1 & -> & F1).
    destruct (IH more indent (out ++ l1) D) as (l2 & -> & F2).
    exists (l1 ++ l2). rewrite <- app_assoc. split; [reflexivity|].
    apply Forall_app; auto.
  - cbn [app]. rewrite html_loop_plain by exact Po. rewrite So.
    rewrite <- app_assoc.
    destruct (IHi ((c :: rest) ++ more) (indent + 1)
                (out ++ [Indented indent (strip o)]))
      as (li & -> & Fl); [lia|].
    cbn [app]. rewrite html_loop_closing by exact Cc.
    replace (Z.max (indent + 1 - 1) 0) with indent by lia.
    destruct (IHr more indent
                (((out ++ [Indented indent (strip o)]) ++ li)
                   ++ [Indented indent (strip c)]) D) as (lr & -> & Fr).
    exists ([Indented indent (strip o)] ++ li
              ++ [Indented indent (strip c)] ++ lr).
    rewrite <- !app_assoc. split; [reflexivity|].
    repeat (apply Forall_app; split); try (repeat constructor; simpl; lia).
    + apply (at_least_weaken indent (indent + 1)); [lia|exact Fl].
    + exact Fr.
  - cbn [app]. rewrite html_loop_opaque by exact Oo.
    rewrite <- app_assoc. cbn [app].
    rewrite html_block_collect, collect_found by assumption.
    cbn [fst snd app]. replace (Z.max (indent + 1 - 1) 0) with indent by lia.
    destruct (IHr more indent
                (((out ++ [Indented indent (strip o)])
                    ++ block_lines (indent + 1) inner)
                   ++ [Indented indent (strip c)]) D) as (lr & -> & Fr).
    exists ([Indented indent (strip o)] ++ block_lines (indent + 1) inner
              ++ [Indented indent (strip c)] ++ lr).
    rewrite <- !app_assoc. split; [reflexivity|].
    repeat (apply Forall_app; split); try (repeat constructor; simpl; lia).
    + unfold block_lines. apply Forall_map, Forall_forall. intros line _.
      unfold block_line. destruct (is_empty (strip line)); simpl; [auto|lia].
    + exact Fr.
Qed.

End Balanced.

(** X9.  In a stylesheet, take a line that ends with an opening brace,
    then balanced lines, then a line that starts with a closing brace.
    The closing line is emitted at the depth at which the opening line is
    emitted, the lines between them one level deeper or more, and the
    depth after the closing line is that depth, or one more when the
    closing line itself ends with an opening brace.  The depth at which
    the opening line is emitted is the depth before it unless that line
    starts with a closing brace; so for a block whose opening line does
    not start with a closing brace and whose closing line does not end
    with an opening brace, the depth after the block is the depth before
    it. *)
Theorem css_block_alignment (o : str) (inner : list str) (c : str)
  (depth : Z) (out : list emitted) :
  0 <= depth ->
  endswith "{" (strip o) = true -> css_balanced inner ->
  startswith "}" (strip c) = true ->
  exists lines,
    fold_left css_line (o :: inner ++ [c]) (depth, out)
    = (if endswith "{" (strip c)
       then css_emit_depth depth (strip o) + 1
       else css_emit_depth depth (strip o),
       out ++ [Indented (css_emit_depth depth (strip o)) (strip o)]
           ++ lines
           ++ [Indented (css_emit_depth depth (strip o)) (strip c)])
    /\ Forall (at_least (css_emit_depth depth (strip o) + 1)) lines
    /\ (startswith "}" (strip o) = false ->
        css_emit_depth depth (strip o) = depth)
    /\ (css_opens o -> css_closes c ->
        fst (fold_left css_line (o :: inner ++ [c]) (depth, out)) = depth).
Proof.
  intros D Eo Bi Sc.
  assert (De : 0 <= css_emit_depth depth (strip o)).
  { unfold css_emit_depth. destruct (startswith "}" (strip o)); lia. }
  assert (Same : startswith "}" (strip o) = false ->
                 css_emit_depth depth (strip o) = depth).
  { intros So. unfold css_emit_depth. rewrite So. reflexivity. }
  assert (Main : exists lines,
            fold_left css_line (o :: inner ++ [c]) (depth, out)
            = (if endswith "{" (strip c)
               then css_emit_depth depth (strip o) + 1
               else css_emit_depth depth (strip o),
               out ++ [Indented (css_emit_depth depth (strip o)) (strip o)]
                   ++ lines
                   ++ [Indented (css_emit_depth depth (strip o)) (strip c)])
            /\ Forall (at_least (css_emit_depth depth (strip o) + 1)) lines).
  { cbn [fold_left]. rewrite fold_left_app. cbn [fold_left].
    rewrite css_line_eq. unfold css_next_depth at 1. rewrite Eo.
    assert (No : is_empty (strip o) = false).
    { destruct (strip o); [discriminate Eo|reflexivity]. }
    rewrite No.
    set (e := css_emit_depth depth (strip o)) in *.
    destruct (css_balanced_run inner Bi (e + 1)
                (out ++ [Indented e (strip o)])) as (li & -> & Fi); [lia|].
    rewrite css_line_eq.
    assert (Nc : is_empty (strip c) = false).
    { destruct (strip c); [discriminate Sc|reflexivity]. }
    rewrite Nc.
    assert (Ec : css_emit_depth (e + 1) (strip c) = e).
    { unfold css_emit_depth. rewrite Sc. lia. }
    unfold css_next_depth. rewrite Ec.
    exists li. rewrite <- !app_assoc.
    split; [destruct (endswith "{" (strip c)); reflexivity|exact Fi]. }
  destruct Main as (lines & E & F). exists lines.
  split; [exact E|]. split; [exact F|]. split; [exact Same|].
  intros (So & _) (_ & Cc). rewrite E, Cc. cbn [fst]. exact (Same So).
Qed.

Lemma css_block_alignment_witness :
  exists lines,
    fold_left css_line ("} b {" :: ["c"; "@media x {"; "d"; "}"] ++ ["} e {"])
              (2, [])
    = (2, [] ++ [Indented 1 "} b {"] ++ lines ++ [Indented 1 "} e {"])
    /\ Forall (at_least 2) lines.
Proof.
  destruct (css_block_alignment "} b {" ["c"; "@media x {"; "d"; "}"]
              "} e {" 2 []) as (lines & E & F & _).
  - lia.
  - reflexivity.
  - apply cb_line; [split; reflexivity|].
    apply (cb_block "@media x {" ["d"] "}" []).
    + split; reflexivity.
    + apply cb_line; [split; reflexivity|apply cb_nil].
    + split; reflexivity.
    + apply cb_nil.
  - reflexivity.
  - exists lines. split; [exact E|exact F].
Defined.

(** X10.  In markup, a closing tag that follows an opening tag and
    balanced tokens is emitted at the depth of the opening tag, the lines
    between them one level deeper or more, and the loop goes on at the
    depth before the element; the names of the two tags are not
    compared. *)
Theorem html_element_alignment (o : str) (inner : list str) (c : str)
  (more : list str) (indent : Z) (out : list emitted) :
  0 <= indent -> html_opens o -> html_balanced inner -> html_closes c ->
  exists lines,
    html_loop (o :: inner ++ c :: more) indent out
    = html_loop more indent
        (out ++ [Indented indent (strip o)] ++ lines
             ++ [Indented indent (strip c)])
    /\ Forall (at_least (indent + 1)) lines.
Proof.
  intros D (Po & So) Bi Cc.
  rewrite html_loop_plain by exact Po. rewrite So.
  destruct (html_balanced_run inner Bi (c :: more) (indent + 1)
              (out ++ [Indented indent (strip o)])) as (li & -> & Fl); [lia|].
  rewrite html_loop_closing by exact Cc.
  replace (Z.max (indent + 1 - 1) 0) with indent by lia.
  exists li. rewrite <- !app_assoc. split; [reflexivity|exact Fl].
Qed.

Lemma html_element_alignment_witness :
  exists lines,
    html_loop ("<ul>" :: ["<li>"; "a"; "<br>"; "</li>"; "<!-- x -->"]
                 ++ "</ol>" :: ["t"]) 1 []
    = html_loop ["t"] 1
        ([] ++ [Indented 1 (strip "<ul>")] ++ lines
            ++ [Indented 1 (strip "</ol>")])
    /\ Forall (at_least (1 + 1)) lines.
Proof.
  apply (html_element_alignment "<ul>"
           ["<li>"; "a"; "<br>"; "</li>"; "<!-- x -->"] "</ol>" ["t"] 1 []).
  - lia.
  - split; reflexivity.
  - apply (hb_element "<li>" ["a"; "<br>"] "</li>" ["<!-- x -->"]).
    + split; reflexivity.
    + apply hb_leaf; [left; reflexivity|].
      apply hb_leaf; [right; right; split; reflexivity|apply hb_nil].
    + reflexivity.
    + apply hb_leaf; [right; left; reflexivity|apply hb_nil].
  - reflexivity.
Defined.

(** ** When the markup reindenter raises *)

Section Raises.

Lemma drop_while_keeps_in (f : ascii -> bool) (a : str) x :
  In x a -> f x = false -> In x (drop_while f a).
Proof.
  induction a as [|c a IH]; intros H Fx; [destruct H|].
  simpl. destruct (f c) eqn:Fc; [|exact H].
  destruct H as [->|H]; [congruence|auto].
Qed.

Lemma strip_chars_keeps (chars s : str) x :
  In x s -> mem x chars = false -> In x (strip_chars chars s).
Proof.
  intros H M. unfold strip_chars. rewrite <- in_rev.
  apply drop_while_keeps_in; [|exact M]. rewrite <- in_rev.
  apply drop_while_keeps_in; assumption.
Qed.

Lemma split_when_covers (f : ascii -> bool) (s : str) x :
  In x s -> f x = false -> exists p, In p (split_when f s) /\ In x p.
Proof.
  induction s as [|c s IH]; intros H Fx; [destruct H|].
  simpl. destruct (f c) eqn:Fc.
  - destruct H as [->|H]; [congruence|].
    destruct (IH H Fx) as (p & Hp & Hx). exists p. split; [right|]; auto.
  - pose proof (split_when_nonempty f s) as NE.
    destruct (split_when f s) as [|q qs]; [contradiction|].
    destruct H as [->|H].
    + exists (x :: q). split; left; reflexivity.
    + destruct (IH H Fx) as (p & [<-|Hp] & Hx).
      * exists (c :: q). split; [left; reflexivity|right; exact Hx].
      * exists p. split; [right; exact Hp|exact Hx].
Qed.

Lemma split_when_pieces_free (f : ascii -> bool) (s : str) :
  Forall (Forall (fun c => f c = false)) (split_when f s).
Proof.
  induction s as [|c s IH]; [repeat constructor|].
  simpl. destruct (f c) eqn:Fc; [constructor; [constructor|exact IH]|].
  pose proof (split_when_nonempty f s) as NE.
  destruct (split_when f s) as [|q qs]; [contradiction|].
  inversion IH; subst. constructor; [constructor; assumption|assumption].
Qed.

(** The words that [split()] gives are not empty and hold no
    whitespace. *)
Lemma split_ws_words (s : str) :
  Forall (fun w => w <> [] /\ Forall (fun c => isspace c = false) w)
         (split_ws s).
Proof.
  unfold split_ws. apply Forall_forall. intros w H.
  apply filter_In in H. destruct H as (H & N). split.
  - destruct w; [discriminate N|discriminate].
  - pose proof (split_when_pieces_free isspace s) as F.
    rewrite Forall_forall in F. exact (F _ H).
Qed.

Lemma split_ws_some (s : str) x :
  In x s -> isspace x = false -> split_ws s <> [].
Proof.
  intros H S. destruct (split_when_covers isspace s x H S) as (p & Hp & Hx).
  unfold split_ws. intros E.
  assert (K : In p (filter (fun w => negb (is_empty w)) (split_when isspace s))).
  { apply filter_In. split; [exact Hp|]. destruct p; [destruct Hx|reflexivity]. }
  rewrite E in K. destruct K.
Qed.

Lemma split_ws_none (s : str) :
  Forall (fun c => isspace c = true) s -> split_ws s = [].
Proof.
  intros W. unfold split_ws. induction W as [|c s Hc _ IH]; [reflexivity|].
  simpl. rewrite Hc. exact IH.
Qed.

Lemma split_ws_word (w : str) :
  w <> [] -> Forall (fun c => isspace c = false) w -> split_ws w = [w].
Proof.
  intros N F. unfold split_ws. rewrite split_when_free by exact F.
  destruct w; [contradiction|reflexivity].
Qed.

Lemma all_space_or_ink (s : str) :
  Forall (fun c => isspace c = true) s
  \/ exists x, In x s /\ isspace x = false.
Proof.
  induction s as [|c s [IH|(x & Hx & Sx)]].
  - left; constructor.
  - destruct (isspace c) eqn:E.
    + left; constructor; assumption.
    + right; exists c; split; [left; reflexivity|exact E].
  - right; exists x; split; [right; exact Hx|exact Sx].
Qed.

Lemma is_self_closing_error (tag : str) :
  is_self_closing tag = IndexError
  <-> endswith "/" tag = false /\ Forall (fun c => isspace c = true) tag.
Proof.
  unfold is_self_closing. destruct (endswith "/" tag) eqn:E.
  - split; [discriminate|intros (K & _); discriminate K].
  - destruct (all_space_or_ink tag) as [W|(x & Hx & Sx)].
    + rewrite split_ws_none by exact W. split; auto.
    + pose proof (split_ws_some tag x Hx Sx) as N.
      destruct (split_ws tag) as [|w ws]; [contradiction|].
      split; [discriminate|]. intros (_ & W).
      rewrite Forall_forall in W. specialize (W _ Hx). congruence.
Qed.

Lemma is_self_closing_ink (tag : str) x :
  In x tag -> isspace x = false -> is_self_closing tag <> IndexError.
Proof.
  intros H S K. apply is_self_closing_error in K. destruct K as (_ & W).
  rewrite Forall_forall in W. specialize (W _ H). congruence.
Qed.

(** A tag in which the name pattern finds a name passes the test for
    self-closing tags without an exception. *)
Lemma named_tag_no_error (s g : str) :
  Re.open_name s = Some g -> self_closing_or_void s <> IndexError.
Proof.
  intros H. destruct (open_name_some _ _ H) as (r & -> & Eg & Ng).
  destruct g as [|x g']; [contradiction|].
  assert (Hx : Re.name_char x = true).
  { pose proof (take_while_all Re.name_char (lstrip r)) as F.
    rewrite <- Eg in F. inversion F; assumption. }
  assert (Ix : In x ("<"%char :: r)).
  { right. apply (drop_while_incl isspace). fold (lstrip r).
    rewrite <- (take_drop_while Re.name_char (lstrip r)), <- Eg.
    left; reflexivity. }
  destruct (name_char_facts x Hx) as (Sx & M1 & M2 & _).
  unfold self_closing_or_void.
  destruct (endswith "/>" ("<"%char :: r)); [discriminate|].
  unfold bare_name. destruct (mem " " ("<"%char :: r)).
  - pose proof (strip_chars_keeps "<>/ " _ x Ix M1) as K.
    pose proof (split_ws_some _ x K Sx) as N.
    pose proof (split_ws_words (strip_chars "<>/ " ("<"%char :: r))) as F.
    destruct (split_ws (strip_chars "<>/ " ("<"%char :: r))) as [|w ws];
      [contradiction|].
    inversion F as [|? ? (Nw & Fw) _]; subst. cbn [first bind].
    unfold is_self_closing. destruct (endswith "/" w); [discriminate|].
    rewrite split_ws_word by assumption. discriminate.
  - cbn [bind]. apply (is_self_closing_ink _ x); [|exact Sx].
    apply strip_chars_keeps; assumption.
Qed.

(** The tokens that a turn of the loop leaves are among those after the
    token of the turn. *)
Lemma html_step_incl (tok : str) (rest : list str) (indent : Z)
  (out : list emitted) ts d o :
  html_step tok rest indent out = Ok (ts, d, o) -> incl ts rest.
Proof.
  unfold html_step.
  destruct (is_empty (strip tok));
    [intros H; injection H as <- _ _; apply incl_refl|].
  destruct (is_comment_or_doctype (strip tok));
    [intros H; injection H as <- _ _; apply incl_refl|].
  destruct (startswith "<" (strip tok));
    [|intros H; injection H as <- _ _; apply incl_refl].
  destruct (is_closing_tag (strip tok));
    [intros H; injection H as <- _ _; apply incl_refl|].
  destruct (is_opaque_open (strip tok)).
  - destruct (collect_spec (tag_name_of (strip tok)) rest) as (Er & _ & _).
    destruct (snd (collect (tag_name_of (strip tok)) rest)) as [|t ts'];
      intros H; injection H as <- _ _; [intros x []|].
    rewrite Er. intros x Hx. apply in_or_app. right. right. exact Hx.
  - destruct (self_closing_or_void (strip tok)); [|discriminate].
    intros H; injection H as <- _ _; apply incl_refl.
Qed.

(** The tokens of every state of the loop are tokens of the text. *)
Lemma html_reaches_tokens (text : str) ts d o :
  html_reaches text ts d o -> incl ts (Re.findall (normalize text)).
Proof.
  induction 1 as [|tok rest indent out ts d o _ IH S]; [apply incl_refl|].
  intros x Hx. apply IH. right. exact (html_step_incl _ _ _ _ _ _ _ S x Hx).
Qed.

(** A property of the tokens that remain, kept by every turn, holds in
    every state of the loop. *)
Lemma html_reaches_among (text : str) (I : list str -> Prop) :
  I (Re.findall (normalize text)) ->
  (forall tok rest indent out ts d o,
      I (tok :: rest) -> html_step tok rest indent out = Ok (ts, d, o) ->
      I ts) ->
  forall ts d o, html_reaches text ts d o -> I ts.
Proof.
  intros H0 Step ts d o R.
  induction R as [|tok rest indent out ts d o _ IH S]; [exact H0|].
  exact (Step _ _ _ _ _ _ _ IH S).
Qed.

(** A turn raises only on an opening tag, other than a script or style
    tag, in which the name pattern finds no name. *)
Lemma html_step_named (tok : str) (rest : list str) (indent : Z)
  (out : list emitted) :
  (is_plain_open (strip tok) = true -> Re.open_name (strip tok) <> None) ->
  html_step tok rest indent out <> IndexError.
Proof.
  intros Pt. unfold html_step.
  destruct (is_empty (strip tok)) eqn:E; [discriminate|].
  destruct (is_comment_or_doctype (strip tok)) eqn:C; [discriminate|].
  destruct (startswith "<" (strip tok)) eqn:L; [|discriminate].
  destruct (is_closing_tag (strip tok)) eqn:K; [discriminate|].
  destruct (is_opaque_open (strip tok)) eqn:O.
  - destruct (snd (collect (tag_name_of (strip tok)) rest)); discriminate.
  - assert (Pl : is_plain_open (strip tok) = true)
      by (unfold is_plain_open; rewrite E, C, L, K, O; reflexivity).
    specialize (Pt Pl).
    destruct (Re.open_name (strip tok)) as [g|] eqn:G; [|contradiction].
    pose proof (named_tag_no_error _ _ G) as N.
    destruct (self_closing_or_void (strip tok)); [discriminate|contradiction].
Qed.

(** The loop returns from every state it reaches when no turn raises. *)
Lemma html_reaches_returns (text : str) :
  (forall tok rest indent out,
      html_reaches text (tok :: rest) indent out ->
      is_plain_open (strip tok) = true -> Re.open_name (strip tok) <> None) ->
  forall tokens indent out,
    html_reaches text tokens indent out ->
    exists out', html_loop tokens indent out = Ok out'.
Proof.
  intros Named tokens.
  induction tokens as [tokens IH] using (induction_ltof1 _ (@length str)).
  unfold ltof in IH. intros indent out R.
  destruct tokens as [|tok rest]; [eexists; reflexivity|].
  rewrite html_loop_step.
  destruct (html_step tok rest indent out) as [[[ts d] o]|] eqn:S.
  - apply IH.
    + apply html_step_length in S. simpl; lia.
    + exact (reaches_turn _ _ _ _ _ _ _ _ R S).
  - exfalso.
    exact (html_step_named tok rest indent out (Named _ _ _ _ R) S).
Qed.

End Raises.

(** X11.  [is_self_closing] raises [IndexError] exactly on a text of
    whitespace only, the empty text included; on any other text it
    returns. *)
Theorem is_self_closing_raises (tag : str) :
  is_self_closing tag = IndexError
  <-> Forall (fun c => isspace c = true) tag.
Proof.
  rewrite is_self_closing_error. split; [tauto|].
  intros W. split; [|exact W].
  destruct (endswith "/" tag) eqn:E; [|reflexivity].
  apply endswith_last in E. destruct E as (r & ->).
  apply Forall_app in W. destruct W as (_ & W).
  inversion W as [|? ? K _]. discriminate K.
Qed.

Lemma is_self_closing_raises_witness :
  is_self_closing [" "%char; LF] = IndexError
  /\ is_self_closing "br" <> IndexError.
Proof.
  split.
  - apply (proj2 (is_self_closing_raises [" "%char; LF])).
    repeat constructor.
  - intros K. apply (proj1 (is_self_closing_raises "br")) in K.
    inversion K as [|c l H _]. discriminate H.
Defined.

(** X12.  The markup reindenter returns on every input on which the name
    pattern finds a name in each tag that reaches the test for
    self-closing tags: each token that the loop examines at the start of
    a turn and that is an opening tag other than a comment, a doctype, a
    closing tag and a script or style tag.  Tokens inside a script or
    style block are not examined: [<script>< ></script>] returns, while
    [< >] alone raises. *)
Theorem format_html_returns (text : str) :
  (forall tok rest indent out,
      html_reaches text (tok :: rest) indent out ->
      is_plain_open (strip tok) = true ->
      Re.open_name (strip tok) <> None) ->
  exists out, format_html text = Ok out.
Proof.
  intros Named.
  destruct (html_reaches_returns text Named _ _ _ (reaches_start text))
    as (lines & L).
  exists (assemble lines). unfold format_html, html_lines. rewrite L.
  reflexivity.
Qed.

Lemma format_html_returns_witness :
  (exists out, format_html "<script>< ></script><a b>< img/ >" = Ok out)
  /\ format_html "< >" = IndexError.
Proof.
  split; [|reflexivity].
  apply (format_html_returns "<script>< ></script><a b>< img/ >").
  intros tok rest indent out R.
  assert (I : tok :: rest = ["<script>"; "< >"; "</script>"; "<a b>";
                             "< img/ >"]
              \/ tok :: rest = ["<a b>"; "< img/ >"]
              \/ tok :: rest = ["< img/ >"]
              \/ tok :: rest = []).
  { apply (html_reaches_among "<script>< ></script><a b>< img/ >"
             (fun ts => ts = ["<script>"; "< >"; "</script>"; "<a b>";
                              "< img/ >"]
                        \/ ts = ["<a b>"; "< img/ >"]
                        \/ ts = ["< img/ >"] \/ ts = []))
      with (d := indent) (o := out); [left; reflexivity| |exact R].
    clear. intros tok rest indent out ts d o [E|[E|[E|E]]] S;
      [| | |discriminate E];
      assert (Et : tok = hd [] (tok :: rest)) by reflexivity;
      assert (Er : rest = tl (tok :: rest)) by reflexivity;
      rewrite E in Et, Er; cbn [hd tl] in Et, Er; subst tok rest;
      vm_compute in S; injection S as <- _ _; auto. }
  destruct I as [E|[E|[E|E]]]; [| | |discriminate E];
    assert (Et : tok = hd [] (tok :: rest)) by reflexivity;
    rewrite E in Et; cbn [hd] in Et; subst tok; intros H;
    vm_compute in H; try discriminate H; vm_compute; discriminate.
Defined.

(** ** Second runs *)

Section SecondRun.

Lemma replace1_settles (old : ascii) (new s : str) :
  ~ In old new -> replace1 old new (replace1 old new s) = replace1 old new s.
Proof.
  intros N. apply replace1_absent. intros K.
  apply replace1_incl in K. destruct K as [K|(_ & K)]; [auto|].
  apply K; reflexivity.
Qed.

(** What [reformat] gives is left as it is by [reformat]; for markup,
    when the text has no script or style block. *)
Lemma reformat_again (path : Path) (text new : str) :
  (is_markup_path path = true ->
   Forall not_opaque (Re.findall (normalize text))) ->
  reformat path text = Ok new -> reformat path new = Ok new.
Proof.
  unfold is_markup_path, reformat. intros M.
  destruct (in_set (lower (suffix path)) [".html"; ".htm"]).
  - apply format_html_again. exact (M eq_refl).
  - destruct (in_set (lower (suffix path)) [".css"]).
    + intros H; injection H as <-. unfold format_css.
      rewrite css_lines_assemble. reflexivity.
    + intros H; injection H as <-. rewrite replace1_settles; [reflexivity|].
      intros [K|[K|[]]]; discriminate K.
Qed.

Lemma process_file_settled (path : Path) (text : str) :
  reformat path text = Ok text ->
  process_file path text = Ok [Print ("Unchanged: " ++ path_str path)].
Proof.
  intros H. unfold process_file. rewrite H. cbn [bind].
  rewrite str_eqb_refl. reflexivity.
Qed.

Lemma process_file_effects (path : Path) (text : str) (effects : list effect) :
  process_file path text = Ok effects ->
  (exists new, reformat path text = Ok new /\ new <> text
               /\ effects = [WriteText path new;
                             Print ("Formatted: " ++ path_str path)])
  \/ (reformat path text = Ok text
      /\ effects = [Print ("Unchanged: " ++ path_str path)]).
Proof.
  unfold process_file. destruct (reformat path text) as [new|]; [|discriminate].
  cbn [bind]. destruct (str_eqb new text) eqn:E; cbn [negb].
  - apply str_eqb_eq in E. subst new. intros H; injection H as <-. auto.
  - intros H; injection H as <-. left. exists new. repeat split.
    intros K. apply str_eqb_eq in K. congruence.
Qed.

End SecondRun.

(** X13.  A second run of [process_file] changes nothing: on the text
    that a first run computed, it writes nothing and reports the file as
    unchanged; for markup this holds when the first text has no script or
    style block. *)
Theorem process_file_second_run (path : Path) (text new : str) :
  (is_markup_path path = true ->
   Forall (fun tok => is_opaque_open (strip tok) = false)
          (Re.findall (normalize text))) ->
  reformat path text = Ok new ->
  process_file path new = Ok [Print ("Unchanged: " ++ path_str path)].
Proof.
  intros M H. apply process_file_settled.
  exact (reformat_again path text new M H).
Qed.

Lemma process_file_second_run_witness :
  reformat {| path_str := "s.CSS"; suffix := ".CSS" |}
           (unlines [".a{"; "b:c }"; "}"])
    = Ok (unlines [".a{"; "  b:c }"; "}"; ""])
  /\ process_file {| path_str := "s.CSS"; suffix := ".CSS" |}
       (unlines [".a{"; "  b:c }"; "}"; ""])
     = Ok [Print ("Unchanged: " ++ "s.CSS")].
Proof.
  split; [reflexivity|].
  apply (process_file_second_run {| path_str := "s.CSS"; suffix := ".CSS" |}
           (unlines [".a{"; "b:c }"; "}"]));
    [discriminate|reflexivity].
Defined.

(** X14.  A file whose suffix selects no reindenter is written exactly
    when its text holds a tab; the text written holds none. *)
Theorem other_file_written_on_tab (path : Path) (text : str) :
  lower (suffix path) <> ".html" -> lower (suffix path) <> ".htm" ->
  lower (suffix path) <> ".css" ->
  (In TAB text ->
   process_file path text
   = Ok [WriteText path (replace1 TAB "  " text);
         Print ("Formatted: " ++ path_str path)]
   /\ ~ In TAB (replace1 TAB "  " text))
  /\ (~ In TAB text ->
      process_file path text = Ok [Print ("Unchanged: " ++ path_str path)]).
Proof.
  intros H1 H2 H3.
  assert (R : reformat path text = Ok (replace1 TAB "  " text)).
  { unfold reformat, in_set. cbn [existsb].
    destruct (str_eqb (lower (suffix path)) ".html") eqn:E1;
      [apply str_eqb_eq in E1; contradiction|].
    destruct (str_eqb (lower (suffix path)) ".htm") eqn:E2;
      [apply str_eqb_eq in E2; contradiction|].
    destruct (str_eqb (lower (suffix path)) ".css") eqn:E3;
      [apply str_eqb_eq in E3; contradiction|].
    reflexivity. }
  assert (N : ~ In TAB (replace1 TAB "  " text)).
  { intros K. apply replace1_incl in K. destruct K as [K|(_ & K)].
    - destruct K as [K|[K|[]]]; discriminate K.
    - apply K; reflexivity. }
  split.
  - intros T. split; [|exact N].
    unfold process_file. rewrite R. cbn [bind].
    destruct (str_eqb (replace1 TAB "  " text) text) eqn:E; [|reflexivity].
    apply str_eqb_eq in E. rewrite E in N. contradiction.
  - intros T. apply process_file_settled.
    rewrite R, replace1_absent by exact T. reflexivity.
Qed.

Lemma other_file_written_on_tab_witness :
  In TAB ("a" ++ [TAB] ++ "b")
  /\ process_file {| path_str := "notes.txt"; suffix := ".txt" |}
       ("a" ++ [TAB] ++ "b")
     = Ok [WriteText {| path_str := "notes.txt"; suffix := ".txt" |}
             (replace1 TAB "  " ("a" ++ [TAB] ++ "b"));
           Print ("Formatted: " ++ "notes.txt")].
Proof.
  assert (T : In TAB ("a" ++ [TAB] ++ "b")) by (right; left; reflexivity).
  split; [exact T|].
  apply (proj1 (other_file_written_on_tab
                  {| path_str := "notes.txt"; suffix := ".txt" |}
                  ("a" ++ [TAB] ++ "b")
                  ltac:(discriminate) ltac:(discriminate)
                  ltac:(discriminate)) T).
Defined.

(** ** The entry point *)

Section Main.

Variable Path_ : str -> Path.

Lemma write_text_other (w : files) (path : Path) (data q : str) :
  q <> path_str path -> write_text w path data q = w q.
Proof.
  intros N. unfold write_text.
  destruct (str_eqb q (path_str path)) eqn:E; [|reflexivity].
  apply str_eqb_eq in E. contradiction.
Qed.

Lemma write_text_same (w : files) (path : Path) (data : str) :
  write_text w path data (path_str path) = Some data.
Proof. unfold write_text. rewrite str_eqb_refl. reflexivity. Qed.

(** What one call of [process_file] that returns does to the world. *)
Lemma run_process_file_cases (path : Path) (w w' : world) :
  run_process_file path w = (w', None) ->
  exists text new,
    fs w (path_str path) = Some text /\ reformat path text = Ok new
    /\ ((new <> text
         /\ w' = {| fs := write_text (fs w) path new;
                    stdout := stdout w ++ ["Formatted: " ++ path_str path] |})
        \/ (new = text
            /\ w' = {| fs := fs w;
                       stdout := stdout w
                                 ++ ["Unchanged: " ++ path_str path] |})).
Proof.
  unfold run_process_file.
  destruct (fs w (path_str path)) as [text|] eqn:R; [|discriminate].
  destruct (process_file path text) as [effects|] eqn:P; [|discriminate].
  intros H; injection H as <-.
  apply process_file_effects in P.
  destruct P as [(new & Hr & N & ->)|(Hr & ->)].
  - exists text, new. repeat split; auto.
  - exists text, text. repeat split; auto.
Qed.

(** What one call of [process_file] that raises does. *)
Lemma run_process_file_error (path : Path) (w w' : world) (e : raised) :
  run_process_file path w = (w', Some e) ->
  w' = w
  /\ match e with
     | RaisedReadError => fs w (path_str path) = None
     | RaisedIndexError =>
         exists text, fs w (path_str path) = Some text
                      /\ is_markup_path path = true
                      /\ format_html text = IndexError
     end.
Proof.
  unfold run_process_file.
  destruct (fs w (path_str path)) as [text|] eqn:R.
  - destruct (process_file path text) as [effects|] eqn:P; [discriminate|].
    intros H; injection H as <- <-. split; [reflexivity|].
    exists text. split; [reflexivity|].
    unfold process_file in P. unfold is_markup_path.
    destruct (reformat path text) as [new|] eqn:Q.
    + cbn [bind] in P. destruct (negb (str_eqb new text)); discriminate P.
    + unfold reformat in Q.
      destruct (in_set (lower (suffix path)) [".html"; ".htm"]);
        [split; [reflexivity|exact Q]|].
      destruct (in_set (lower (suffix path)) [".css"]); discriminate Q.
  - intros H; injection H as <- <-. split; reflexivity.
Qed.

Lemma run_process_file_frame (path : Path) (w w' : world)
      (r : option raised) (q : str) :
  run_process_file path w = (w', r) -> q <> path_str path ->
  fs w' q = fs w q.
Proof.
  intros H N. destruct r as [e|].
  - apply run_process_file_error in H. destruct H as (-> & _). reflexivity.
  - apply run_process_file_cases in H.
    destruct H as (text & new & _ & _ & [(_ & ->)|(_ & ->)]);
      cbn [fs]; [apply write_text_other; exact N|reflexivity].
Qed.

Lemma run_files_frame (args : list str) (w w' : world)
      (r : option raised) (q : str) :
  run_files Path_ args w = (w', r) ->
  (forall p, In p args -> path_str (Path_ p) <> q) ->
  fs w' q = fs w q.
Proof.
  revert w; induction args as [|p args IH]; intros w H N.
  - injection H as <- <-. reflexivity.
  - cbn [run_files] in H.
    destruct (run_process_file (Path_ p) w) as [w1 [e|]] eqn:E.
    + injection H as <- <-.
      apply (run_process_file_frame _ _ _ _ q E).
      intros K. apply (N p); [left; reflexivity|auto].
    + rewrite (IH w1 H) by (intros p' Hp; apply N; right; exact Hp).
      apply (run_process_file_frame _ _ _ _ q E).
      intros K. apply (N p); [left; reflexivity|auto].
Qed.

Lemma run_process_file_report (path : Path) (w w' : world) :
  run_process_file path w = (w', None) ->
  exists line, stdout w' = stdout w ++ [line] /\ report_of path line.
Proof.
  intros H. apply run_process_file_cases in H.
  destruct H as (text & new & _ & _ & [(_ & ->)|(_ & ->)]); cbn [stdout].
  - eexists; split; [reflexivity|left; reflexivity].
  - eexists; split; [reflexivity|right; reflexivity].
Qed.

Lemma run_files_reports (args : list str) (w w' : world) :
  run_files Path_ args w = (w', None) ->
  exists lines, stdout w' = stdout w ++ lines
                /\ Forall2 (fun p line => report_of (Path_ p) line) args lines.
Proof.
  revert w; induction args as [|p args IH]; intros w H.
  - injection H as <-. exists []. rewrite app_nil_r. split; constructor.
  - cbn [run_files] in H.
    destruct (run_process_file (Path_ p) w) as [w1 [e|]] eqn:E;
      [discriminate|].
    apply run_process_file_report in E. destruct E as (line & E & Hl).
    destruct (IH w1 H) as (lines & E' & F).
    exists (line :: lines). split; [|constructor; assumption].
    rewrite E', E, <- app_assoc. reflexivity.
Qed.

Lemma run_files_raises (args : list str) (w w' : world) (e : raised) :
  run_files Path_ args w = (w', Some e) ->
  exists done p rest,
    args = done ++ p :: rest
    /\ run_files Path_ done w = (w', None)
    /\ run_process_file (Path_ p) w' = (w', Some e).
Proof.
  revert w; induction args as [|p args IH]; intros w H; [discriminate|].
  cbn [run_files] in H.
  destruct (run_process_file (Path_ p) w) as [w1 [e1|]] eqn:E.
  - injection H as <- <-.
    destruct (run_process_file_error _ _ _ _ E) as (-> & _).
    exists [], p, args. repeat split. exact E.
  - destruct (IH w1 H) as (done & p' & rest & -> & D & R).
    exists (p :: done), p', rest. repeat split; [|exact R].
    cbn [run_files]. rewrite E. exact D.
Qed.

(** *** Settled files *)

Variable all : list str.

Hypothesis same_path :
  forall p q, In p all -> In q all ->
              path_str (Path_ p) = path_str (Path_ q) -> Path_ p = Path_ q.

Lemma run_process_file_settles (p : str) (w w' : world) :
  In p all ->
  (forall q, In q all -> settled (fs w) (Path_ q) \/ plain (fs w) (Path_ q)) ->
  run_process_file (Path_ p) w = (w', None) ->
  settled (fs w') (Path_ p)
  /\ (forall q, In q all -> settled (fs w) (Path_ q) ->
                settled (fs w') (Path_ q))
  /\ (forall q, In q all ->
                settled (fs w') (Path_ q) \/ plain (fs w') (Path_ q)).
Proof.
  intros Hp I H. apply run_process_file_cases in H.
  destruct H as (text & new & R & Q & [(N & ->)|(-> & ->)]); cbn [fs].
  - assert (S : settled (write_text (fs w) (Path_ p) new) (Path_ p)).
    { exists new. split; [apply write_text_same|].
      apply (reformat_again _ text); [|exact Q].
      intros M. destruct (I p Hp) as [(t & Ht & Hs)|Pl].
      - exfalso. apply N. congruence.
      - exact (Pl M text R). }
    assert (K : forall q, In q all ->
                  path_str (Path_ q) = path_str (Path_ p)
                  \/ write_text (fs w) (Path_ p) new (path_str (Path_ q))
                     = fs w (path_str (Path_ q))).
    { intros q Hq. unfold write_text.
      destruct (str_eqb (path_str (Path_ q)) (path_str (Path_ p))) eqn:E;
        [left; apply str_eqb_eq; exact E|right; reflexivity]. }
    split; [exact S|]. split.
    + intros q Hq Sq. destruct (K q Hq) as [E|E].
      * rewrite (same_path q p Hq Hp E). exact S.
      * unfold settled. rewrite E. exact Sq.
    + intros q Hq. destruct (K q Hq) as [E|E].
      * left. rewrite (same_path q p Hq Hp E). exact S.
      * unfold settled, plain. rewrite E. apply I. exact Hq.
  - split; [exists text; split; assumption|]. split; [auto|exact I].
Qed.

Lemma run_files_settles (args : list str) (w w' : world) :
  incl args all ->
  (forall q, In q all -> settled (fs w) (Path_ q) \/ plain (fs w) (Path_ q)) ->
  run_files Path_ args w = (w', None) ->
  (forall q, In q args -> settled (fs w') (Path_ q))
  /\ (forall q, In q all -> settled (fs w) (Path_ q) ->
                settled (fs w') (Path_ q)).
Proof.
  revert w; induction args as [|p args IH]; intros w Hi I H.
  - injection H as <-. split; [intros q []|auto].
  - cbn [run_files] in H.
    destruct (run_process_file (Path_ p) w) as [w1 [e|]] eqn:E;
      [discriminate|].
    assert (Hp : In p all) by (apply Hi; left; reflexivity).
    destruct (run_process_file_settles p w w1 Hp I E) as (S & K & I1).
    destruct (IH w1 (fun q Hq => Hi q (or_intror Hq)) I1 H) as (A & B).
    split.
    + intros q [<-|Hq]; [apply B; assumption|apply A; exact Hq].
    + intros q Hq Sq. apply B; [exact Hq|]. apply K; assumption.
Qed.

End Main.

Section MainAgain.

Variable Path_ : str -> Path.

(** On settled files the loop writes nothing and reports each file as
    unchanged. *)
Lemma run_files_settled (args : list str) (w : world) :
  (forall q, In q args -> settled (fs w) (Path_ q)) ->
  run_files Path_ args w
  = ({| fs := fs w;
        stdout := stdout w
                  ++ map (fun p => "Unchanged: " ++ path_str (Path_ p)) args |},
     None).
Proof.
  revert w; induction args as [|p args IH]; intros w S.
  - cbn [run_files map]. rewrite app_nil_r. destruct w; reflexivity.
  - cbn [run_files map].
    destruct (S p (or_introl eq_refl)) as (text & R & Q).
    unfold run_process_file. rewrite R, (process_file_settled _ _ Q).
    cbn [fold_left perform].
    rewrite IH by (intros q Hq; cbn [fs]; apply S; right; exact Hq).
    cbn [fs stdout]. rewrite <- app_assoc. reflexivity.
Qed.

End MainAgain.

(** X15.  [main] leaves alone every file that no argument names: whatever
    the outcome, the text of a path other than those of the arguments is
    what it was. *)
Theorem main_keeps_other_files (Path_ : str -> Path) (argv : list str)
        (w : world) (q : str) :
  (forall p, In p (tl argv) -> path_str (Path_ p) <> q) ->
  fs (fst (main Path_ argv w)) q = fs w q.
Proof.
  intros N. unfold main. destruct (length argv <? 2)%nat; [reflexivity|].
  destruct (run_files Path_ (tl argv) w) as [w' r] eqn:E.
  assert (F : fs w' q = fs w q) by exact (run_files_frame _ _ _ _ _ q E N).
  destruct r; exact F.
Qed.

Lemma main_keeps_other_files_witness :
  fs (fst (main (fun p => {| path_str := p; suffix := ".txt" |})
                ["auto_indent.py"; "a.txt"]
                {| fs := fun q => Some [TAB]; stdout := [] |})) "b.txt"
  = Some [TAB]
  /\ fs (fst (main (fun p => {| path_str := p; suffix := ".txt" |})
                   ["auto_indent.py"; "a.txt"]
                   {| fs := fun q => Some [TAB]; stdout := [] |})) "a.txt"
     = Some "  ".
Proof.
  split; [|reflexivity].
  apply (main_keeps_other_files
           (fun p => {| path_str := p; suffix := ".txt" |})
           ["auto_indent.py"; "a.txt"]
           {| fs := fun q => Some [TAB]; stdout := [] |} "b.txt").
  intros p [<-|[]]. discriminate.
Defined.

(** X16.  When [main] returns, the code is 1 or 0.  It is 1 exactly when
    there is no argument after the program name: the usage line is then
    the only output and no file is changed.  It is 0 otherwise, and the
    output is one report line for each argument, in order, naming its
    path as formatted or unchanged. *)
Theorem main_returns (Path_ : str -> Path) (argv : list str)
        (w w' : world) (code : Z) :
  main Path_ argv w = (w', Returns code) ->
  (code = 1 /\ (length argv < 2)%nat /\ fs w' = fs w
   /\ stdout w' = stdout w ++ ["Usage: auto_indent.py file1 [file2 ...]"])
  \/ (code = 0 /\ (2 <= length argv)%nat
      /\ exists lines,
          stdout w' = stdout w ++ lines
          /\ Forall2 (fun p line => report_of (Path_ p) line)
                     (tl argv) lines).
Proof.
  unfold main. destruct (Nat.ltb_spec (length argv) 2) as [L|L].
  - intros H; injection H as <- <-. left. repeat split. exact L.
  - destruct (run_files Path_ (tl argv) w) as [w1 [e|]] eqn:E;
      [discriminate|].
    intros H; injection H as <- <-. right. repeat split; [exact L|].
    exact (run_files_reports _ _ _ _ E).
Qed.

Lemma main_returns_witness :
  exists lines,
    stdout (fst (main (fun p => {| path_str := p; suffix := ".css" |})
                      ["auto_indent.py"; "a.css"; "b.css"]
                      {| fs := fun q => Some (unlines ["a{"; "b"; "}"]);
                         stdout := [] |}))
    = [] ++ lines
    /\ Forall2 (fun p line =>
                  report_of {| path_str := p; suffix := ".css" |} line)
               ["a.css"; "b.css"] lines.
Proof.
  destruct (main_returns
              (fun p => {| path_str := p; suffix := ".css" |})
              ["auto_indent.py"; "a.css"; "b.css"]
              {| fs := fun q => Some (unlines ["a{"; "b"; "}"]);
                 stdout := [] |}
              _ 0 eq_refl) as [(K & _)|(_ & _ & H)];
    [discriminate K|exact H].
Defined.

(** X17.  When [main] raises, the world it leaves is the one that the
    loop gives on the arguments before the failing one, all of which it
    processed without an exception: their files are read, written where
    the text changes, and reported, one line each in order.  Nothing is
    written or printed for the failing argument or for those after it.
    The failing file either cannot be read or is a markup file on whose
    text [format_html] raises [IndexError]: a stylesheet or any other
    file that can be read never makes [main] raise. *)
Theorem main_raises (Path_ : str -> Path) (argv : list str)
        (w w' : world) (e : raised) :
  main Path_ argv w = (w', Raises e) ->
  exists done p rest lines,
    tl argv = done ++ p :: rest
    /\ run_files Path_ done w = (w', None)
    /\ stdout w' = stdout w ++ lines
    /\ Forall2 (fun p line => report_of (Path_ p) line) done lines
    /\ (forall q, (forall p', In p' done -> path_str (Path_ p') <> q) ->
                  fs w' q = fs w q)
    /\ match e with
       | RaisedReadError => fs w' (path_str (Path_ p)) = None
       | RaisedIndexError =>
           exists text, fs w' (path_str (Path_ p)) = Some text
                        /\ is_markup_path (Path_ p) = true
                        /\ format_html text = IndexError
       end.
Proof.
  unfold main. destruct (length argv <? 2)%nat; [discriminate|].
  destruct (run_files Path_ (tl argv) w) as [w1 [e1|]] eqn:E;
    [|discriminate].
  intros H; injection H as <- <-.
  apply run_files_raises in E.
  destruct E as (done & p & rest & A & B & D).
  destruct (run_files_reports _ _ _ _ B) as (lines & C & F).
  exists done, p, rest, lines. repeat split; try assumption.
  - intros q N. exact (run_files_frame _ _ _ _ _ q B N).
  - exact (proj2 (run_process_file_error _ _ _ _ D)).
Qed.

Lemma main_raises_witness :
  exists done p rest text,
    ["a.css"; "b.html"; "c.css"] = done ++ p :: rest
    /\ run_files (fun p => {| path_str := p; suffix := skipn 1 p |}) done
                 {| fs := fun q => Some "< >"; stdout := [] |}
       = (fst (main (fun p => {| path_str := p; suffix := skipn 1 p |})
                    ["auto_indent.py"; "a.css"; "b.html"; "c.css"]
                    {| fs := fun q => Some "< >"; stdout := [] |}),
          None)
    /\ is_markup_path {| path_str := p; suffix := skipn 1 p |} = true
    /\ format_html text = IndexError.
Proof.
  destruct (main_raises
              (fun p => {| path_str := p; suffix := skipn 1 p |})
              ["auto_indent.py"; "a.css"; "b.html"; "c.css"]
              {| fs := fun q => Some "< >"; stdout := [] |}
              _ RaisedIndexError eq_refl)
    as (done & p & rest & lines & A & B & _ & _ & _ & text & _ & M & F).
  exists done, p, rest, text. repeat split; assumption.
Defined.

(** X18.  Running [main] again on the files that a run returning 0 left
    changes no file and reports every argument as unchanged, when no
    markup file among the arguments has a script or style block ([Path]
    gives paths with the same text the same suffix). *)
Theorem main_second_run (Path_ : str -> Path) (argv : list str)
        (w w1 : world) :
  (forall p q, In p (tl argv) -> In q (tl argv) ->
               path_str (Path_ p) = path_str (Path_ q) ->
               Path_ p = Path_ q) ->
  (forall p text, In p (tl argv) -> is_markup_path (Path_ p) = true ->
                  fs w (path_str (Path_ p)) = Some text ->
                  Forall (fun tok => is_opaque_open (strip tok) = false)
                         (Re.findall (normalize text))) ->
  main Path_ argv w = (w1, Returns 0) ->
  main Path_ argv w1
  = ({| fs := fs w1;
        stdout := stdout w1
                  ++ map (fun p => "Unchanged: " ++ path_str (Path_ p))
                         (tl argv) |},
     Returns 0).
Proof.
  intros Inj Pl. unfold main.
  destruct (length argv <? 2)%nat; [discriminate|].
  destruct (run_files Path_ (tl argv) w) as [w' [e|]] eqn:E; [discriminate|].
  intros H; injection H as <-.
  destruct (run_files_settles Path_ (tl argv) Inj (tl argv) w w'
              (incl_refl _)) as (S & _); [|exact E|].
  - intros q Hq. right. intros M text R. exact (Pl q text Hq M R).
  - rewrite (run_files_settled Path_ (tl argv) w' S). reflexivity.
Qed.

Lemma main_second_run_witness :
  main (fun p => {| path_str := p; suffix := skipn 1 p |})
       ["auto_indent.py"; "a.css"; "b.html"]
       (fst (main (fun p => {| path_str := p; suffix := skipn 1 p |})
                  ["auto_indent.py"; "a.css"; "b.html"]
                  {| fs := fun q => Some "<p>{ a"; stdout := [] |}))
  = ({| fs := fs (fst (main (fun p => {| path_str := p;
                                         suffix := skipn 1 p |})
                            ["auto_indent.py"; "a.css"; "b.html"]
                            {| fs := fun q => Some "<p>{ a";
                               stdout := [] |}));
        stdout := ["Formatted: a.css"; "Formatted: b.html"]
                  ++ ["Unchanged: a.css"; "Unchanged: b.html"] |},
     Returns 0).
Proof.
  apply (main_second_run
           (fun p => {| path_str := p; suffix := skipn 1 p |})
           ["auto_indent.py"; "a.css"; "b.html"]
           {| fs := fun q => Some "<p>{ a"; stdout := [] |}).
  - intros p q [<-|[<-|[]]] [<-|[<-|[]]] K; try reflexivity; discriminate K.
  - intros p text [<-|[<-|[]]] M R; [discriminate M|].
    injection R as <-.
    change (Re.findall (normalize "<p>{ a")) with ["<p>"; "{ a"].
    repeat constructor.
  - reflexivity.
Defined.
